(** * Hum It Out: call authentication, job queue and generation pipeline

    A shallow embedding of the backend services of the repository
    (AuthService, the Twilio webhook routes, the dashboard route that queues
    a regeneration, ProcessingService, AudioProcessor, AG2MusicGenerator,
    TwilioService) together with the properties the specification states
    about them and further properties read off the code.

    Conventions of the embedding.
    - A JavaScript function that may throw returns a [result]; an [async]
      function that reads or writes the database, the socket server or the
      job queue is a state transformer [M A] over [state].
    - Every call that leaves the process (a database query, an HTTP
      download, an OpenAI completion, a Twilio message) takes its outcome as
      an argument: [None]/[Ok] when the collaborator answers, [Some msg]/
      [Throw msg] when it throws.  The logic around the call is the code's.
    - Clock readings ([NOW()], [Date.now()]) are handed in by the caller;
      the [Date] fields of a job and the log lines that carry no decision
      are left out.
    - The file system is not part of the state: the recording that
      [downloadAudio] writes to the uploads directory, and that [cleanup]
      removes when the pipeline has succeeded, is not tracked.
    - One turn of the event loop is one [step].  The [await]s inside one
      run of the pipeline are merged into the turn in which [processJob]
      settles: the pipeline touches neither the queue, the flag nor the job
      objects between them. *)

From Stdlib Require Import ZArith NArith QArith Strings.Ascii Strings.Byte.
From stdpp Require Import base strings pretty list gmap.

Local Open Scope string_scope.
Local Open Scope list_scope.
Set Warnings "-register-all".

(** ** Results of calls that may throw *)

Inductive result (A : Type) : Type :=
| Ok (a : A)
| Throw (msg : string).
Arguments Ok {A} a.
Arguments Throw {A} msg.

(** [`${prefix}${error.message}`] of the [throw new Error(...)] wrappers. *)
Definition wrap_error {A} (prefix : string) (r : result A) : result A :=
  match r with
  | Ok a => Ok a
  | Throw msg => Throw (prefix +:+ msg)
  end.

(** ** JavaScript values that travel through the pipeline as JSON *)

Inductive json : Type :=
| JNull
| JBool (b : bool)
| JNum (q : Q)
| JStr (s : string)
| JArr (items : list json)
| JObj (fields : list (string * json)).

(** Property lookup in an object literal: the first binding of the key. *)
Fixpoint assoc (k : string) (fs : list (string * json)) : option json :=
  match fs with
  | [] => None
  | (k', v) :: rest => if String.eqb k k' then Some v else assoc k rest
  end.

(** Assignment of a property: an existing key keeps its position, a new key
    goes last (the order of [{...a, k: v}] for keys that are not array
    indices). *)
Fixpoint obj_set (k : string) (v : json) (fs : list (string * json))
  : list (string * json) :=
  match fs with
  | [] => [(k, v)]
  | (k', v') :: rest =>
      if String.eqb k k' then (k, v) :: rest else (k', v') :: obj_set k v rest
  end.

(** JavaScript truthiness of a JSON value; [undefined] is [None]. *)
Definition truthy (v : json) : bool :=
  match v with
  | JNull => false
  | JBool b => b
  | JNum q => negb (Qeq_bool q 0)
  | JStr s => negb (String.eqb s "")
  | JArr _ | JObj _ => true
  end.

Definition truthy_opt (o : option json) : bool :=
  match o with Some v => truthy v | None => false end.

(** Truthiness of a string that may be [undefined] (a query parameter, a
    body field). *)
Definition present (o : option string) : bool :=
  match o with
  | Some s => negb (String.eqb s "")
  | None => false
  end.

(** [a || b] on possibly undefined strings. *)
Definition or_else (a b : option string) : option string :=
  if present a then a else b.

(** ** The regular expression [/^\d{6}$/] *)

Definition is_digit (c : Ascii.ascii) : bool :=
  (48 <=? Ascii.nat_of_ascii c)%nat && (Ascii.nat_of_ascii c <=? 57)%nat.

Definition six_digits (s : string) : bool :=
  (String.length s =? 6)%nat && forallb is_digit (String.list_ascii_of_string s).

(** [!pin || !/^\d{6}$/.test(pin)] *)
Definition bad_pin_format (pin : option string) : bool :=
  match pin with
  | None => true
  | Some s => String.eqb s "" || negb (six_digits s)
  end.

(** ** Rows of the database tables the services touch

    Values bound to query parameters are kept as the JavaScript values the
    code passes ([undefined] is [None] and becomes SQL NULL). *)

Record user_row : Type := {
  u_id : string;
  u_email : string;
  u_name : option string;
  u_phone : option string;
  u_pin : string;
  u_is_active : bool;
  u_created_at : nat;
  u_last_login : option nat
}.

Record session_row : Type := {
  s_id : string;
  s_user_id : option string;
  s_call_sid : option json;
  s_original_audio_url : option json;
  s_transcribed_lyrics : option json;
  s_tempo : option json;
  s_detected_key : option json;
  s_mood_tags : json;
  s_genre_tags : json;
  s_audio_duration : option json;
  s_processing_status : string
}.

Record track_row : Type := {
  t_session_id : string;
  t_backing_track_url : option json;
  t_midi_url : option json;
  t_stems_folder_url : option json;
  t_lyrics_url : option json;
  t_download_package_url : option json;
  t_total_size : option json
}.

Record call_log_row : Type := {
  cl_phone_number : option string;
  cl_call_sid : option string;
  cl_user_id : option string;
  cl_action : string;
  cl_success : bool;
  cl_error_message : option string
}.

(** ** Jobs of the processing queue *)

Inductive JobType : Type := process_recording | regenerate_session.

Inductive JobStatus : Type := queued | processing | failed | retrying | completed.

#[global] Instance JobType_eq_dec : EqDecision JobType.
Proof. solve_decision. Defined.

#[global] Instance JobStatus_eq_dec : EqDecision JobStatus.
Proof. solve_decision. Defined.

(** The job object literal of [queueProcessingJob] / [queueRegenerationJob],
    without its three [Date] fields; [j_duration] is the text handed to
    [parseInt]. *)
Record job : Type := {
  j_id : string;
  j_type : JobType;
  j_userId : option string;
  j_callSid : option string;
  j_recordingUrl : option string;
  j_recordingSid : option string;
  j_duration : option string;
  j_phoneNumber : option string;
  j_sessionId : option string;
  j_originalAudioUrl : option string;
  j_options : json;
  j_status : JobStatus;
  j_attempts : nat;
  j_maxAttempts : nat;
  j_lastError : option string
}.

Definition with_status (st : JobStatus) (j : job) : job :=
  {| j_id := j_id j; j_type := j_type j; j_userId := j_userId j;
     j_callSid := j_callSid j; j_recordingUrl := j_recordingUrl j;
     j_recordingSid := j_recordingSid j; j_duration := j_duration j;
     j_phoneNumber := j_phoneNumber j; j_sessionId := j_sessionId j;
     j_originalAudioUrl := j_originalAudioUrl j; j_options := j_options j;
     j_status := st; j_attempts := j_attempts j;
     j_maxAttempts := j_maxAttempts j; j_lastError := j_lastError j |}.

(** [job.attempts++; job.status = 'failed'; job.lastError = error.message] *)
Definition record_failure (msg : string) (j : job) : job :=
  {| j_id := j_id j; j_type := j_type j; j_userId := j_userId j;
     j_callSid := j_callSid j; j_recordingUrl := j_recordingUrl j;
     j_recordingSid := j_recordingSid j; j_duration := j_duration j;
     j_phoneNumber := j_phoneNumber j; j_sessionId := j_sessionId j;
     j_originalAudioUrl := j_originalAudioUrl j; j_options := j_options j;
     j_status := failed; j_attempts := S (j_attempts j);
     j_maxAttempts := j_maxAttempts j; j_lastError := Some msg |}.

(** ** Effects that leave the process *)

Inductive effect : Type :=
| Emit (room event : string) (jobId sessionId error : option string)
       (files : option json)
    (* io.to(room).emit(event, {jobId, sessionId, error, files, ...}) *)
| SmsCreate (to body : string) (delivered : bool)
    (* TwilioService: this.client.messages.create({to, from, body}) *)
| DownloadLinks (to : string) (sessionId : string) (delivered : bool)
    (* SMSService.sendDownloadLinks(phoneNumber, {sessionId, ...}) *)
| Log (level message : string).
    (* logger.warn / logger.error lines *)

(** A [processQueue] activation suspended at one of its two [await]s. *)
Inductive worker : Type :=
| Running (a : nat)    (* await this.processJob(job) *)
| Failing (a : nat).   (* await this.handleJobFailure(job) *)

(** ** The state of the process

    The four tables, the effects so far, the two static fields of
    [ProcessingService], the job objects (a job is the index of its object
    in [heap]; the queue and the workers hold references to it) and the
    suspended worker loops.  [io_up] tells whether [require('../server').io]
    is defined. *)
Record state : Type := {
  users : list user_row;
  sessions : list session_row;
  generated_tracks : list track_row;
  call_logs : list call_log_row;
  trace : list effect;
  io_up : bool;
  processingQueue : list nat;
  isProcessing : bool;
  heap : list job;
  workers : list worker
}.

Definition set_users (f : list user_row → list user_row) (s : state) : state :=
  {| users := f (users s); sessions := sessions s;
     generated_tracks := generated_tracks s; call_logs := call_logs s;
     trace := trace s; io_up := io_up s;
     processingQueue := processingQueue s; isProcessing := isProcessing s;
     heap := heap s; workers := workers s |}.

Definition set_sessions (f : list session_row → list session_row) (s : state)
  : state :=
  {| users := users s; sessions := f (sessions s);
     generated_tracks := generated_tracks s; call_logs := call_logs s;
     trace := trace s; io_up := io_up s;
     processingQueue := processingQueue s; isProcessing := isProcessing s;
     heap := heap s; workers := workers s |}.

Definition set_generated_tracks (f : list track_row → list track_row)
  (s : state) : state :=
  {| users := users s; sessions := sessions s;
     generated_tracks := f (generated_tracks s); call_logs := call_logs s;
     trace := trace s; io_up := io_up s;
     processingQueue := processingQueue s; isProcessing := isProcessing s;
     heap := heap s; workers := workers s |}.

Definition set_call_logs (f : list call_log_row → list call_log_row)
  (s : state) : state :=
  {| users := users s; sessions := sessions s;
     generated_tracks := generated_tracks s; call_logs := f (call_logs s);
     trace := trace s; io_up := io_up s;
     processingQueue := processingQueue s; isProcessing := isProcessing s;
     heap := heap s; workers := workers s |}.

Definition set_trace (f : list effect → list effect) (s : state) : state :=
  {| users := users s; sessions := sessions s;
     generated_tracks := generated_tracks s; call_logs := call_logs s;
     trace := f (trace s); io_up := io_up s;
     processingQueue := processingQueue s; isProcessing := isProcessing s;
     heap := heap s; workers := workers s |}.

Definition set_processingQueue (f : list nat → list nat) (s : state) : state :=
  {| users := users s; sessions := sessions s;
     generated_tracks := generated_tracks s; call_logs := call_logs s;
     trace := trace s; io_up := io_up s;
     processingQueue := f (processingQueue s); isProcessing := isProcessing s;
     heap := heap s; workers := workers s |}.

Definition set_isProcessing (b : bool) (s : state) : state :=
  {| users := users s; sessions := sessions s;
     generated_tracks := generated_tracks s; call_logs := call_logs s;
     trace := trace s; io_up := io_up s;
     processingQueue := processingQueue s; isProcessing := b;
     heap := heap s; workers := workers s |}.

Definition set_heap (f : list job → list job) (s : state) : state :=
  {| users := users s; sessions := sessions s;
     generated_tracks := generated_tracks s; call_logs := call_logs s;
     trace := trace s; io_up := io_up s;
     processingQueue := processingQueue s; isProcessing := isProcessing s;
     heap := f (heap s); workers := workers s |}.

Definition set_workers (f : list worker → list worker) (s : state) : state :=
  {| users := users s; sessions := sessions s;
     generated_tracks := generated_tracks s; call_logs := call_logs s;
     trace := trace s; io_up := io_up s;
     processingQueue := processingQueue s; isProcessing := isProcessing s;
     heap := heap s; workers := f (workers s) |}.

(** ** The monad of the services: state and exceptions *)

Definition M (A : Type) : Type := state → result A * state.

Definition ret {A} (a : A) : M A := λ s, (Ok a, s).

Definition throw {A} (msg : string) : M A := λ s, (Throw msg, s).

Definition bind {A B} (m : M A) (k : A → M B) : M B :=
  λ s, match m s with
       | (Ok a, s') => k a s'
       | (Throw msg, s') => (Throw msg, s')
       end.

(** [try { m } catch (error) { h error.message }] *)
Definition try_catch {A} (m : M A) (h : string → M A) : M A :=
  λ s, match m s with
       | (Ok a, s') => (Ok a, s')
       | (Throw msg, s') => h msg s'
       end.

Definition modify (f : state → state) : M unit := λ s, (Ok tt, f s).

Definition gets {A} (f : state → A) : M A := λ s, (Ok (f s), s).

Definition lift {A} (r : result A) : M A := λ s, (r, s).

#[global] Instance M_ret : MRet M := @ret.
#[global] Instance M_bind : MBind M := λ A B k m, bind m k.

Definition emit_effect (e : effect) : M unit :=
  modify (set_trace (λ t, t ++ [e])).

Definition log (level message : string) : M unit :=
  emit_effect (Log level message).

(** [await db.query(...)]: the driver throws [msg] or the statement [run]s. *)
Definition db_query {A} (fault : option string) (run : M A) : M A :=
  match fault with
  | Some msg => throw msg
  | None => run
  end.

(** [new C()] for a constructor that throws [msg] or returns. *)
Definition construct (fault : option string) : M unit :=
  match fault with
  | Some msg => throw msg
  | None => mret tt
  end.

(** ** AuthService *)

(** The columns [validatePIN] selects. *)
Record pin_user : Type := {
  pu_id : string;
  pu_email : string;
  pu_name : option string;
  pu_phone : option string;
  pu_created_at : nat;
  pu_last_login : option nat
}.

Definition select_columns (u : user_row) : pin_user :=
  {| pu_id := u_id u; pu_email := u_email u; pu_name := u_name u;
     pu_phone := u_phone u; pu_created_at := u_created_at u;
     pu_last_login := u_last_login u |}.

(** [WHERE pin = $1 AND is_active = true] *)
Definition pin_matches (pin : string) (u : user_row) : bool :=
  String.eqb (u_pin u) pin && u_is_active u.

Definition touch_last_login (now : nat) (uid : string) (u : user_row) : user_row :=
  if String.eqb (u_id u) uid then
    {| u_id := u_id u; u_email := u_email u; u_name := u_name u;
       u_phone := u_phone u; u_pin := u_pin u; u_is_active := u_is_active u;
       u_created_at := u_created_at u; u_last_login := Some now |}
  else u.

(** [logFailedPINAttempt]: one warning with the PIN redacted. *)
Definition logFailedPINAttempt : M unit :=
  log "warn" "Failed PIN attempt:".

(** [validatePIN(pin)]; [q_select] and [q_update] are the outcomes of its two
    queries, [now] is the database clock. *)
Definition validatePIN (now : nat) (q_select q_update : option string)
  (pin : option string) : M (option pin_user) :=
  match pin with
  | None => throw "PIN must be exactly 6 digits"
  | Some p =>
      if bad_pin_format (Some p) then throw "PIN must be exactly 6 digits"
      else
        rows ← db_query q_select
                 (gets (λ s, select_columns <$>
                               filter (λ u, pin_matches p u = true) (users s)));
        match rows with
        | [] => logFailedPINAttempt;; ret None
        | user :: _ =>
            db_query q_update
              (modify (set_users (fmap (touch_last_login now (pu_id user)))));;
            ret (Some user)
        end
  end.

(** ** AG2MusicGenerator: the four-agent chain *)

#[global] Instance result_ret : MRet result := @Ok.
#[global] Instance result_bind : MBind result :=
  λ A B k r, match r with Ok a => k a | Throw msg => Throw msg end.

(** What [transcribeAudio] returns. *)
Record transcription : Type := {
  t_text : string;
  t_duration : json;
  t_segments : list json;
  t_confidence : json
}.

(** [v.k] for a named property [k]: a [TypeError] on [null], the binding on
    an object, [undefined] on the other JSON values. *)
Definition get_prop (v : json) (k : string) : result (option json) :=
  match v with
  | JNull => Throw ("Cannot read properties of null (reading '" +:+ k +:+ "')")
  | JObj fs => Ok (assoc k fs)
  | JBool _ | JNum _ | JStr _ | JArr _ => Ok None
  end.

(** [v[0]] on a truthy JSON value.  Of a string it is the first character,
    which is the first UTF-16 unit the code takes when that character is
    ASCII. *)
Definition index0 (v : json) : option json :=
  match v with
  | JArr items => head items
  | JStr (String c _) => Some (JStr (String c ""))
  | JObj fs => assoc "0" fs
  | _ => None
  end.

Fixpoint indexed (i : nat) (items : list json) : list (string * json) :=
  match items with
  | [] => []
  | v :: rest => (pretty i, v) :: indexed (S i) rest
  end.

Fixpoint chars (i : nat) (s : string) : list (string * json) :=
  match s with
  | EmptyString => []
  | String c rest => (pretty i, JStr (String c "")) :: chars (S i) rest
  end.

(** The own enumerable properties copied by [{...v}]. *)
Definition spread (v : json) : list (string * json) :=
  match v with
  | JObj fs => fs
  | JArr items => indexed 0 items
  | JStr s => chars 0 s
  | JNull | JBool _ | JNum _ => []
  end.

(** [{...base, k1: v1, ..., kn: vn}] *)
Definition obj_extend (base : list (string * json))
  (kvs : list (string * json)) : list (string * json) :=
  fold_left (λ acc kv, obj_set kv.1 kv.2 acc) kvs base.

Definition strs (l : list string) : json := JArr (JStr <$> l).

(** The outcome of each agent's completion and [JSON.parse]. *)
Record agent_outcomes : Type := {
  ao_analyst : result json;
  ao_composer : result json;
  ao_specialist : result json;
  ao_director : result json
}.

(** The [try] of [runMusicAnalyst] and its [catch]; the prompt built before
    them is [analyst_prompt]. *)
Definition runMusicAnalyst (musicalAnalysis : json) (o : result json) : json :=
  match o with
  | Ok analysis => analysis
  | Throw _ =>
      JObj (obj_extend (spread musicalAnalysis)
              [("scale", JStr "major");
               ("rhythmicPattern", JStr "steady four-four");
               ("melodicHints", JStr "vocal melody detected");
               ("confidence", JNum (6 # 10))])
  end.

Definition chordNotes : json :=
  JObj [("C", strs ["C4"; "E4"; "G4"]);
        ("Am", strs ["A3"; "C4"; "E4"]);
        ("F", strs ["F3"; "A3"; "C4"]);
        ("G", strs ["G3"; "B3"; "D4"])].

(** The object returned by the [catch] of [runChordComposer]. *)
Definition default_progression : json :=
  JObj [("primaryProgression", strs ["C"; "Am"; "F"; "G"]);
        ("chordNotes", chordNotes);
        ("timing", JStr "whole notes")].

Definition runChordComposer (analysis : json) (o : result json) : json :=
  match o with
  | Ok chords => chords
  | Throw _ => default_progression
  end.

(** Whether a value can be put into a template literal.  [`${v}`] converts
    [v] to a string: a primitive always converts; an object is asked for
    its [toString] and then its [valueOf], so an object of parsed JSON with
    an own property [toString] (never a function) has no usable method left
    and the conversion throws, while every other object is rendered by
    [Object.prototype.toString]; an array joins the conversions of its
    elements. *)
Fixpoint stringifiable (v : json) : bool :=
  match v with
  | JObj fs =>
      match assoc "toString" fs with
      | Some _ => false
      | None => true
      end
  | JArr items => forallb stringifiable items
  | JNull | JBool _ | JNum _ | JStr _ => true
  end.

(** [`${v}`] inside a prompt; the text itself goes to the model, whose
    answer is an outcome. *)
Definition interpolate (v : json) : result unit :=
  if stringifiable v then Ok tt
  else Throw "Cannot convert object to primitive value".

(** The prompt of [runMusicAnalyst], built before its [try]: it interpolates
    [transcription.duration] and [transcription.confidence] ([text] is a
    string, [segments.length] a number, and [JSON.stringify] of the analysis
    does not throw on JSON). *)
Definition analyst_prompt (t : transcription) : result unit :=
  interpolate (t_duration t);;
  interpolate (t_confidence t).

(** [analysis.genres && analysis.genres[0] ? analysis.genres[0] : 'pop'] *)
Definition primaryGenre (analysis : json) : result json :=
  genres ← get_prop analysis "genres";
  mret (match genres with
        | Some g =>
            if truthy g && truthy_opt (index0 g)
            then default (JStr "pop") (index0 g)
            else JStr "pop"
        | None => JStr "pop"
        end).

Definition runGenreSpecialist (chordProgression analysis : json)
  (o : result json) : result json :=
  genre ← primaryGenre analysis;
  (* the prompt, built before the [try], interpolates [primaryGenre] *)
  interpolate genre;;
  mret (match o with
        | Ok adaptation => adaptation
        | Throw _ =>
            JObj [("primaryGenre", genre);
                  ("instrumentation",
                   JObj [("drums", JStr "acoustic drum kit");
                         ("bass", JStr "electric bass");
                         ("chords", JStr "piano");
                         ("melody", JStr "synth lead")]);
                  ("rhythmPattern", JStr "steady four-four")]
        end).

Definition default_mixLevels : json :=
  JObj [("drums", JNum (8 # 10)); ("bass", JNum (7 # 10));
        ("chords", JNum (6 # 10)); ("melody", JNum (9 # 10))].

Definition runArrangementDirector (genreAdaptation analysis : json)
  (o : result json) : json :=
  match o with
  | Ok arrangement => arrangement
  | Throw _ =>
      JObj [("finalInstrumentation",
             JObj [("drums", JStr "acoustic kit");
                   ("bass", JStr "electric bass");
                   ("chords", JStr "piano");
                   ("melody", JStr "synth lead")]);
            ("mixLevels", default_mixLevels)]
  end.

Definition getFallbackMusicData (now_iso : string) (musicalAnalysis : json)
  (t : transcription) : json :=
  JObj [("analysis",
         JObj (obj_extend (spread musicalAnalysis)
                 [("confidence", JNum (5 # 10)); ("source", JStr "fallback")]));
        ("chords",
         JObj [("primaryProgression", strs ["C"; "Am"; "F"; "G"]);
               ("chordNotes", chordNotes)]);
        ("genre",
         JObj [("primaryGenre", JStr "pop");
               ("instrumentation",
                JObj [("drums", JStr "acoustic kit");
                      ("bass", JStr "electric bass");
                      ("chords", JStr "piano");
                      ("melody", JStr "clean guitar")])]);
        ("arrangement",
         JObj [("structure", strs ["intro"; "verse"; "chorus"; "outro"]);
               ("mixLevels", default_mixLevels)]);
        ("lyrics", JStr (t_text t));
        ("generatedAt", JStr now_iso)].

(** The [try] block of [generateMusic].  Its first statement reads
    [musicalAnalysis.tempo], [.key] and [.mood] for the log line.  What an
    agent throws outside its own [try], while it builds its prompt, ends the
    block. *)
Definition generateMusic_try (now_iso : string) (now_ms : Z)
  (musicalAnalysis : json) (t : transcription) (o : agent_outcomes)
  : result json :=
  get_prop musicalAnalysis "tempo";;
  analyst_prompt t;;
  let enhancedAnalysis := runMusicAnalyst musicalAnalysis (ao_analyst o) in
  let chordProgression := runChordComposer enhancedAnalysis (ao_composer o) in
  genreAdaptation ←
    runGenreSpecialist chordProgression enhancedAnalysis (ao_specialist o);
  let finalArrangement :=
    runArrangementDirector genreAdaptation enhancedAnalysis (ao_director o) in
  mret (JObj [("analysis", enhancedAnalysis);
              ("chords", chordProgression);
              ("genre", genreAdaptation);
              ("arrangement", finalArrangement);
              ("generatedAt", JStr now_iso);
              ("processingTime", JNum (inject_Z now_ms))]).

Definition generateMusic (now_iso : string) (now_ms : Z)
  (musicalAnalysis : json) (t : transcription) (o : agent_outcomes) : json :=
  match generateMusic_try now_iso now_ms musicalAnalysis t o with
  | Ok music => music
  | Throw _ => getFallbackMusicData now_iso musicalAnalysis t
  end.

(** ** AudioProcessor: the nine stages of [processRecording] *)

(** What [downloadAudio] returns. *)
Record audio_file : Type := {
  af_path : string;
  af_size : Z;
  af_filename : string
}.

(** [config.audio.maxSize] *)
Definition audio_maxSize : Z := 10 * 1024 * 1024.

(** The outcomes of the calls [processRecording] makes outside the process,
    in the order of the stages. *)
Record pipeline_outcomes : Type := {
  po_download : result audio_file;       (* axios.get, fs.writeFile, fs.stat *)
  po_access : option string;             (* fs.access *)
  po_transcribe : result transcription;  (* fs.readFile, Whisper *)
  po_analyze : result json;              (* chat completion, JSON.parse *)
  po_insert_session : result string;     (* INSERT INTO sessions RETURNING id *)
  po_agents : agent_outcomes;
  po_now_iso : string;
  po_now_ms : Z;
  po_files : string → json → result json;
                                         (* fileManager.generateAudioFiles *)
  po_update_session : option string;     (* UPDATE sessions *)
  po_insert_tracks : option string;      (* INSERT INTO generated_tracks *)
  po_sms : option string;                (* smsService.sendDownloadLinks *)
  po_unlink : option string              (* fs.unlink *)
}.

Definition downloadAudio (o : result audio_file) : M audio_file :=
  lift (wrap_error "Failed to download audio: " o).

Definition validateAudioFile (audioFile : audio_file) (access : option string)
  : M bool :=
  if (audio_maxSize <? af_size audioFile)%Z then throw "Audio file too large"
  else if (af_size audioFile <? 1000)%Z
       then throw "Audio file too small or corrupted"
  else match access with
       | Some _ => throw "Audio file is not accessible"
       | None => mret true
       end.

Definition transcribeAudio (o : result transcription) : M transcription :=
  lift (wrap_error "Transcription failed: " o).

Definition default_analysis : json :=
  JObj [("tempo", JNum (inject_Z 120));
        ("key", JStr "C");
        ("mood", strs ["neutral"]);
        ("genres", strs ["pop"]);
        ("structure", JStr "verse-chorus");
        ("energy", JNum (inject_Z 5));
        ("confidence", JNum (3 # 10));
        ("reasoning", JStr "Default values used due to analysis failure")].

(** The prompt of [analyzeMusicalElements], built before its [try]: it
    interpolates [transcription.duration] ([text] is a string and
    [segments.length] a number). *)
Definition analysis_prompt (t : transcription) : result unit :=
  interpolate (t_duration t).

(** The [try] of [analyzeMusicalElements] and its [catch]. *)
Definition analyzeMusicalElements (o : result json) : json :=
  match o with
  | Ok analysis => analysis
  | Throw _ => default_analysis
  end.

Definition opt_field (k : string) (o : option string) : list (string * json) :=
  match o with
  | Some s => [(k, JStr s)]
  | None => []
  end.

(** [v || []] *)
Definition or_empty_array (o : option json) : json :=
  match o with
  | Some v => if truthy v then v else JArr []
  | None => JArr []
  end.

(** The row [createSession] inserts for [sessionData], under the id the
    database returns. *)
Definition session_of (sid : string) (userId : option string)
  (sessionData : list (string * json)) : session_row :=
  {| s_id := sid;
     s_user_id := userId;
     s_call_sid := assoc "callSid" sessionData;
     s_original_audio_url := assoc "audioUrl" sessionData;
     s_transcribed_lyrics := assoc "lyrics" sessionData;
     s_tempo := assoc "tempo" sessionData;
     s_detected_key := assoc "key" sessionData;
     s_mood_tags := or_empty_array (assoc "mood" sessionData);
     s_genre_tags := or_empty_array (assoc "genres" sessionData);
     s_audio_duration := assoc "duration" sessionData;
     s_processing_status := "processing" |}.

Definition createSession (userId : option string)
  (sessionData : list (string * json)) (o : result string) : M string :=
  match o with
  | Ok sid =>
      modify (set_sessions (λ t, t ++ [session_of sid userId sessionData]));;
      mret sid
  | Throw msg => throw ("Failed to create session: " +:+ msg)
  end.

Definition with_processing_status (st : string) (r : session_row)
  : session_row :=
  {| s_id := s_id r; s_user_id := s_user_id r; s_call_sid := s_call_sid r;
     s_original_audio_url := s_original_audio_url r;
     s_transcribed_lyrics := s_transcribed_lyrics r; s_tempo := s_tempo r;
     s_detected_key := s_detected_key r; s_mood_tags := s_mood_tags r;
     s_genre_tags := s_genre_tags r; s_audio_duration := s_audio_duration r;
     s_processing_status := st |}.

(** [UPDATE sessions SET processing_status = st WHERE where_] *)
Definition update_status (where_ : session_row → bool) (st : string)
  (t : list session_row) : list session_row :=
  (λ r, if where_ r then with_processing_status st r else r) <$> t.

Definition saveResults (sessionId : string) (audioFiles : json)
  (q_update q_insert : option string) : M unit :=
  try_catch
    (db_query q_update
       (modify (set_sessions
                  (update_status (λ r, String.eqb (s_id r) sessionId)
                     "completed")));;
     backingTrack ← lift (get_prop audioFiles "backingTrack");
     midi ← lift (get_prop audioFiles "midi");
     stemsZip ← lift (get_prop audioFiles "stemsZip");
     lyrics ← lift (get_prop audioFiles "lyrics");
     downloadPackage ← lift (get_prop audioFiles "downloadPackage");
     totalSize ← lift (get_prop audioFiles "totalSize");
     db_query q_insert
       (modify (set_generated_tracks
                  (λ t, t ++ [{| t_session_id := sessionId;
                                 t_backing_track_url := backingTrack;
                                 t_midi_url := midi;
                                 t_stems_folder_url := stemsZip;
                                 t_lyrics_url := lyrics;
                                 t_download_package_url := downloadPackage;
                                 t_total_size := totalSize |}]))))
    (λ msg, throw ("Failed to save results: " +:+ msg)).

(** [sendSMSNotification].  The class [SMSService] is not among the sources;
    the outcome [sms] of its [sendDownloadLinks] is an argument. *)
Definition sendSMSNotification (phoneNumber sessionId : string)
  (audioFiles : json) (sms : option string) : M unit :=
  try_catch
    (lift (get_prop audioFiles "downloadPackage");;
     match sms with
     | None => emit_effect (DownloadLinks phoneNumber sessionId true)
     | Some msg =>
         emit_effect (DownloadLinks phoneNumber sessionId false);;
         throw msg
     end)
    (λ _, log "error" "Failed to send SMS notification:").

Definition cleanup (unlink : option string) : M unit :=
  match unlink with
  | None => mret tt
  | Some _ => log "warn" "Failed to cleanup temp file:"
  end.

(** The [recordingData] argument of [processRecording]. *)
Record recordingData : Type := {
  rd_recordingUrl : option string;
  rd_callSid : option string;
  rd_duration : option string;
  rd_phoneNumber : option string
}.

(** What [processRecording] returns: [{sessionId, success: true, files}]. *)
Record processing_result : Type := {
  pr_sessionId : string;
  pr_files : json
}.

Definition processRecording (userId : option string) (rd : recordingData)
  (o : pipeline_outcomes) : M processing_result :=
  try_catch
    ((* Step 1: Download audio file *)
     audioFile ← downloadAudio (po_download o);
     (* Step 2: Validate audio file *)
     validateAudioFile audioFile (po_access o);;
     (* Step 3: Transcribe with OpenAI Whisper *)
     transcription ← transcribeAudio (po_transcribe o);
     (* Step 4: Analyze musical elements *)
     lift (analysis_prompt transcription);;
     let analysis := analyzeMusicalElements (po_analyze o) in
     (* Step 5: Create session record *)
     sid ← createSession userId
             (obj_extend
                (opt_field "callSid" (rd_callSid rd)
                 ++ opt_field "audioUrl" (rd_recordingUrl rd)
                 ++ [("audioFile", JStr (af_path audioFile));
                     ("lyrics", JStr (t_text transcription));
                     ("duration", t_duration transcription)])
                (spread analysis))
             (po_insert_session o);
     (* Step 6: Generate music with the multi-agent system *)
     let generatedMusic :=
       generateMusic (po_now_iso o) (po_now_ms o) analysis transcription
         (po_agents o) in
     (* Step 7: Create audio files *)
     audioFiles ← lift (po_files o sid generatedMusic);
     (* Step 8: Save results to database *)
     saveResults sid audioFiles (po_update_session o) (po_insert_tracks o);;
     (* Step 9: Send SMS notification *)
     match rd_phoneNumber rd with
     | Some phone =>
         if present (Some phone)
         then sendSMSNotification phone sid audioFiles (po_sms o)
         else mret tt
     | None => mret tt
     end;;
     cleanup (po_unlink o);;
     mret {| pr_sessionId := sid; pr_files := audioFiles |})
    (λ msg, log "error" "Audio processing failed:";; throw msg).

(** ** Configuration and TwilioService *)

(** What the services read from [process.env] and [config], and
    [twilio.validateRequest], the signature check of the Twilio library,
    taken as a total function of the token, the header, the URL and the
    parameters. *)
Record environment : Type := {
  NODE_ENV : option string;
  twilio_authToken : option string;
  twilio_phoneNumber : option string;
  validateRequest :
    option string → option string → string → list (string * string) → bool
}.

(** [s.includes(sub)] *)
Definition includes (sub s : string) : bool :=
  match String.index 0 sub s with
  | Some _ => true
  | None => false
  end.

Inductive sms_result : Type := sms_skipped | sms_sent | sms_failed.

(** [sendSMS(to, message)]; [create] is the outcome of
    [this.client.messages.create]. *)
Definition sendSMS (env : environment) (to message : string)
  (create : option string) : M sms_result :=
  if negb (present (twilio_phoneNumber env))
     || includes "xxx" (default "" (twilio_phoneNumber env))
  then mret sms_skipped
  else
    try_catch
      (match create with
       | None => emit_effect (SmsCreate to message true);; mret sms_sent
       | Some msg => emit_effect (SmsCreate to message false);; throw msg
       end)
      (λ _, log "warn" "SMS sending failed (continuing without SMS):";;
            mret sms_failed).

(** [logCall]: the insert, or an error line when the query throws. *)
Definition logCall (q : option string) (callSid phoneNumber : option string)
  (action : string) (success : bool) (errorMessage userId : option string)
  : M unit :=
  try_catch
    (db_query q
       (modify (set_call_logs
                  (λ t, t ++ [{| cl_phone_number := phoneNumber;
                                 cl_call_sid := callSid;
                                 cl_user_id := userId;
                                 cl_action := action;
                                 cl_success := success;
                                 cl_error_message := errorMessage |}]))))
    (λ _, log "error" "Failed to log call:").

(** ** ProcessingService *)

(** SQL equality of a text column with a text parameter: NULL equals
    nothing, and a stored value that is not a string is taken to differ. *)
Definition sql_eq (column : option json) (param : option string) : bool :=
  match column, param with
  | Some (JStr a), Some b => String.eqb a b
  | _, _ => false
  end.

Definition sql_eq_str (column param : option string) : bool :=
  match column, param with
  | Some a, Some b => String.eqb a b
  | _, _ => false
  end.

(** [WHERE call_sid = $1 AND user_id = $2] *)
Definition session_of_call (callSid userId : option string) (r : session_row)
  : bool :=
  sql_eq (s_call_sid r) callSid && sql_eq_str (s_user_id r) userId.

Definition room (userId : option string) : string :=
  "user_" +:+ default "undefined" userId.

(** [if (io && userId) io.to(`user_${userId}`).emit(...)]; [emit] queues the
    event for the room and is taken not to throw. *)
Definition notify (userId : option string) (event : string)
  (jobId sessionId error : option string) (files : option json) : M unit :=
  io ← gets io_up;
  if io && present userId
  then emit_effect (Emit (room userId) event jobId sessionId error files)
  else mret tt.

Definition apology : string :=
  "🎵 Hum It Out: Sorry, we encountered an issue processing your recording. Please try again or contact support if the problem persists.".

(** The outcomes of the calls [handleJobFailure] makes: its query, the
    constructor [new TwilioService()] and [messages.create]. *)
Record failure_outcomes : Type := {
  fo_update : option string;
  fo_twilio : option string;
  fo_create : option string
}.

(** The first block of [handleJobFailure]: update the database to mark the
    session as failed. *)
Definition mark_session_failed (j : job) (fo : failure_outcomes) : M unit :=
  match j_type j with
  | process_recording =>
      try_catch
        (db_query (fo_update fo)
           (modify (set_sessions
                      (update_status
                         (session_of_call (j_callSid j) (j_userId j))
                         "failed"))))
        (λ _, log "error" "Failed to update session status:")
  | regenerate_session => mret tt
  end.

(** Its last block: optionally send a notification to the user. *)
Definition send_apology (env : environment) (j : job) (fo : failure_outcomes)
  : M unit :=
  try_catch
    (match j_phoneNumber j with
     | Some phone =>
         if present (Some phone) then
           construct (fo_twilio fo);;
           sendSMS env phone apology (fo_create fo);;
           mret tt
         else mret tt
     | None => mret tt
     end)
    (λ _, log "error" "Failed to send failure notification:").

Definition handleJobFailure (env : environment) (j : job)
  (fo : failure_outcomes) : M unit :=
  log "error" "Job permanently failed:";;
  mark_session_failed j fo;;
  (* Notify frontend of failure *)
  notify (j_userId j) "processing_failed" (Some (j_id j))
    (or_else (j_sessionId j) (j_callSid j)) (j_lastError j) None;;
  send_apology env j fo.

Definition handleRecordingFailure (q : option string)
  (userId callSid : option string) (errorMessage : string) : M unit :=
  log "error" "Recording failure reported:";;
  try_catch
    (db_query q
       (modify (set_sessions
                  (update_status (session_of_call callSid userId) "failed"))))
    (λ _, log "error"
            "Failed to update session status after recording failure:");;
  notify userId "processing_failed" None callSid (Some errorMessage) None.

(** The argument of [queueProcessingJob]. *)
Record jobData : Type := {
  jd_userId : option string;
  jd_callSid : option string;
  jd_recordingUrl : option string;
  jd_recordingSid : option string;
  jd_duration : option string;
  jd_phoneNumber : option string
}.

(** The argument of [queueRegenerationJob]. *)
Record regenData : Type := {
  rg_sessionId : option string;
  rg_userId : option string;
  rg_originalAudioUrl : option string;
  rg_options : json
}.

Definition new_processing_job (jd : jobData) (id : string) : job :=
  {| j_id := id; j_type := process_recording;
     j_userId := jd_userId jd; j_callSid := jd_callSid jd;
     j_recordingUrl := jd_recordingUrl jd;
     j_recordingSid := jd_recordingSid jd;
     j_duration := jd_duration jd; j_phoneNumber := jd_phoneNumber jd;
     j_sessionId := None; j_originalAudioUrl := None; j_options := JNull;
     j_status := queued; j_attempts := 0; j_maxAttempts := 3;
     j_lastError := None |}.

Definition new_regeneration_job (rg : regenData) (id : string) : job :=
  {| j_id := id; j_type := regenerate_session;
     j_userId := rg_userId rg; j_callSid := None;
     j_recordingUrl := None; j_recordingSid := None;
     j_duration := None; j_phoneNumber := None;
     j_sessionId := rg_sessionId rg;
     j_originalAudioUrl := rg_originalAudioUrl rg;
     j_options := rg_options rg;
     j_status := queued; j_attempts := 0; j_maxAttempts := 3;
     j_lastError := None |}.

(** [processJob] up to its first [await]: the job is marked processing and
    the start is announced. *)
Definition processJob_begin (a : nat) (s : state) : state :=
  match heap s !! a with
  | Some j =>
      (notify (j_userId j) "processing_started" (Some (j_id j))
         (or_else (j_sessionId j) (j_callSid j)) None None
         (set_heap (alter (with_status processing) a) s)).2
  | None => s
  end.

(** One test of [while (this.processingQueue.length > 0)]: either the loop
    ends and the flag is lowered, or the head is shifted and [processJob]
    runs to its [await]. *)
Definition next_iteration (s : state) : option worker * state :=
  match processingQueue s with
  | [] => (None, set_isProcessing false s)
  | a :: rest =>
      (Some (Running a), processJob_begin a (set_processingQueue (λ _, rest) s))
  end.

(** [processQueue()] called from outside: the guard, the flag, and the loop
    up to its first [await]; the activation joins [workers]. *)
Definition processQueue (s : state) : state :=
  if isProcessing s
     || match processingQueue s with [] => true | _ => false end
  then s
  else
    match next_iteration (set_isProcessing true s) with
    | (Some w, s') => set_workers (λ ws, ws ++ [w]) s'
    | (None, s') => s'
    end.

(** A suspended activation [w] goes round the loop again. *)
Definition resume (w : nat) (s : state) : state :=
  match next_iteration s with
  | (Some wk, s') => set_workers (<[w := wk]>) s'
  | (None, s') => set_workers (delete w) s'
  end.

(** [this.processingQueue.push(job); if (!this.isProcessing)
    this.processQueue(); return job] for a fresh job object. *)
Definition enqueue (j : job) : M nat :=
  a ← gets (λ s, length (heap s));
  modify (set_heap (λ h, h ++ [j]));;
  modify (set_processingQueue (λ q, q ++ [a]));;
  running ← gets isProcessing;
  (if negb running then modify processQueue else mret tt);;
  mret a.

Definition queueProcessingJob (jd : jobData) (id : string) : M nat :=
  enqueue (new_processing_job jd id).

Definition queueRegenerationJob (rg : regenData) (id : string) : M nat :=
  enqueue (new_regeneration_job rg id).

(** The outcomes of the calls one run of [processJob] makes.  The class
    [AudioProcessor] of the sources defines no [regenerateSession]: the call
    then throws a [TypeError], which is one value of [jo_regenerate]. *)
Record job_outcomes : Type := {
  jo_pipeline : pipeline_outcomes;
  jo_regenerate : result json
}.

(** [processJob] between its first [await] and its last three statements. *)
Definition processJob_work (j : job) (o : job_outcomes) : M unit :=
  match j_type j with
  | process_recording =>
      r ← processRecording (j_userId j)
            {| rd_recordingUrl := j_recordingUrl j;
               rd_callSid := j_callSid j;
               rd_duration := j_duration j;
               rd_phoneNumber := j_phoneNumber j |}
            (jo_pipeline o);
      notify (j_userId j) "processing_complete" (Some (j_id j))
        (Some (pr_sessionId r)) None (Some (pr_files r))
  | regenerate_session =>
      files ← lift (jo_regenerate o);
      notify (j_userId j) "processing_complete" (Some (j_id j))
        (j_sessionId j) None (Some files)
  end.

(** [processJob] after its first [await]. *)
Definition processJob_rest (a : nat) (j : job) (o : job_outcomes) : M unit :=
  processJob_work j o;;
  modify (set_heap (alter (with_status completed) a)).

(** The [catch] block of [processQueue] for the job at [a], run by the
    activation [w]. *)
Definition on_error (w a : nat) (msg : string) (s : state) : state :=
  let s1 := set_heap (alter (record_failure msg) a)
              (set_trace (λ t, t ++ [Log "error" "Job processing failed:"]) s) in
  match heap s1 !! a with
  | Some j =>
      if (j_attempts j <? j_maxAttempts j)%nat then
        (* Retry if under max attempts *)
        resume w
          (set_processingQueue (λ q, q ++ [a])
             (set_heap (alter (with_status retrying) a) s1))
      else
        (* Handle permanent failure *)
        set_workers (<[w := Failing a]>) s1
  | None => s1
  end.

(** [clearQueue()] *)
Definition clearQueue (s : state) : state :=
  set_isProcessing false (set_processingQueue (λ _, []) s).

(** What happens to the process, one event-loop turn at a time. *)
Inductive label : Type :=
| QueueProcessingJob (jd : jobData) (id : string)
| QueueRegenerationJob (rg : regenData) (id : string)
| Settle (w : nat) (o : job_outcomes)
    (* the [processJob] awaited by activation [w] settles *)
| FailureHandled (w : nat) (fo : failure_outcomes)
    (* the [handleJobFailure] awaited by activation [w] settles *)
| ClearQueue.

Definition step (env : environment) (l : label) (s : state) : option state :=
  match l with
  | QueueProcessingJob jd id => Some (queueProcessingJob jd id s).2
  | QueueRegenerationJob rg id => Some (queueRegenerationJob rg id s).2
  | Settle w o =>
      match workers s !! w with
      | Some (Running a) =>
          match heap s !! a with
          | Some j =>
              match processJob_rest a j o s with
              | (Ok _, s') => Some (resume w s')
              | (Throw msg, s') => Some (on_error w a msg s')
              end
          | None => None
          end
      | _ => None
      end
  | FailureHandled w fo =>
      match workers s !! w with
      | Some (Failing a) =>
          match heap s !! a with
          | Some j =>
              match handleJobFailure env j fo s with
              | (Ok _, s') => Some (resume w s')
              | (Throw _, s') => Some (set_workers (delete w) s')
              end
          | None => None
          end
      | _ => None
      end
  | ClearQueue => Some (clearQueue s)
  end.

Fixpoint run (env : environment) (ls : list label) (s : state) : option state :=
  match ls with
  | [] => Some s
  | l :: rest =>
      match step env l s with
      | Some s' => run env rest s'
      | None => None
      end
  end.

(** The process after start-up: empty queue, no job object, no worker. *)
Definition boot (us : list user_row) (ss : list session_row) (io : bool)
  : state :=
  {| users := us; sessions := ss; generated_tracks := []; call_logs := [];
     trace := []; io_up := io; processingQueue := []; isProcessing := false;
     heap := []; workers := [] |}.

Definition reachable (env : environment) (s : state) : Prop :=
  ∃ us ss io ls, run env ls (boot us ss io) = Some s.

(** The jobs whose status is ['processing']. *)
Definition processing_jobs (s : state) : list job :=
  filter (λ j, j_status j = processing) (heap s).

(** ** The Twilio webhook routes *)

Record request : Type := {
  rq_host : string;                   (* req.headers.host *)
  rq_signature : option string;       (* req.headers['x-twilio-signature'] *)
  rq_originalUrl : string;
  rq_body : list (string * string);
  rq_query : list (string * string)
}.

Fixpoint field (k : string) (fs : list (string * string)) : option string :=
  match fs with
  | [] => None
  | (k', v) :: rest => if String.eqb k k' then Some v else field k rest
  end.

(** The verbs of a [VoiceResponse]. *)
Inductive verb : Type :=
| Say (voice language : option string) (text : string)
| Gather (input : string) (timeout numDigits : nat)
         (finishOnKey action method : string) (nested : list verb)
| Record_ (maxLength timeout : nat) (playBeep : bool) (trim : string)
          (recordingStatusCallback action method : string).

Inductive response_body : Type :=
| Twiml (verbs : list verb)
| Text (content : string).

Record response : Type := {
  status : nat;
  body : response_body
}.

Definition xml (verbs : list verb) : response :=
  {| status := 200; body := Twiml verbs |}.

Definition forbidden : response :=
  {| status := 403; body := Text "Invalid Twilio signature" |}.

(** The middleware: [None] is [next()]. *)
Definition validateTwilioSignature (env : environment) (req : request)
  : M (option response) :=
  if bool_decide (NODE_ENV env = Some "development") then
    (* Skip validation in development *)
    mret None
  else
    let url := "https://" +:+ rq_host req +:+ rq_originalUrl req in
    if validateRequest env (twilio_authToken env) (rq_signature req) url
         (rq_body req)
    then mret None
    else log "warn" "Invalid Twilio signature:";; mret (Some forbidden).

(** [router.post(path, validateTwilioSignature, handler)] *)
Definition route (env : environment) (req : request) (handler : M response)
  : M response :=
  checked ← validateTwilioSignature env req;
  match checked with
  | Some rejection => mret rejection
  | None => handler
  end.

Definition voice_handler (q_log : option string) (req : request) : M response :=
  try_catch
    (logCall q_log (field "CallSid" (rq_body req)) (field "From" (rq_body req))
       "incoming_call" true None None;;
     mret (xml
       [Gather "dtmf" 10 6 "#" "/twilio/authenticate" "POST"
          [Say (Some "alice") (Some "en-US")
             "Welcome to Hum It Out! Please enter your 6-digit PIN, followed by the pound key."];
        Say (Some "alice") None
          "I didn't receive your PIN. Please call back and try again. Goodbye!"]))
    (λ _, mret (xml
       [Say None None
          "Sorry, there was a technical issue. Please try again later."])).

(** The instruction to record, with the two callbacks that carry the
    correlation of the call. *)
Definition record_instruction (userId : string) (CallSid : option string)
  : verb :=
  Record_ 30 5 true "trim-silence"
    ("/twilio/recording-status?userId=" +:+ userId +:+ "&callSid="
       +:+ default "undefined" CallSid)
    ("/twilio/recording-complete?userId=" +:+ userId +:+ "&callSid="
       +:+ default "undefined" CallSid)
    "POST".

Definition authenticate_handler (now : nat)
  (q_select q_update q_log : option string) (req : request) : M response :=
  let Digits := field "Digits" (rq_body req) in
  let From := field "From" (rq_body req) in
  let CallSid := field "CallSid" (rq_body req) in
  try_catch
    ((* Validate PIN format *)
     if bad_pin_format Digits then
       logCall q_log CallSid From "pin_failure" false
         (Some "Invalid PIN format") None;;
       mret (xml
         [Say None None
            "Invalid PIN format. Please call back and enter a 6-digit number."])
     else
       (* Authenticate user *)
       user ← validatePIN now q_select q_update Digits;
       match user with
       | None =>
           logCall q_log CallSid From "pin_failure" false
             (Some "Invalid PIN") None;;
           mret (xml
             [Say None None
                "Invalid PIN. Please check your PIN and try again."])
       | Some u =>
           (* Log successful authentication *)
           logCall q_log CallSid From "pin_success" true None
             (Some (pu_id u));;
           (* Proceed to recording *)
           mret (xml
             [Say (Some "alice") None
                "Welcome back! Start humming or singing your melody after the beep. You have 30 seconds. Go!";
              record_instruction (pu_id u) CallSid;
              Say None None
                "Thank you for recording. We're processing your music now!"])
       end)
    (λ msg,
       logCall q_log CallSid From "pin_failure" false (Some msg) None;;
       mret (xml
         [Say None None
            "Sorry, there was a technical issue during authentication. Please try again."])).

Definition recording_complete_handler (q_log : option string) (id : string)
  (req : request) : M response :=
  let userId := field "userId" (rq_query req) in
  let callSid := field "callSid" (rq_query req) in
  let RecordingUrl := field "RecordingUrl" (rq_body req) in
  try_catch
    (match RecordingUrl with
     | Some url =>
         if present (Some url) then
           (* Log recording completion *)
           logCall q_log callSid (field "From" (rq_body req))
             "recording_complete" true None userId;;
           (* Queue processing job *)
           queueProcessingJob
             {| jd_userId := userId;
                jd_callSid := callSid;
                jd_recordingUrl := Some (url +:+ ".wav");
                jd_recordingSid := field "RecordingSid" (rq_body req);
                jd_duration := field "RecordingDuration" (rq_body req);
                jd_phoneNumber := field "From" (rq_body req) |} id;;
           mret (xml
             [Say (Some "alice") None
                "Perfect! Your recording is being processed. You'll receive a text message with download links in about one minute. Thank you for using Hum It Out!"])
         else throw "No recording URL provided"
     | None => throw "No recording URL provided"
     end)
    (λ _, mret (xml
       [Say None None
          "There was an issue processing your recording. Please try again."])).

Definition recording_status_handler (q_update : option string) (req : request)
  : M response :=
  try_catch
    (if bool_decide (field "RecordingStatus" (rq_body req) = Some "failed")
     then handleRecordingFailure q_update (field "userId" (rq_query req))
            (field "callSid" (rq_query req)) "Recording failed"
     else mret tt)
    (λ _, mret tt);;
  mret {| status := 200; body := Text "OK" |}.

(** The four routes behind the middleware. *)
Inductive webhook : Type :=
| PostVoice (q_log : option string)
| PostAuthenticate (now : nat) (q_select q_update q_log : option string)
| PostRecordingComplete (q_log : option string) (id : string)
| PostRecordingStatus (q_update : option string).

Definition handler_of (h : webhook) (req : request) : M response :=
  match h with
  | PostVoice q_log => voice_handler q_log req
  | PostAuthenticate now q_select q_update q_log =>
      authenticate_handler now q_select q_update q_log req
  | PostRecordingComplete q_log id => recording_complete_handler q_log id req
  | PostRecordingStatus q_update => recording_status_handler q_update req
  end.

Definition serve (env : environment) (h : webhook) (req : request)
  : M response :=
  route env req (handler_of h req).

(** Whether a response tells Twilio to record. *)
Definition instructs_recording (r : response) : bool :=
  match body r with
  | Twiml verbs =>
      existsb (λ v, match v with Record_ _ _ _ _ _ _ _ => true | _ => false end)
        verbs
  | Text _ => false
  end.

(** ** What the properties of the pipeline speak of *)

(** The production description stage 6 hands to stage 7. *)
Definition generated_music (o : pipeline_outcomes) (t : transcription) : json :=
  generateMusic (po_now_iso o) (po_now_ms o)
    (analyzeMusicalElements (po_analyze o)) t (po_agents o).

(** Stages 1 to 8 succeed under the outcomes [o], with session [sid] and the
    file set [files]: the download answers with a file of an accepted size
    that is readable, the transcription answers with a duration the prompt
    of the analysis can interpolate, the session is inserted, the files are
    made, and both queries of [saveResults] are served. *)
Definition stages_succeed (o : pipeline_outcomes) (sid : string)
  (files : json) : Prop :=
  ∃ audioFile t,
    po_download o = Ok audioFile
    ∧ (1000 ≤ af_size audioFile)%Z
    ∧ (af_size audioFile ≤ audio_maxSize)%Z
    ∧ po_access o = None
    ∧ po_transcribe o = Ok t
    ∧ stringifiable (t_duration t) = true
    ∧ po_insert_session o = Ok sid
    ∧ po_files o sid (generated_music o t) = Ok files
    ∧ files ≠ JNull
    ∧ po_update_session o = None
    ∧ po_insert_tracks o = None.

(** ** Sample data for the examples *)

Definition sample_user (pin : string) (active : bool) : user_row :=
  {| u_id := "u-1"; u_email := "ada@example.com"; u_name := Some "Ada";
     u_phone := Some "+15550100"; u_pin := pin; u_is_active := active;
     u_created_at := 0; u_last_login := None |}.

(** A production deployment whose signature check rejects everything / accepts
    everything. *)
Definition production (accept : bool) : environment :=
  {| NODE_ENV := Some "production"; twilio_authToken := Some "token";
     twilio_phoneNumber := Some "+15550199";
     validateRequest := λ _ _ _ _, accept |}.

Definition sample_request (body query : list (string * string)) : request :=
  {| rq_host := "hum.example.com"; rq_signature := Some "sig";
     rq_originalUrl := "/twilio/authenticate"; rq_body := body;
     rq_query := query |}.

Definition pin_request (digits : string) : request :=
  sample_request
    [("Digits", digits); ("From", "+15550100"); ("CallSid", "CA1")] [].

Definition sample_jobData : jobData :=
  {| jd_userId := Some "u-1"; jd_callSid := Some "CA1";
     jd_recordingUrl := Some "https://api.twilio.com/recordings/RE1.wav";
     jd_recordingSid := Some "RE1"; jd_duration := Some "12";
     jd_phoneNumber := Some "+15550100" |}.

Definition other_jobData : jobData :=
  {| jd_userId := Some "u-2"; jd_callSid := Some "CA2";
     jd_recordingUrl := Some "https://api.twilio.com/recordings/RE2.wav";
     jd_recordingSid := Some "RE2"; jd_duration := Some "9";
     jd_phoneNumber := Some "+15550102" |}.

Definition sample_regenData : regenData :=
  {| rg_sessionId := Some "s-1"; rg_userId := Some "u-1";
     rg_originalAudioUrl := Some "https://api.twilio.com/recordings/RE1.wav";
     rg_options := JObj [] |}.

Definition sample_audio : audio_file :=
  {| af_path := "/uploads/recording_1.wav"; af_size := 48000;
     af_filename := "recording_1.wav" |}.

Definition sample_transcription : transcription :=
  {| t_text := "la la la"; t_duration := JNum (inject_Z 12);
     t_segments := []; t_confidence := JNum (5 # 10) |}.

Definition sample_files : json :=
  JObj [("backingTrack", JStr "backing.wav"); ("midi", JStr "track.mid");
        ("stemsZip", JStr "stems.zip"); ("lyrics", JStr "lyrics.txt");
        ("downloadPackage", JStr "package.zip");
        ("totalSize", JNum (inject_Z 4096))].

Definition sample_analysis : json :=
  JObj [("tempo", JNum (inject_Z 96)); ("key", JStr "G");
        ("mood", strs ["chill"]); ("genres", strs ["acoustic"])].

(** The four agents answer, but for the composer when [composer] says so. *)
Definition agents (composer : result json) : agent_outcomes :=
  {| ao_analyst := Ok (JObj [("tempo", JNum (inject_Z 96)); ("key", JStr "G");
                             ("scale", JStr "major")]);
     ao_composer := composer;
     ao_specialist := Ok (JObj [("primaryGenre", JStr "acoustic")]);
     ao_director := Ok (JObj [("finalInstrumentation", JObj [])]) |}.

(** A run of the pipeline in which every collaborator answers, but for the
    ones given. *)
Definition pipeline (download : result audio_file) (composer : result json)
  (sms : option string) : pipeline_outcomes :=
  {| po_download := download; po_access := None;
     po_transcribe := Ok sample_transcription;
     po_analyze := Ok sample_analysis;
     po_insert_session := Ok "s-1";
     po_agents := agents composer;
     po_now_iso := "2025-01-01T00:00:00.000Z"; po_now_ms := 1735689600000;
     po_files := λ _ _, Ok sample_files;
     po_update_session := None; po_insert_tracks := None;
     po_sms := sms; po_unlink := None |}.

Definition outcome (po : pipeline_outcomes) : job_outcomes :=
  {| jo_pipeline := po;
     jo_regenerate :=
       Throw "audioProcessor.regenerateSession is not a function" |}.

Definition composer_answer : json :=
  JObj [("primaryProgression", strs ["G"; "Em"; "C"; "D"])].

Definition succeeds : job_outcomes :=
  outcome (pipeline (Ok sample_audio) (Ok composer_answer) None).

Definition download_fails : job_outcomes :=
  outcome (pipeline (Throw "timeout of 30000ms exceeded") (Ok composer_answer)
             None).

Definition handler_runs : failure_outcomes :=
  {| fo_update := None; fo_twilio := None; fo_create := None |}.

(** A session row as [createSession] leaves it, afterwards completed. *)
Definition sample_session (sid : string) (st : string) : session_row :=
  {| s_id := sid; s_user_id := Some "u-1"; s_call_sid := Some (JStr "CA1");
     s_original_audio_url := None; s_transcribed_lyrics := None;
     s_tempo := None; s_detected_key := None; s_mood_tags := JArr [];
     s_genre_tags := JArr []; s_audio_duration := None;
     s_processing_status := st |}.

Definition status_at (a : nat) (s : state) : option JobStatus :=
  j_status <$> heap s !! a.

Definition attempts_at (a : nat) (s : state) : option nat :=
  j_attempts <$> heap s !! a.

Definition sms_fails : job_outcomes :=
  outcome (pipeline (Ok sample_audio) (Ok composer_answer)
             (Some "The 'To' number is not a valid phone number")).

Definition composer_fails : job_outcomes :=
  outcome (pipeline (Ok sample_audio) (Throw "429 rate limit") None).

(** The process once [sample_jobData] has been queued on an idle server. *)
Definition one_job_running : state :=
  (queueProcessingJob sample_jobData "job_1" (boot [] [] true)).2.

Definition two_jobs_queued : state :=
  (queueProcessingJob other_jobData "job_2" one_job_running).2.

(** A recording job whose download threw three times, with the session row
    an earlier call left for it: the worker awaits [handleJobFailure]. *)
Definition exhausted_recording : state :=
  default (boot [] [] true)
    (run (production true)
       [QueueProcessingJob sample_jobData "job_1"; Settle 0 download_fails;
        Settle 0 download_fails; Settle 0 download_fails]
       (boot [] [sample_session "s-0" "processing"] true)).

Definition exhausted_job : job :=
  default (new_processing_job sample_jobData "job_1")
    (heap exhausted_recording !! 0).

(** ** States and answers the properties speak of *)

(** The state after [logFailedPINAttempt]. *)
Definition failed_attempt_logged (s : state) : state :=
  set_trace (λ t, t ++ [Log "warn" "Failed PIN attempt:"]) s.

Definition signature_warned (s : state) : state :=
  set_trace (λ t, t ++ [Log "warn" "Invalid Twilio signature:"]) s.

Definition signed_url (req : request) : string :=
  "https://" +:+ rq_host req +:+ rq_originalUrl req.

(** What the authenticate route answers to an accepted PIN of user [uid]. *)
Definition recording_answer (uid : string) (CallSid : option string)
  : response :=
  xml [Say (Some "alice") None
         "Welcome back! Start humming or singing your melody after the beep. You have 30 seconds. Go!";
       record_instruction uid CallSid;
       Say None None
         "Thank you for recording. We're processing your music now!"].

(** ** Invariants of the queue *)

Definition worker_job (w : worker) : nat :=
  match w with
  | Running a | Failing a => a
  end.

(** [s'] has the queue, the flag, the job objects, the workers and the
    socket handle of [s]. *)
Definition same_queue (s s' : state) : Prop :=
  processingQueue s' = processingQueue s
  ∧ isProcessing s' = isProcessing s
  ∧ heap s' = heap s
  ∧ workers s' = workers s
  ∧ io_up s' = io_up s.

(** A computation that leaves those five alone. *)
Definition frames {A} (m : M A) : Prop := ∀ s, same_queue s (m s).2.

(** What holds of a queue [q], the workers [ws] and the job objects [h]
    between two turns of the event loop: no job is referenced twice; a
    queued job waits as ['queued'] or ['retrying'], an awaited [processJob]
    has its job ['processing'], an awaited [handleJobFailure] has it
    ['failed']; every job has [maxAttempts] 3, at most 3 attempts, exactly 3
    when it is ['failed'], and is ['processing'] only while a worker runs
    it. *)
Record wfq (q : list nat) (ws : list worker) (h : list job) : Prop := {
  wf_nodup : NoDup (q ++ (worker_job <$> ws));
  wf_queued : ∀ a, a ∈ q →
    ∃ j, h !! a = Some j ∧ (j_status j = queued ∨ j_status j = retrying);
  wf_running : ∀ a, Running a ∈ ws →
    ∃ j, h !! a = Some j ∧ j_status j = processing;
  wf_failing : ∀ a, Failing a ∈ ws →
    ∃ j, h !! a = Some j ∧ j_status j = failed;
  wf_jobs : ∀ a j, h !! a = Some j →
    j_maxAttempts j = 3
    ∧ (j_attempts j ≤ 3)%nat
    ∧ (j_attempts j = 3 ↔ j_status j = failed)
    ∧ (j_status j = processing → Running a ∈ ws)
}.

Definition wf (s : state) : Prop :=
  wfq (processingQueue s) (workers s) (heap s).

(** The step [l] from [s] is a failed processing attempt of the job at [a]:
    the [processJob] some activation awaits for it throws. *)
Definition failed_attempt (l : label) (s : state) (a : nat) : Prop :=
  ∃ w o j msg,
    l = Settle w o
    ∧ workers s !! w = Some (Running a)
    ∧ heap s !! a = Some j
    ∧ (processJob_rest a j o s).1 = Throw msg.

(** Every job object of [h] is in [h'] with the attempts it had, but for the
    job at [bumped], which has one more. *)
Definition attempts_step (bumped : option nat) (h h' : list job) : Prop :=
  ∀ b j, h !! b = Some j →
    ∃ j', h' !! b = Some j'
          ∧ j_maxAttempts j' = j_maxAttempts j
          ∧ j_attempts j'
            = if decide (bumped = Some b) then S (j_attempts j)
              else j_attempts j.

(** The process with a single recording job [j], in the hands of the only
    worker after [n] failed attempts, and nothing queued. *)
Definition solo (n : nat) (j : job) (s : state) : Prop :=
  processingQueue s = []
  ∧ workers s = [Running 0]
  ∧ heap s = [j]
  ∧ j_status j = processing
  ∧ j_type j = process_recording
  ∧ j_attempts j = n
  ∧ j_maxAttempts j = 3.

(** The guard of [sendSMS] lets the message through. *)
Definition sms_configured (env : environment) : bool :=
  negb (negb (present (twilio_phoneNumber env))
        || includes "xxx" (default "" (twilio_phoneNumber env))).

Definition is_sms (e : effect) : Prop :=
  match e with
  | SmsCreate _ _ _ => True
  | _ => False
  end.

(** The prompts that are built outside a [try] can be built: the duration
    and the confidence of the transcription, which the analyst's prompt
    interpolates, and the genre the specialist adapts for under the analysis
    [analysis], convert to strings. *)
Definition prompts_render (t : transcription) (analysis : json) : Prop :=
  stringifiable (t_duration t) = true
  ∧ stringifiable (t_confidence t) = true
  ∧ ∀ g, primaryGenre analysis = Ok g → stringifiable g = true.

(** What [generateMusic] returns when its four agents have run, with the
    given chords. *)
Definition generation_result (now_iso : string) (now_ms : Z)
  (analysis chords genre arrangement : json) : json :=
  JObj [("analysis", analysis);
        ("chords", chords);
        ("genre", genre);
        ("arrangement", arrangement);
        ("generatedAt", JStr now_iso);
        ("processingTime", JNum (inject_Z now_ms))].

(** The same outcomes, but for the composer's. *)
Definition with_composer (composer : result json) (o : agent_outcomes)
  : agent_outcomes :=
  {| ao_analyst := ao_analyst o; ao_composer := composer;
     ao_specialist := ao_specialist o; ao_director := ao_director o |}.

(** At most one activation of [processQueue] is suspended, and none while
    the flag is down. *)
Definition serial (s : state) : Prop :=
  (length (workers s) ≤ 1)%nat ∧ (isProcessing s = false → workers s = []).

(** ** Further operations and measures of the queue *)

(** One entry of [getQueueStatus().jobs], without [createdAt]. *)
Record job_summary : Type := {
  js_id : string;
  js_type : JobType;
  js_status : JobStatus;
  js_attempts : nat
}.

Record queue_status : Type := {
  qs_queueLength : nat;
  qs_isProcessing : bool;
  qs_jobs : list job_summary
}.

Definition summary (j : job) : job_summary :=
  {| js_id := j_id j; js_type := j_type j; js_status := j_status j;
     js_attempts := j_attempts j |}.

(** [getQueueStatus()]: the queue holds references, so each entry is read
    from the job object it points to. *)
Definition getQueueStatus (s : state) : queue_status :=
  {| qs_queueLength := length (processingQueue s);
     qs_isProcessing := isProcessing s;
     qs_jobs := omap (λ a, summary <$> heap s !! a) (processingQueue s) |}.

(** The settling of an awaited [processJob] or [handleJobFailure]. *)
Definition worker_turn (l : label) : Prop :=
  match l with
  | Settle _ _ | FailureHandled _ _ => True
  | _ => False
  end.

(** Twice the attempts the job at [a] has left. *)
Definition weight (h : list job) (a : nat) : nat :=
  match h !! a with
  | Some j => 2 * (j_maxAttempts j - j_attempts j)
  | None => 0
  end.

Definition worker_weight (h : list job) (w : worker) : nat :=
  match w with
  | Running a => weight h a
  | Failing _ => 1
  end.

(** A bound on the worker turns still to come: the weights of the queued
    and the running jobs, and one for each awaited failure handler. *)
Definition pending (s : state) : nat :=
  sum_list_with (weight (heap s)) (processingQueue s)
  + sum_list_with (worker_weight (heap s)) (workers s).

(** Whenever the flag is up or a job waits, some activation is suspended. *)
Definition attended (s : state) : Prop :=
  (isProcessing s = true → workers s ≠ [])
  ∧ (processingQueue s ≠ [] → workers s ≠ []).

Definition terminal (st : JobStatus) : Prop := st = completed ∨ st = failed.

(** [pending] without the share of the activation [w]. *)
Definition pending_without (w : nat) (s : state) : nat :=
  sum_list_with (weight (heap s)) (processingQueue s)
  + sum_list_with (worker_weight (heap s)) (delete w (workers s)).

(** How one turn of the event loop may rewrite a job object: not at all;
    shifted off the queue; completed; failed and queued again; failed,
    queued again and shifted at once (the queue was empty); failed for the
    last time. *)
Inductive lifecycle : job → job → Prop :=
| lc_same j : lifecycle j j
| lc_take j :
    j_status j = queued ∨ j_status j = retrying →
    lifecycle j (with_status processing j)
| lc_complete j :
    j_status j = processing → lifecycle j (with_status completed j)
| lc_retry j msg :
    j_status j = processing → (S (j_attempts j) < j_maxAttempts j)%nat →
    lifecycle j (with_status retrying (record_failure msg j))
| lc_retry_take j msg :
    j_status j = processing → (S (j_attempts j) < j_maxAttempts j)%nat →
    lifecycle j
      (with_status processing (with_status retrying (record_failure msg j)))
| lc_fail j msg :
    j_status j = processing → S (j_attempts j) = j_maxAttempts j →
    lifecycle j (record_failure msg j).

(** The job object at one address before and after a turn; a new one has
    not been attempted and is waiting or has just been shifted. *)
Definition job_step (before after : option job) : Prop :=
  match before, after with
  | Some j, Some j' => lifecycle j j'
  | None, Some j' =>
      j_attempts j' = 0
      ∧ j_maxAttempts j' = 3
      ∧ (j_status j' = queued ∨ j_status j' = processing)
  | Some _, None => False
  | None, None => True
  end.

(** A waiting job has never failed when it is ['queued'] and has failed
    before when it is ['retrying']. *)
Definition graded (h : list job) : Prop :=
  ∀ a j, h !! a = Some j →
    (j_status j = queued → j_attempts j = 0)
    ∧ (j_status j = retrying → (1 ≤ j_attempts j)%nat).

(** Every job that has not come to an end is in the queue or with a
    worker. *)
Definition accounted (q : list nat) (ws : list worker) (h : list job) : Prop :=
  ∀ a j, h !! a = Some j →
    terminal (j_status j) ∨ a ∈ q ++ (worker_job <$> ws).

(** What [getQueueStatus] may say of a waiting job. *)
Definition waiting (e : job_summary) : Prop :=
  (js_status e = queued ∧ js_attempts e = 0)
  ∨ (js_status e = retrying ∧ (1 ≤ js_attempts e < 3)%nat).

(** ** What the properties of the webhooks speak of *)

(** A computation that never throws and answers with a [P]. *)
Definition always {A} (P : A → Prop) (m : M A) : Prop :=
  ∀ s, ∃ a s', m s = (Ok a, s') ∧ P a.

(** A computation whose answers, when it does not throw, are [P]. *)
Definition yields {A} (P : A → Prop) (m : M A) : Prop :=
  ∀ s, match m s with
       | (Ok a, _) => P a
       | (Throw _, _) => True
       end.

(** A request the middleware lets through. *)
Definition accepted (env : environment) (req : request) : Prop :=
  NODE_ENV env = Some "development"
  ∨ validateRequest env (twilio_authToken env) (rq_signature req)
      (signed_url req) (rq_body req) = true.

(** What a handler sends: status 200 with at least one verb for the caller
    to hear, or the plain [OK] of the status callback. *)
Definition answers (h : webhook) (r : response) : Prop :=
  status r = 200
  ∧ match h with
    | PostRecordingStatus _ => body r = Text "OK"
    | _ => ∃ v vs, body r = Twiml (v :: vs)
    end.

Definition touches_queue (h : webhook) : bool :=
  match h with
  | PostRecordingComplete _ _ => true
  | _ => false
  end.

(** The job [/recording-complete] queues for a request. *)
Definition recording_job (req : request) (url id : string) : job :=
  new_processing_job
    {| jd_userId := field "userId" (rq_query req);
       jd_callSid := field "callSid" (rq_query req);
       jd_recordingUrl := Some (url +:+ ".wav");
       jd_recordingSid := field "RecordingSid" (rq_body req);
       jd_duration := field "RecordingDuration" (rq_body req);
       jd_phoneNumber := field "From" (rq_body req) |} id.

Definition recording_accepted : response :=
  xml [Say (Some "alice") None
         "Perfect! Your recording is being processed. You'll receive a text message with download links in about one minute. Thank you for using Hum It Out!"].

Definition recording_refused : response :=
  xml [Say None None
         "There was an issue processing your recording. Please try again."].

Definition call_log (callSid phoneNumber : option string) (action : string)
  (success : bool) (errorMessage userId : option string) : call_log_row :=
  {| cl_phone_number := phoneNumber; cl_call_sid := callSid;
     cl_user_id := userId; cl_action := action; cl_success := success;
     cl_error_message := errorMessage |}.

(** ** What the further properties of the pipeline speak of *)

(** A line of the log, as against an event on the socket or a message. *)
Definition is_log (e : effect) : Prop :=
  match e with
  | Log _ _ => True
  | _ => False
  end.

(** The state once the [catch] of [processRecording] has logged. *)
Definition audio_processing_failed (s : state) : state :=
  set_trace (λ t, t ++ [Log "error" "Audio processing failed:"]) s.

(** A failure of one of the first four stages, with the message it throws:
    the download, the checks on the file, the transcription, or the prompt
    of the analysis. *)
Definition fails_early (o : pipeline_outcomes) (msg : string) : Prop :=
  (∃ m, po_download o = Throw m ∧ msg = "Failed to download audio: " +:+ m)
  ∨ ∃ f, po_download o = Ok f
         ∧ ((audio_maxSize < af_size f)%Z ∧ msg = "Audio file too large"
            ∨ (af_size f < 1000)%Z ∧ msg = "Audio file too small or corrupted"
            ∨ (1000 ≤ af_size f ≤ audio_maxSize)%Z
              ∧ (is_Some (po_access o) ∧ msg = "Audio file is not accessible"
                 ∨ po_access o = None
                   ∧ ((∃ m, po_transcribe o = Throw m
                            ∧ msg = "Transcription failed: " +:+ m)
                      ∨ ∃ t, po_transcribe o = Ok t
                             ∧ stringifiable (t_duration t) = false
                             ∧ msg
                               = "Cannot convert object to primitive value"))).

(** The first five stages succeed: the session [sid] is created for the
    file [f] and the transcription [t]. *)
Definition reaches_generation (o : pipeline_outcomes) (f : audio_file)
  (t : transcription) (sid : string) : Prop :=
  po_download o = Ok f
  ∧ (1000 ≤ af_size f ≤ audio_maxSize)%Z
  ∧ po_access o = None
  ∧ po_transcribe o = Ok t
  ∧ stringifiable (t_duration t) = true
  ∧ po_insert_session o = Ok sid.

(** The [sessionData] stage 5 passes to [createSession]:
    [{callSid, audioUrl, audioFile, lyrics, duration, ...analysis}]. *)
Definition session_data (rd : recordingData) (f : audio_file)
  (t : transcription) (analysis : json) : list (string * json) :=
  obj_extend
    (opt_field "callSid" (rd_callSid rd)
     ++ opt_field "audioUrl" (rd_recordingUrl rd)
     ++ [("audioFile", JStr (af_path f));
         ("lyrics", JStr (t_text t));
         ("duration", t_duration t)])
    (spread analysis).

(** The row stage 5 inserts. *)
Definition created_session (userId : option string) (rd : recordingData)
  (o : pipeline_outcomes) (f : audio_file) (t : transcription) (sid : string)
  : session_row :=
  session_of sid userId
    (session_data rd f t (analyzeMusicalElements (po_analyze o))).

(** [a ?? b] for a looked-up property. *)
Definition or_field (a b : option json) : option json :=
  match a with
  | Some v => Some v
  | None => b
  end.

(** The keys the [catch] of [runMusicAnalyst] sets. *)
Definition analyst_defaults : list (string * json) :=
  [("scale", JStr "major");
   ("rhythmicPattern", JStr "steady four-four");
   ("melodicHints", JStr "vocal melody detected");
   ("confidence", JNum (6 # 10))].

(** ** AuthService: fresh PINs *)

(** [buffer.readUIntBE(0, 3)] on the three bytes of [crypto.randomBytes(3)]. *)
Definition readUIntBE (b : byte * byte * byte) : N :=
  (Byte.to_N b.1.1 * 65536 + Byte.to_N b.1.2 * 256 + Byte.to_N b.2)%N.

(** [s.padStart(targetLength, pad)] for a one-character [pad]. *)
Definition padStart (targetLength : nat) (pad : Ascii.ascii) (s : string)
  : string :=
  String.string_of_list_ascii (replicate (targetLength - String.length s) pad)
  +:+ s.

Definition MAX_ATTEMPTS : nat := 10.

(** What one turn of the loop of [generateUniquePIN] gets from outside: the
    random bytes and the outcome of the query. *)
Record pin_draw : Type := {
  pd_bytes : byte * byte * byte;
  pd_query : option string
}.

(** [crypto.randomBytes(3).readUIntBE(0, 3) % 1000000], padded. *)
Definition paddedPin (d : pin_draw) : string :=
  padStart 6 "0"%char (pretty (readUIntBE (pd_bytes d) `mod` 1000000)%N).

(** The loop [while (attempts < MAX_ATTEMPTS)] with [remaining] turns to
    go; [draws i] is what turn [i] gets. *)
Fixpoint generateUniquePIN_from (remaining : nat) (draws : nat → pin_draw)
  (attempts : nat) : M string :=
  match remaining with
  | 0 => throw "Unable to generate unique PIN after multiple attempts"
  | S remaining' =>
      (* Check uniqueness in database *)
      existing ← db_query (pd_query (draws attempts))
                   (gets (λ s, filter (λ u, u_pin u = paddedPin (draws attempts))
                                 (users s)));
      match existing with
      | [] => mret (paddedPin (draws attempts))
      | _ :: _ => generateUniquePIN_from remaining' draws (S attempts)
      end
  end.

Definition generateUniquePIN (draws : nat → pin_draw) : M string :=
  generateUniquePIN_from MAX_ATTEMPTS draws 0.

Definition with_pin (pin : string) (u : user_row) : user_row :=
  {| u_id := u_id u; u_email := u_email u; u_name := u_name u;
     u_phone := u_phone u; u_pin := pin; u_is_active := u_is_active u;
     u_created_at := u_created_at u; u_last_login := u_last_login u |}.

(** [rotatePIN(userId)]; the column [updated_at] is not among those of
    [user_row]. *)
Definition rotatePIN (draws : nat → pin_draw) (q_update : option string)
  (userId : string) : M string :=
  newPin ← generateUniquePIN draws;
  db_query q_update
    (modify (set_users
               (fmap (λ u, if String.eqb (u_id u) userId
                           then with_pin newPin u else u))));;
  mret newPin.

(** [getUserByPIN(pin)] *)
Definition getUserByPIN (now : nat) (q_select q_update : option string)
  (pin : option string) : M (option pin_user) :=
  validatePIN now q_select q_update pin.

(** A string of decimal digits. *)
Definition all_digits (s : string) : bool :=
  forallb is_digit (String.list_ascii_of_string s).

(** A stream of draws that all give the bytes [b] and a served query. *)
Definition constant_draws (b : byte * byte * byte) : nat → pin_draw :=
  λ _, {| pd_bytes := b; pd_query := None |}.

(** [UPDATE users SET pin = $1 WHERE id = $2] *)
Definition set_pin_of (userId pin : string) (u : user_row) : user_row :=
  if String.eqb (u_id u) userId then with_pin pin u else u.

(** ** AuthService: the rate limit

    [this.rateLimitStore] is a [Map] from identifiers to the times of their
    attempts, in milliseconds; a store that has not been created yet is the
    empty map.  [maxAttempts] and [windowMinutes] are taken to be
    integers, as the defaults 5 and 15 are. *)

Definition window_ms (windowMinutes : Z) : Z := windowMinutes * 60 * 1000.

(** [Math.ceil(x / 1000)] for an integer [x]. *)
Definition ceil_seconds (x : Z) : Z := (x + 999) `div` 1000.

(** The loop over [this.rateLimitStore.entries()] that cleans old
    entries. *)
Definition clean_old_entries (windowStart : Z) (store : gmap string (list Z))
  : gmap string (list Z) :=
  omap (λ attempts,
          match filter (λ time, windowStart < time)%Z attempts with
          | [] => None
          | validAttempts => Some validAttempts
          end) store.

(** The message of the error; [Math.min()] of no argument is [Infinity]. *)
Definition wait_message (recentAttempts : list Z) (now window : Z) : string :=
  "Too many attempts. Please wait "
  +:+ match recentAttempts with
      | [] => "Infinity"
      | t :: ts =>
          pretty (ceil_seconds (foldr Z.min t ts + window - now))
      end
  +:+ " seconds.".

Definition checkRateLimit (now : Z) (identifier : string)
  (maxAttempts windowMinutes : Z) (store : gmap string (list Z))
  : result bool * gmap string (list Z) :=
  let windowStart := (now - window_ms windowMinutes)%Z in
  let store1 := clean_old_entries windowStart store in
  (* Check current attempts *)
  let attempts := default [] (store1 !! identifier) in
  let recentAttempts := filter (λ time, windowStart < time)%Z attempts in
  if (maxAttempts <=? Z.of_nat (length recentAttempts))%Z then
    (Throw (wait_message recentAttempts now (window_ms windowMinutes)), store1)
  else
    (* Record this attempt *)
    (Ok true, <[identifier := recentAttempts ++ [now]]> store1).

(** Calls of [checkRateLimit] for one identifier at the given times, one
    after the other on the same store. *)
Fixpoint checkRateLimit_calls (times : list Z) (identifier : string)
  (maxAttempts windowMinutes : Z) (store : gmap string (list Z))
  : list (result bool) * gmap string (list Z) :=
  match times with
  | [] => ([], store)
  | now :: rest =>
      let (r, store1) :=
        checkRateLimit now identifier maxAttempts windowMinutes store in
      let (rs, store2) :=
        checkRateLimit_calls rest identifier maxAttempts windowMinutes store1 in
      (r :: rs, store2)
  end.

(** The call returned [true]. *)
Definition allowed (r : result bool) : bool :=
  match r with
  | Ok true => true
  | _ => false
  end.

(** ** The dashboard route that queues a regeneration

    [POST /sessions/:sessionId/regenerate], behind the authentication
    middleware that sets [req.user]. *)

Record api_response : Type := {
  ar_status : nat;
  ar_success : bool;
  ar_message : string;
  ar_sessionId : option string
}.

(** A text column as the driver reads it back; a stored value that is not a
    string is taken to be read as NULL. *)
Definition text_of (v : option json) : option string :=
  match v with
  | Some (JStr s) => Some s
  | _ => None
  end.

(** [req.body || {}] *)
Definition or_empty_object (body : json) : json :=
  if truthy body then body else JObj [].

(** [WHERE id = $1 AND user_id = $2] *)
Definition owned_session (sessionId : string) (userId : option string)
  (r : session_row) : bool :=
  String.eqb (s_id r) sessionId && sql_eq_str (s_user_id r) userId.

Definition regenerate_handler (q_select : option string) (id : string)
  (userId : option string) (sessionId : string) (body : json)
  : M api_response :=
  try_catch
    ((* Verify ownership and get session *)
     rows ← db_query q_select
              (gets (λ s, filter (λ r, owned_session sessionId userId r = true)
                            (sessions s)));
     match rows with
     | [] =>
         mret {| ar_status := 404; ar_success := false;
                 ar_message := "Session not found"; ar_sessionId := None |}
     | session :: _ =>
         (* Queue regeneration job *)
         queueRegenerationJob
           {| rg_sessionId := Some (s_id session);
              rg_userId := userId;
              rg_originalAudioUrl := text_of (s_original_audio_url session);
              rg_options := or_empty_object body |} id;;
         mret {| ar_status := 200; ar_success := true;
                 ar_message := "Regeneration queued successfully";
                 ar_sessionId := Some (s_id session) |}
     end)
    (λ _, mret {| ar_status := 500; ar_success := false;
                  ar_message := "Failed to queue regeneration";
                  ar_sessionId := None |}).

(** What [/voice] answers when its [try] block runs through. *)
Definition pin_prompt : response :=
  xml [Gather "dtmf" 10 6 "#" "/twilio/authenticate" "POST"
         [Say (Some "alice") (Some "en-US")
            "Welcome to Hum It Out! Please enter your 6-digit PIN, followed by the pound key."];
       Say (Some "alice") None
         "I didn't receive your PIN. Please call back and try again. Goodbye!"].

(** * Properties *)

(** ** Unfolding the monad *)

Ltac munfold :=
  unfold mbind, mret, M_bind, M_ret, result_bind, result_ret, bind, ret,
    throw, try_catch, modify, gets, lift, db_query, construct, emit_effect,
    log in *.

Lemma six_digits_good_format (p : string) :
  six_digits p = true → bad_pin_format (Some p) = false.
Proof.
  unfold bad_pin_format. intros H. rewrite H.
  destruct p as [|c p]; [discriminate H | reflexivity].
Qed.

Lemma no_active_holder_no_row (p : string) (us : list user_row) :
  (∀ u, u ∈ us → u_pin u = p → u_is_active u = false) →
  filter (λ u, pin_matches p u = true) us = [].
Proof.
  induction us as [|u us IH]; intros H; [reflexivity|].
  rewrite filter_cons. destruct (decide (pin_matches p u = true)) as [Hm|Hm].
  - exfalso. unfold pin_matches in Hm. apply andb_true_iff in Hm as [Hp Ha].
    apply String.eqb_eq in Hp. rewrite (H u) in Ha; [discriminate| |exact Hp].
    apply list_elem_of_here.
  - apply IH. intros u' Hin. apply H. by apply list_elem_of_further.
Qed.

Lemma validatePIN_no_row (now : nat) (q_update : option string) (p : string)
  (s : state) :
  six_digits p = true →
  (∀ u, u ∈ users s → u_pin u = p → u_is_active u = false) →
  validatePIN now None q_update (Some p) s = (Ok None, failed_attempt_logged s).
Proof.
  intros Hfmt Hinactive. unfold validatePIN.
  rewrite (six_digits_good_format p Hfmt). munfold.
  rewrite (no_active_holder_no_row p (users s) Hinactive). reflexivity.
Qed.

(** C10. For a well-formed 6-digit PIN every holder of which is inactive,
    [validatePIN] returns null after recording one failed attempt and leaves
    the user table (so every last-login time) as it was; a PIN nobody holds
    gives the same result; and the authenticate route then answers without
    an instruction to record. *)
Theorem validatePIN_inactive_user_is_null (now : nat)
  (q_update q_log : option string) (p : string) (req : request) (s : state) :
  six_digits p = true →
  (∀ u, u ∈ users s → u_pin u = p → u_is_active u = false) →
  validatePIN now None q_update (Some p) s = (Ok None, failed_attempt_logged s)
  ∧ users (validatePIN now None q_update (Some p) s).2 = users s
  ∧ (∀ s0, (∀ u, u ∈ users s0 → u_pin u ≠ p) →
       validatePIN now None q_update (Some p) s0
       = (Ok None, failed_attempt_logged s0))
  ∧ (field "Digits" (rq_body req) = Some p →
     ∃ resp s',
       authenticate_handler now None q_update q_log req s = (Ok resp, s')
       ∧ instructs_recording resp = false
       ∧ users s' = users s).
Proof.
  intros Hfmt Hinactive.
  pose proof (validatePIN_no_row now q_update p s Hfmt Hinactive) as Hnull.
  split; [exact Hnull|]. split; [by rewrite Hnull|]. split.
  - intros s0 Hnone. apply validatePIN_no_row; [exact Hfmt|].
    intros u Hin Hp. exfalso. exact (Hnone u Hin Hp).
  - intros Hdigits. unfold authenticate_handler. rewrite Hdigits.
    rewrite (six_digits_good_format p Hfmt).
    unfold try_catch at 1. unfold mbind at 1, M_bind at 1, bind at 1.
    rewrite Hnull. unfold logCall. munfold.
    destruct q_log; simpl; eexists _, _; split; try reflexivity; done.
Qed.

Lemma validatePIN_inactive_user_is_null_witness :
  let s := boot [sample_user "123456" false] [] true in
  six_digits "123456" = true
  ∧ (∀ u, u ∈ users s → u_pin u = "123456" → u_is_active u = false)
  ∧ validatePIN 7 None None (Some "123456") s
    = (Ok None, failed_attempt_logged s).
Proof.
  assert (Hholders : ∀ u, u ∈ [sample_user "123456" false] →
                          u_pin u = "123456" → u_is_active u = false).
  { intros u Hin _. apply list_elem_of_singleton in Hin. by subst u. }
  split; [reflexivity|]. split; [exact Hholders|].
  exact (proj1 (validatePIN_inactive_user_is_null 7 None None "123456"
                  (pin_request "123456")
                  (boot [sample_user "123456" false] [] true)
                  eq_refl Hholders)).
Defined.

(** ** Webhook signatures *)

Lemma route_rejects (env : environment) (req : request) (handler : M response)
  (s : state) :
  NODE_ENV env ≠ Some "development" →
  validateRequest env (twilio_authToken env) (rq_signature req)
    (signed_url req) (rq_body req) = false →
  route env req handler s = (Ok forbidden, signature_warned s).
Proof.
  intros Hmode Hbad. unfold route, validateTwilioSignature.
  rewrite bool_decide_eq_false_2 by exact Hmode.
  unfold signed_url in Hbad. rewrite Hbad. reflexivity.
Qed.

Lemma route_skips_in_development (env : environment) (req : request)
  (handler : M response) (s : state) :
  NODE_ENV env = Some "development" →
  route env req handler s = handler s.
Proof.
  intros Hmode. unfold route, validateTwilioSignature.
  rewrite bool_decide_eq_true_2 by exact Hmode.
  munfold. by destruct (handler s) as [[r|msg] s'].
Qed.

(** C6. A webhook request whose signature does not validate against
    [https://host + originalUrl] and the body is answered 403 by every route
    unless [NODE_ENV] is ['development']: the handler behind the middleware
    is not run (the answer is the same for every handler), the only trace is
    the warning line, and the tables, the queue, the flag, the job objects
    and the workers are untouched.  In development the middleware hands the
    request to the handler without checking. *)
Theorem invalid_signature_is_forbidden (env : environment) (h : webhook)
  (req : request) (s : state) :
  validateRequest env (twilio_authToken env) (rq_signature req)
    (signed_url req) (rq_body req) = false →
  (NODE_ENV env ≠ Some "development" →
     (∀ handler, route env req handler s = (Ok forbidden, signature_warned s))
     ∧ serve env h req s = (Ok forbidden, signature_warned s)
     ∧ status forbidden = 403
     ∧ call_logs (signature_warned s) = call_logs s
     ∧ users (signature_warned s) = users s
     ∧ sessions (signature_warned s) = sessions s
     ∧ generated_tracks (signature_warned s) = generated_tracks s
     ∧ processingQueue (signature_warned s) = processingQueue s
     ∧ isProcessing (signature_warned s) = isProcessing s
     ∧ heap (signature_warned s) = heap s
     ∧ workers (signature_warned s) = workers s)
  ∧ (NODE_ENV env = Some "development" →
     serve env h req s = handler_of h req s).
Proof.
  intros Hbad. split.
  - intros Hmode. split.
    + intros handler. by apply route_rejects.
    + split; [by apply route_rejects|]. by repeat split.
  - intros Hmode. by apply route_skips_in_development.
Qed.

Lemma invalid_signature_is_forbidden_witness :
  validateRequest (production false) (twilio_authToken (production false))
    (rq_signature (pin_request "123456")) (signed_url (pin_request "123456"))
    (rq_body (pin_request "123456")) = false
  ∧ NODE_ENV (production false) ≠ Some "development"
  ∧ serve (production false) (PostAuthenticate 7 None None None)
      (pin_request "123456") (boot [sample_user "123456" true] [] true)
    = (Ok forbidden,
       signature_warned (boot [sample_user "123456" true] [] true)).
Proof.
  assert (Hmode : NODE_ENV (production false) ≠ Some "development")
    by discriminate.
  split; [reflexivity|]. split; [exact Hmode|].
  exact (proj1 (proj2 (proj1 (invalid_signature_is_forbidden
                 (production false) (PostAuthenticate 7 None None None)
                 (pin_request "123456")
                 (boot [sample_user "123456" true] [] true) eq_refl) Hmode))).
Defined.

(** ** The authenticate route keeps no call session *)

Lemma route_accepts (env : environment) (req : request) (handler : M response)
  (s : state) :
  NODE_ENV env = Some "development"
  ∨ validateRequest env (twilio_authToken env) (rq_signature req)
      (signed_url req) (rq_body req) = true →
  route env req handler s = handler s.
Proof.
  intros [Hdev|Hvalid]; [by apply route_skips_in_development|].
  unfold route, validateTwilioSignature.
  destruct (bool_decide (NODE_ENV env = Some "development")).
  - munfold. by destruct (handler s) as [[r|msg] s'].
  - unfold signed_url in Hvalid. rewrite Hvalid. munfold.
    by destruct (handler s) as [[r|msg] s'].
Qed.

Lemma touch_keeps_match (now : nat) (uid p : string) (u : user_row) :
  pin_matches p (touch_last_login now uid u) = pin_matches p u.
Proof. unfold touch_last_login. by destruct (String.eqb (u_id u) uid). Qed.

Lemma touch_keeps_id (now : nat) (uid : string) (u : user_row) :
  u_id (touch_last_login now uid u) = u_id u.
Proof. unfold touch_last_login. by destruct (String.eqb (u_id u) uid). Qed.

Lemma filter_touch (now : nat) (uid p : string) (us : list user_row) :
  filter (λ u, pin_matches p u = true) (touch_last_login now uid <$> us)
  = touch_last_login now uid <$> filter (λ u, pin_matches p u = true) us.
Proof.
  induction us as [|u us IH]; [reflexivity|].
  rewrite fmap_cons, !filter_cons, touch_keeps_match.
  destruct (decide (pin_matches p u = true)); rewrite IH; reflexivity.
Qed.

Lemma validatePIN_active (now : nat) (p : string) (u : user_row) (s : state) :
  six_digits p = true →
  head (filter (λ u, pin_matches p u = true) (users s)) = Some u →
  validatePIN now None None (Some p) s
  = (Ok (Some (select_columns u)),
     set_users (fmap (touch_last_login now (u_id u))) s).
Proof.
  intros Hfmt Hrow. unfold validatePIN.
  rewrite (six_digits_good_format p Hfmt). munfold.
  destruct (filter _ (users s)) as [|u0 rest]; [discriminate Hrow|].
  injection Hrow as ->. reflexivity.
Qed.

Lemma authenticate_accepts (now : nat) (q_log : option string) (req : request)
  (p : string) (u : user_row) (s : state) :
  field "Digits" (rq_body req) = Some p →
  six_digits p = true →
  head (filter (λ u, pin_matches p u = true) (users s)) = Some u →
  ∃ s',
    authenticate_handler now None None q_log req s
    = (Ok (recording_answer (u_id u) (field "CallSid" (rq_body req))), s')
    ∧ users s' = touch_last_login now (u_id u) <$> users s.
Proof.
  intros Hdigits Hfmt Hrow. unfold authenticate_handler. rewrite Hdigits.
  rewrite (six_digits_good_format p Hfmt).
  unfold try_catch at 1. unfold mbind at 1, M_bind at 1, bind at 1.
  rewrite (validatePIN_active now p u s Hfmt Hrow).
  unfold logCall. munfold.
  destruct q_log; simpl; eexists; split; reflexivity.
Qed.

(** C7 (as the code has it). The routes keep no call session: the stages of
    a call are linked only by the action of each answer (the PIN prompt
    posts six digits to the authenticate route; an accepted PIN is answered
    with a recording whose callbacks carry the user and the call).  Every
    accepted request with a well-formed PIN of an active user is answered
    with that recording instruction, and a second such request for the same
    call is authenticated again with the same answer. *)
Theorem authenticate_has_no_call_session (env : environment) (now now' : nat)
  (q q_log q_log' : option string) (req : request) (p : string)
  (u : user_row) (s : state) :
  (NODE_ENV env = Some "development"
   ∨ validateRequest env (twilio_authToken env) (rq_signature req)
       (signed_url req) (rq_body req) = true) →
  field "Digits" (rq_body req) = Some p →
  six_digits p = true →
  head (filter (λ u, pin_matches p u = true) (users s)) = Some u →
  let answer := recording_answer (u_id u) (field "CallSid" (rq_body req)) in
  (∃ s0, serve env (PostVoice q) req s
         = (Ok (xml
             [Gather "dtmf" 10 6 "#" "/twilio/authenticate" "POST"
                [Say (Some "alice") (Some "en-US")
                   "Welcome to Hum It Out! Please enter your 6-digit PIN, followed by the pound key."];
              Say (Some "alice") None
                "I didn't receive your PIN. Please call back and try again. Goodbye!"]),
            s0))
  ∧ instructs_recording answer = true
  ∧ ∃ s1 s2,
      serve env (PostAuthenticate now None None q_log) req s = (Ok answer, s1)
      ∧ serve env (PostAuthenticate now' None None q_log') req s1
        = (Ok answer, s2).
Proof.
  intros Haccept Hdigits Hfmt Hrow answer. split.
  - unfold serve. rewrite route_accepts by exact Haccept.
    simpl. unfold voice_handler, logCall. munfold.
    destruct q; simpl; eexists; reflexivity.
  - split; [reflexivity|].
    destruct (authenticate_accepts now q_log req p u s Hdigits Hfmt Hrow)
      as (s1 & Hfirst & Husers).
    assert (Hrow' : head (filter (λ u, pin_matches p u = true) (users s1))
                    = Some (touch_last_login now (u_id u) u)).
    { rewrite Husers, filter_touch.
      destruct (filter _ (users s)) as [|u0 rest]; [discriminate Hrow|].
      injection Hrow as ->. reflexivity. }
    destruct (authenticate_accepts now' q_log' req p _ s1 Hdigits Hfmt Hrow')
      as (s2 & Hsecond & _).
    rewrite touch_keeps_id in Hsecond.
    exists s1, s2. unfold serve.
    rewrite !route_accepts by exact Haccept. simpl. by split.
Qed.

Lemma authenticate_has_no_call_session_witness :
  let env := production true in
  let req := pin_request "123456" in
  let s := boot [sample_user "123456" true] [] true in
  six_digits "123456" = true
  ∧ head (filter (λ u, pin_matches "123456" u = true) (users s))
    = Some (sample_user "123456" true)
  ∧ ∃ s1 s2,
      serve env (PostAuthenticate 7 None None None) req s
      = (Ok (recording_answer "u-1" (Some "CA1")), s1)
      ∧ serve env (PostAuthenticate 8 None None None) req s1
        = (Ok (recording_answer "u-1" (Some "CA1")), s2).
Proof.
  split; [reflexivity|]. split; [reflexivity|].
  exact (proj2 (proj2 (authenticate_has_no_call_session (production true) 7 8
                 None None None (pin_request "123456") "123456"
                 (sample_user "123456" true)
                 (boot [sample_user "123456" true] [] true)
                 (or_intror eq_refl) eq_refl eq_refl eq_refl))).
Defined.

(** The claim of C7 fails on the code: the same call submits its valid PIN
    twice and is told to record twice, with two [pin_success] lines in the
    call log. *)
Lemma second_valid_pin_is_authenticated_again :
  let env := production true in
  let req := pin_request "123456" in
  let s0 := boot [sample_user "123456" true] [] true in
  ∃ r1 s1 r2 s2,
    serve env (PostAuthenticate 7 None None None) req s0 = (Ok r1, s1)
    ∧ serve env (PostAuthenticate 8 None None None) req s1 = (Ok r2, s2)
    ∧ instructs_recording r1 = true
    ∧ instructs_recording r2 = true
    ∧ length (filter (λ r, cl_action r = "pin_success"
                           ∧ cl_call_sid r = Some "CA1") (call_logs s2)) = 2.
Proof.
  simpl. eexists _, _, _, _.
  split; [vm_compute; reflexivity|].
  split; [vm_compute; reflexivity|].
  split; [reflexivity|]. split; [reflexivity|]. vm_compute. reflexivity.
Qed.

(** ** Computations that leave the queue alone *)

Lemma same_queue_refl (s : state) : same_queue s s.
Proof. by repeat split. Qed.

Lemma same_queue_trans (s1 s2 s3 : state) :
  same_queue s1 s2 → same_queue s2 s3 → same_queue s1 s3.
Proof.
  unfold same_queue. intros (?&?&?&?&?) (?&?&?&?&?).
  repeat split; congruence.
Qed.

Lemma frames_ret {A} (a : A) : frames (mret (M := M) a).
Proof. intros s. apply same_queue_refl. Qed.

Lemma frames_throw {A} (msg : string) : frames (throw (A := A) msg).
Proof. intros s. apply same_queue_refl. Qed.

Lemma frames_lift {A} (r : result A) : frames (lift r).
Proof. intros s. apply same_queue_refl. Qed.

Lemma frames_gets {A} (f : state → A) : frames (gets f).
Proof. intros s. apply same_queue_refl. Qed.

Lemma frames_bind {A B} (m : M A) (k : A → M B) :
  frames m → (∀ a, frames (k a)) → frames (m ≫= k).
Proof.
  intros Hm Hk s. munfold. specialize (Hm s).
  destruct (m s) as [[a|msg] s1]; simpl in *; [|exact Hm].
  eapply same_queue_trans; [exact Hm|apply Hk].
Qed.

Lemma frames_try_catch {A} (m : M A) (h : string → M A) :
  frames m → (∀ msg, frames (h msg)) → frames (try_catch m h).
Proof.
  intros Hm Hh s. munfold. specialize (Hm s).
  destruct (m s) as [[a|msg] s1]; simpl in *; [exact Hm|].
  eapply same_queue_trans; [exact Hm|apply Hh].
Qed.

Lemma frames_db_query {A} (fault : option string) (run : M A) :
  frames run → frames (db_query fault run).
Proof. intros H. destruct fault; [apply frames_throw|exact H]. Qed.

Lemma frames_construct (fault : option string) : frames (construct fault).
Proof. destruct fault; [apply frames_throw|apply frames_ret]. Qed.

Lemma frames_set_users f : frames (modify (set_users f)).
Proof. intros s. by repeat split. Qed.

Lemma frames_set_sessions f : frames (modify (set_sessions f)).
Proof. intros s. by repeat split. Qed.

Lemma frames_set_generated_tracks f : frames (modify (set_generated_tracks f)).
Proof. intros s. by repeat split. Qed.

Lemma frames_set_call_logs f : frames (modify (set_call_logs f)).
Proof. intros s. by repeat split. Qed.

Lemma frames_emit_effect (e : effect) : frames (emit_effect e).
Proof. intros s. by repeat split. Qed.

Lemma frames_log (level message : string) : frames (log level message).
Proof. intros s. by repeat split. Qed.

Create HintDb frames discriminated.
#[local] Hint Resolve frames_ret frames_throw frames_lift frames_gets
  frames_db_query frames_construct frames_set_users frames_set_sessions
  frames_set_generated_tracks frames_set_call_logs frames_emit_effect
  frames_log : frames.

(** Splits a computation along its binds, handlers and case distinctions. *)
Ltac frame_step :=
  match goal with
  | |- frames (_ ≫= _) => apply frames_bind; [|intros ?]
  | |- frames (try_catch _ _) => apply frames_try_catch; [|intros ?]
  | |- frames (match ?x with _ => _ end) => destruct x
  | |- frames (let _ := _ in _) => cbv zeta
  | |- frames _ => solve [eauto with frames]
  end.

Ltac frame := repeat frame_step.

Lemma frames_notify userId event jobId sessionId error files :
  frames (notify userId event jobId sessionId error files).
Proof. unfold notify. frame. Qed.

Lemma frames_sendSMS env to message create :
  frames (sendSMS env to message create).
Proof. unfold sendSMS. frame. Qed.

Lemma frames_logCall q callSid phoneNumber action success errorMessage userId :
  frames (logCall q callSid phoneNumber action success errorMessage userId).
Proof. unfold logCall. frame. Qed.

#[local] Hint Resolve frames_notify frames_sendSMS frames_logCall : frames.

Lemma frames_handleJobFailure env j fo : frames (handleJobFailure env j fo).
Proof.
  unfold handleJobFailure, mark_session_failed, send_apology. frame.
Qed.

Lemma frames_saveResults sid files q1 q2 : frames (saveResults sid files q1 q2).
Proof. unfold saveResults. frame. Qed.

Lemma frames_sendSMSNotification phone sid files sms :
  frames (sendSMSNotification phone sid files sms).
Proof. unfold sendSMSNotification. frame. Qed.

Lemma frames_createSession userId sessionData o :
  frames (createSession userId sessionData o).
Proof. unfold createSession. frame. Qed.

Lemma frames_validateAudioFile audioFile access :
  frames (validateAudioFile audioFile access).
Proof. unfold validateAudioFile. frame. Qed.

Lemma frames_cleanup unlink : frames (cleanup unlink).
Proof. unfold cleanup. frame. Qed.

#[local] Hint Resolve frames_saveResults frames_sendSMSNotification
  frames_createSession frames_validateAudioFile frames_cleanup : frames.

Lemma frames_processRecording userId rd o :
  frames (processRecording userId rd o).
Proof.
  unfold processRecording, downloadAudio, transcribeAudio. frame.
Qed.

(** ** The invariant of the queue *)

Lemma wfq_perm q ws ws' h : wfq q ws h → ws' ≡ₚ ws → wfq q ws' h.
Proof.
  intros [Hnd Hq Hr Hf Hj] Hp. split.
  - by rewrite Hp.
  - exact Hq.
  - intros a Ha. apply Hr. by rewrite <- Hp.
  - intros a Ha. apply Hf. by rewrite <- Hp.
  - intros a j Hl. destruct (Hj a j Hl) as (?&?&?&Hrun).
    repeat split; try tauto. intros Hs. rewrite Hp. by apply Hrun.
Qed.

Lemma worker_job_elem (x : worker) (ws : list worker) :
  x ∈ ws → worker_job x ∈ worker_job <$> ws.
Proof. intros H. by apply list_elem_of_fmap_2. Qed.

Lemma wfq_nil : wfq [] [] [].
Proof.
  split; simpl.
  - constructor.
  - intros a Ha. by apply elem_of_nil in Ha.
  - intros a Ha. by apply elem_of_nil in Ha.
  - intros a Ha. by apply elem_of_nil in Ha.
  - intros a j Hl. by rewrite lookup_nil in Hl.
Qed.

(** A referenced job is an allocated object. *)
Lemma wfq_ref_bound q ws h a :
  wfq q ws h → a ∈ q ++ (worker_job <$> ws) → a < length h.
Proof.
  intros [Hnd Hq Hr Hf Hj] Ha. apply elem_of_app in Ha as [Ha|Ha].
  - destruct (Hq a Ha) as (j & Hl & _). by apply lookup_lt_Some in Hl.
  - apply list_elem_of_fmap in Ha as (x & -> & Hx). destruct x as [b|b]; simpl.
    + destruct (Hr b Hx) as (j & Hl & _). by apply lookup_lt_Some in Hl.
    + destruct (Hf b Hx) as (j & Hl & _). by apply lookup_lt_Some in Hl.
Qed.

(** [push] of a fresh job object. *)
Lemma wfq_push q ws h j :
  wfq q ws h →
  j_status j = queued → j_attempts j = 0 → j_maxAttempts j = 3 →
  wfq (q ++ [length h]) ws (h ++ [j]).
Proof.
  intros Hwf Hst Hat Hmax.
  assert (Hfresh : length h ∉ q ++ (worker_job <$> ws)).
  { intros Hin. apply (wfq_ref_bound q ws h) in Hin; [lia|exact Hwf]. }
  destruct Hwf as [Hnd Hq Hr Hf Hj]. split.
  - rewrite <- (assoc_L (++)).
    rewrite (Permutation_app_comm [length h]). rewrite (assoc_L (++)).
    rewrite Permutation_app_comm. simpl. by constructor.
  - intros a Ha. apply elem_of_app in Ha as [Ha|Ha].
    + destruct (Hq a Ha) as (j0 & Hl & Hs). exists j0.
      by rewrite (lookup_app_l_Some _ _ _ _ Hl).
    + apply list_elem_of_singleton in Ha as ->. exists j.
      rewrite lookup_app_r by lia. rewrite Nat.sub_diag. simpl. by auto.
  - intros a Ha. destruct (Hr a Ha) as (j0 & Hl & Hs). exists j0.
    by rewrite (lookup_app_l_Some _ _ _ _ Hl).
  - intros a Ha. destruct (Hf a Ha) as (j0 & Hl & Hs). exists j0.
    by rewrite (lookup_app_l_Some _ _ _ _ Hl).
  - intros a j0 Hl. apply lookup_app_Some in Hl as [Hl|[Hge Hl]].
    + by apply Hj.
    + apply list_lookup_singleton_Some in Hl as [_ <-].
      rewrite Hst, Hat, Hmax. repeat split; try lia; discriminate.
Qed.

(** [shift] of the head, which [processJob] marks. *)
Lemma wfq_take a q ws h :
  wfq (a :: q) ws h →
  wfq q (Running a :: ws) (alter (with_status processing) a h).
Proof.
  intros [Hnd Hq Hr Hf Hj].
  assert (Hnd' : NoDup (a :: q ++ (worker_job <$> ws))) by exact Hnd.
  apply NoDup_cons in Hnd' as [Hfresh Hnd'].
  destruct (Hq a) as (ja & Hla & Hsa); [apply list_elem_of_here|].
  split.
  - simpl. rewrite <- Permutation_middle. by constructor.
  - intros b Hb. assert (b ≠ a).
    { intros ->. apply Hfresh. apply elem_of_app. by left. }
    rewrite list_lookup_alter_ne by done.
    apply Hq. by apply list_elem_of_further.
  - intros b Hb. apply elem_of_cons in Hb as [Hb|Hb].
    + injection Hb as ->. exists (with_status processing ja).
      rewrite list_lookup_alter_eq, Hla. done.
    + assert (b ≠ a).
      { intros ->. apply Hfresh. apply elem_of_app. right.
        by apply (worker_job_elem (Running a)). }
      rewrite list_lookup_alter_ne by done. by apply Hr.
  - intros b Hb. apply elem_of_cons in Hb as [Hb|Hb]; [discriminate Hb|].
    assert (b ≠ a).
    { intros ->. apply Hfresh. apply elem_of_app. right.
      by apply (worker_job_elem (Failing a)). }
    rewrite list_lookup_alter_ne by done. by apply Hf.
  - intros b jb Hl. destruct (decide (b = a)) as [->|Hne].
    + rewrite list_lookup_alter_eq, Hla in Hl. injection Hl as <-.
      destruct (Hj a ja Hla) as (Hmax & Hle & Hiff & _). simpl.
      repeat split; try done.
      * intros H3. apply Hiff in H3. destruct Hsa; congruence.
      * intros _. apply list_elem_of_here.
    + rewrite list_lookup_alter_ne in Hl by done.
      destruct (Hj b jb Hl) as (Hmax & Hle & Hiff & Hrun).
      repeat split; try tauto. intros Hs. apply list_elem_of_further. tauto.
Qed.

Lemma wfq_worker_unshared q ws h x :
  wfq q (x :: ws) h → worker_job x ∉ q ++ (worker_job <$> ws).
Proof.
  intros [Hnd _ _ _ _]. rewrite fmap_cons, <- Permutation_middle in Hnd.
  by apply NoDup_cons in Hnd as [? _].
Qed.

(** The job of a settled [processJob] is rewritten by [f] and let go. *)
Lemma wfq_release q ws h a ja f :
  wfq q (Running a :: ws) h →
  h !! a = Some ja →
  j_maxAttempts (f ja) = 3 →
  (j_attempts (f ja) ≤ 3)%nat →
  (j_attempts (f ja) = 3 ↔ j_status (f ja) = failed) →
  j_status (f ja) ≠ processing →
  wfq q ws (alter f a h).
Proof.
  intros Hwf Hla Hmax Hle Hiff Hnp.
  pose proof (wfq_worker_unshared _ _ _ _ Hwf) as Hfresh. simpl in Hfresh.
  destruct Hwf as [Hnd Hq Hr Hf Hj]. split.
  - rewrite fmap_cons, <- Permutation_middle in Hnd.
    by apply NoDup_cons in Hnd as [_ ?].
  - intros b Hb. assert (b ≠ a).
    { intros ->. apply Hfresh. apply elem_of_app. by left. }
    rewrite list_lookup_alter_ne by done. by apply Hq.
  - intros b Hb. assert (b ≠ a).
    { intros ->. apply Hfresh. apply elem_of_app. right.
      by apply (worker_job_elem (Running a)). }
    rewrite list_lookup_alter_ne by done.
    apply Hr. by apply list_elem_of_further.
  - intros b Hb. assert (b ≠ a).
    { intros ->. apply Hfresh. apply elem_of_app. right.
      by apply (worker_job_elem (Failing a)). }
    rewrite list_lookup_alter_ne by done.
    apply Hf. by apply list_elem_of_further.
  - intros b jb Hl. destruct (decide (b = a)) as [->|Hne].
    + rewrite list_lookup_alter_eq, Hla in Hl. injection Hl as <-.
      repeat split; try tauto.
    + rewrite list_lookup_alter_ne in Hl by done.
      destruct (Hj b jb Hl) as (? & ? & ? & Hrun).
      repeat split; try tauto. intros Hs.
      specialize (Hrun Hs). apply elem_of_cons in Hrun as [Heq|Hin]; [|done].
      by injection Heq as ->.
Qed.

(** [push] of a job that is to be retried. *)
Lemma wfq_requeue q ws h a j :
  wfq q ws h →
  a ∉ q ++ (worker_job <$> ws) →
  h !! a = Some j → j_status j = retrying →
  wfq (q ++ [a]) ws h.
Proof.
  intros [Hnd Hq Hr Hf Hj] Hfresh Hl Hs. split.
  - rewrite <- (assoc_L (++)).
    rewrite (Permutation_app_comm [a]). rewrite (assoc_L (++)).
    rewrite Permutation_app_comm. simpl. by constructor.
  - intros b Hb. apply elem_of_app in Hb as [Hb|Hb]; [by apply Hq|].
    apply list_elem_of_singleton in Hb as ->. exists j. by auto.
  - exact Hr.
  - exact Hf.
  - exact Hj.
Qed.

(** The activation goes on to await [handleJobFailure] for the job. *)
Lemma wfq_await_failure q ws h a j :
  wfq q ws h →
  a ∉ q ++ (worker_job <$> ws) →
  h !! a = Some j → j_status j = failed →
  wfq q (Failing a :: ws) h.
Proof.
  intros [Hnd Hq Hr Hf Hj] Hfresh Hl Hs. split.
  - rewrite fmap_cons, <- Permutation_middle. by constructor.
  - exact Hq.
  - intros b Hb. apply elem_of_cons in Hb as [Hb|Hb]; [discriminate Hb|].
    by apply Hr.
  - intros b Hb. apply elem_of_cons in Hb as [Hb|Hb]; [|by apply Hf].
    injection Hb as ->. by exists j.
  - intros b jb Hlb. destruct (Hj b jb Hlb) as (? & ? & ? & Hrun).
    repeat split; try tauto. intros Hp. apply list_elem_of_further. tauto.
Qed.

Lemma wfq_drop_failing q ws h a :
  wfq q (Failing a :: ws) h → wfq q ws h.
Proof.
  intros [Hnd Hq Hr Hf Hj]. split.
  - rewrite fmap_cons, <- Permutation_middle in Hnd.
    by apply NoDup_cons in Hnd as [_ ?].
  - exact Hq.
  - intros b Hb. apply Hr. by apply list_elem_of_further.
  - intros b Hb. apply Hf. by apply list_elem_of_further.
  - intros b jb Hl. destruct (Hj b jb Hl) as (? & ? & ? & Hrun).
    repeat split; try tauto. intros Hs.
    specialize (Hrun Hs). by apply elem_of_cons in Hrun as [Heq|Hin].
Qed.

(** [this.processingQueue = []] *)
Lemma wfq_clear q ws h : wfq q ws h → wfq [] ws h.
Proof.
  intros [Hnd Hq Hr Hf Hj]. split.
  - simpl. by apply NoDup_app in Hnd as (_ & _ & ?).
  - intros a Ha. by apply elem_of_nil in Ha.
  - exact Hr.
  - exact Hf.
  - exact Hj.
Qed.

(** ** The queue operations keep the invariant *)

Lemma alter_missing {A} (f : A → A) (l : list A) (i : nat) :
  l !! i = None → alter f i l = l.
Proof.
  intros Hnone. rewrite <- (list_alter_id id l i) at 2 by done.
  apply list_alter_ext; [|done]. intros x Hx. congruence.
Qed.

Lemma insert_delete_perm {A} (l : list A) (i : nat) (x : A) :
  i < length l → <[i:=x]> l ≡ₚ x :: delete i l.
Proof.
  intros Hi. rewrite insert_take_drop by done. rewrite delete_take_drop.
  symmetry. apply Permutation_middle.
Qed.

Lemma processJob_begin_fields (a : nat) (s : state) :
  processingQueue (processJob_begin a s) = processingQueue s
  ∧ isProcessing (processJob_begin a s) = isProcessing s
  ∧ workers (processJob_begin a s) = workers s
  ∧ heap (processJob_begin a s) = alter (with_status processing) a (heap s).
Proof.
  unfold processJob_begin. destruct (heap s !! a) as [j|] eqn:Hl.
  - destruct (frames_notify (j_userId j) "processing_started" (Some (j_id j))
                (or_else (j_sessionId j) (j_callSid j)) None None
                (set_heap (alter (with_status processing) a) s))
      as (Hq & Hp & Hh & Hw & _).
    rewrite Hq, Hp, Hh, Hw. done.
  - repeat split. symmetry. by apply alter_missing.
Qed.

Lemma wf_resume (w : nat) (s : state) :
  w < length (workers s) →
  wfq (processingQueue s) (delete w (workers s)) (heap s) →
  wf (resume w s).
Proof.
  intros Hw Hwf. unfold resume, next_iteration, wf.
  destruct (processingQueue s) as [|a rest] eqn:Hq; simpl.
  - by rewrite Hq.
  - destruct (processJob_begin_fields a (set_processingQueue (λ _, rest) s))
      as (Hq' & _ & Hw' & Hh').
    rewrite Hq', Hw', Hh'. simpl.
    eapply wfq_perm; [apply wfq_take; exact Hwf|].
    by apply insert_delete_perm.
Qed.

Lemma wf_processQueue (s : state) : wf s → wf (processQueue s).
Proof.
  intros Hwf. unfold processQueue.
  destruct (isProcessing s); simpl; [exact Hwf|].
  unfold next_iteration. simpl.
  destruct (processingQueue s) as [|a rest] eqn:Hq; simpl; [exact Hwf|].
  unfold wf in *. simpl.
  destruct (processJob_begin_fields a
              (set_processingQueue (λ _, rest) (set_isProcessing true s)))
    as (Hq' & _ & Hw' & Hh').
  rewrite Hq', Hw', Hh'. simpl. rewrite Hq in Hwf.
  eapply wfq_perm; [apply wfq_take; exact Hwf|].
  rewrite Permutation_app_comm. done.
Qed.

(** The state after [this.processingQueue.push(job)] for a fresh object. *)
Lemma enqueue_unfold (j : job) (s : state) :
  enqueue j s
  = (Ok (length (heap s)),
     let pushed :=
       set_processingQueue (λ q, q ++ [length (heap s)])
         (set_heap (λ h, h ++ [j]) s) in
     if isProcessing s then pushed else processQueue pushed).
Proof. unfold enqueue. munfold. simpl. by destruct (isProcessing s). Qed.

Lemma wf_enqueue (j : job) (s : state) :
  j_status j = queued → j_attempts j = 0 → j_maxAttempts j = 3 →
  wf s → wf (enqueue j s).2.
Proof.
  intros Hst Hat Hmax Hwf. rewrite enqueue_unfold. simpl.
  assert (wf (set_processingQueue (λ q, q ++ [length (heap s)])
                (set_heap (λ h, h ++ [j]) s))) as Hpushed.
  { unfold wf. simpl. by apply wfq_push. }
  destruct (isProcessing s); [exact Hpushed|by apply wf_processQueue].
Qed.

Lemma processJob_rest_fields (a : nat) (j : job) (o : job_outcomes)
  (s : state) :
  match processJob_rest a j o s with
  | (Ok _, s') =>
      processingQueue s' = processingQueue s
      ∧ isProcessing s' = isProcessing s
      ∧ workers s' = workers s
      ∧ heap s' = alter (with_status completed) a (heap s)
  | (Throw _, s') => same_queue s s'
  end.
Proof.
  assert (frames (processJob_work j o)) as Hframes.
  { unfold processJob_work. frame; apply frames_processRecording. }
  unfold processJob_rest. munfold. specialize (Hframes s).
  destruct (processJob_work j o s) as [[[]|msg] s1]; simpl in *;
    [|exact Hframes].
  destruct Hframes as (Hq & Hp & Hh & Hw & _). by rewrite Hq, Hp, Hh, Hw.
Qed.

Lemma wf_same_queue (s s' : state) : same_queue s s' → wf s → wf s'.
Proof. intros (Hq & _ & Hh & Hw & _). unfold wf. by rewrite Hq, Hh, Hw. Qed.

(** A job that is being processed has failed at most twice. *)
Lemma wfq_running_attempts q ws h a j :
  wfq q ws h → h !! a = Some j → j_status j = processing →
  j_maxAttempts j = 3 ∧ (j_attempts j < 3)%nat.
Proof.
  intros Hwf Hl Hs. destruct (wf_jobs _ _ _ Hwf a j Hl) as (Hmax & Hle & Hiff & _).
  split; [exact Hmax|].
  destruct (decide (j_attempts j = 3)) as [H3|H3]; [|lia].
  apply Hiff in H3. congruence.
Qed.

Lemma wf_on_error (w a : nat) (msg : string) (s : state) :
  workers s !! w = Some (Running a) → wf s → wf (on_error w a msg s).
Proof.
  intros Hw Hwf. unfold wf in Hwf.
  pose proof (lookup_lt_Some _ _ _ Hw) as Hlen.
  assert (wfq (processingQueue s) (Running a :: delete w (workers s)) (heap s))
    as Hwf'.
  { eapply wfq_perm; [exact Hwf|]. symmetry. by apply delete_Permutation. }
  destruct (wf_running _ _ _ Hwf a) as (j & Hl & Hs).
  { by eapply list_elem_of_lookup_2. }
  destruct (wfq_running_attempts _ _ _ _ _ Hwf Hl Hs) as (Hmax & Hlt).
  pose proof (wfq_worker_unshared _ _ _ _ Hwf') as Hfresh. simpl in Hfresh.
  unfold on_error. cbv zeta. simpl heap at 1.
  rewrite list_lookup_alter_eq, Hl. simpl. rewrite Hmax.
  destruct (S (j_attempts j) <? 3)%nat eqn:Hretry.
  - apply Nat.ltb_lt in Hretry. apply wf_resume; simpl; [exact Hlen|].
    rewrite list_alter_alter_eq.
    eapply (wfq_requeue _ _ _ a ((with_status retrying ∘ record_failure msg) j)).
    + eapply wfq_release; [exact Hwf'|exact Hl|simpl..].
      * exact Hmax.
      * lia.
      * split; [lia|discriminate].
      * discriminate.
    + exact Hfresh.
    + by rewrite list_lookup_alter_eq, Hl.
    + reflexivity.
  - apply Nat.ltb_ge in Hretry. unfold wf. simpl.
    eapply wfq_perm; [|by apply insert_delete_perm].
    eapply (wfq_await_failure _ _ _ a (record_failure msg j)).
    + eapply wfq_release; [exact Hwf'|exact Hl|simpl..].
      * exact Hmax.
      * lia.
      * split; [done|lia].
      * discriminate.
    + exact Hfresh.
    + by rewrite list_lookup_alter_eq, Hl.
    + reflexivity.
Qed.

Lemma wf_clearQueue (s : state) : wf s → wf (clearQueue s).
Proof. unfold wf, clearQueue. simpl. apply wfq_clear. Qed.

Lemma wf_step (env : environment) (l : label) (s s' : state) :
  wf s → step env l s = Some s' → wf s'.
Proof.
  intros Hwf Hstep. destruct l as [jd id|rg id|w o|w fo|]; simpl in Hstep.
  - injection Hstep as <-. by apply wf_enqueue.
  - injection Hstep as <-. by apply wf_enqueue.
  - destruct (workers s !! w) as [[a|a]|] eqn:Hw; try discriminate.
    destruct (heap s !! a) as [j|] eqn:Hl; try discriminate.
    pose proof (processJob_rest_fields a j o s) as Hrest.
    destruct (processJob_rest a j o s) as [[[]|msg] s1]; injection Hstep as <-.
    + destruct Hrest as (Hq1 & _ & Hw1 & Hh1). apply wf_resume.
      * rewrite Hw1. by eapply lookup_lt_Some.
      * rewrite Hq1, Hw1, Hh1.
        destruct (wf_running _ _ _ Hwf a) as (j' & Hl' & Hs).
        { by eapply list_elem_of_lookup_2. }
        destruct (wfq_running_attempts _ _ _ _ _ Hwf Hl' Hs) as (Hmax & Hlt).
        destruct (wf_jobs _ _ _ Hwf a j' Hl') as (_ & _ & Hiff & _).
        eapply wfq_release; [|exact Hl'|simpl..].
        -- eapply wfq_perm; [exact Hwf|]. symmetry. by apply delete_Permutation.
        -- exact Hmax.
        -- lia.
        -- split; [lia|discriminate].
        -- discriminate.
    + apply wf_on_error.
      * destruct Hrest as (_ & _ & _ & Hw1 & _). by rewrite Hw1.
      * by eapply wf_same_queue.
  - destruct (workers s !! w) as [[a|a]|] eqn:Hw; try discriminate.
    destruct (heap s !! a) as [j|] eqn:Hl; try discriminate.
    pose proof (frames_handleJobFailure env j fo s) as (Hq1 & _ & Hh1 & Hw1 & _).
    assert (wfq (processingQueue s) (delete w (workers s)) (heap s)) as Hrest.
    { eapply (wfq_drop_failing _ _ _ a). eapply wfq_perm; [exact Hwf|].
      symmetry. by apply delete_Permutation. }
    destruct (handleJobFailure env j fo s) as [[[]|msg] s1];
      injection Hstep as <-; simpl in *.
    + apply wf_resume.
      * rewrite Hw1. by eapply lookup_lt_Some.
      * by rewrite Hq1, Hw1, Hh1.
    + unfold wf. simpl. by rewrite Hq1, Hw1, Hh1.
  - injection Hstep as <-. by apply wf_clearQueue.
Qed.

Lemma wf_run (env : environment) (ls : list label) (s s' : state) :
  wf s → run env ls s = Some s' → wf s'.
Proof.
  revert s. induction ls as [|l ls IH]; intros s Hwf Hrun; simpl in Hrun.
  - by injection Hrun as <-.
  - destruct (step env l s) as [s1|] eqn:Hstep; [|discriminate].
    eapply IH; [|exact Hrun]. by eapply wf_step.
Qed.

Lemma wf_reachable (env : environment) (s : state) : reachable env s → wf s.
Proof.
  intros (us & ss & io & ls & Hrun). eapply wf_run; [|exact Hrun].
  apply wfq_nil.
Qed.

(** ** How a step changes the attempts *)

Lemma attempts_step_refl (h : list job) : attempts_step None h h.
Proof. intros b j Hl. exists j. by rewrite decide_False. Qed.

Lemma attempts_step_trans (bumped : option nat) (h1 h2 h3 : list job) :
  attempts_step bumped h1 h2 → attempts_step None h2 h3 →
  attempts_step bumped h1 h3.
Proof.
  intros H12 H23 b j Hl. destruct (H12 b j Hl) as (j2 & Hl2 & Hm2 & Ha2).
  destruct (H23 b j2 Hl2) as (j3 & Hl3 & Hm3 & Ha3).
  rewrite decide_False in Ha3 by done.
  exists j3. repeat split; [done|congruence|congruence].
Qed.

Lemma attempts_step_status (st : JobStatus) (c : nat) (h : list job) :
  attempts_step None h (alter (with_status st) c h).
Proof.
  intros b j Hl. rewrite decide_False by done.
  destruct (decide (c = b)) as [->|Hne].
  - exists (with_status st j). by rewrite list_lookup_alter_eq, Hl.
  - exists j. by rewrite list_lookup_alter_ne.
Qed.

Lemma attempts_step_push (j : job) (h : list job) :
  attempts_step None h (h ++ [j]).
Proof.
  intros b jb Hl. exists jb. rewrite decide_False by done.
  by rewrite (lookup_app_l_Some _ _ _ _ Hl).
Qed.

Lemma attempts_step_failure (msg : string) (a : nat) (h : list job) :
  attempts_step (Some a) h (alter (record_failure msg) a h).
Proof.
  intros b j Hl. destruct (decide (a = b)) as [->|Hne].
  - exists (record_failure msg j).
    rewrite list_lookup_alter_eq, Hl, decide_True by done. done.
  - exists j. rewrite list_lookup_alter_ne, decide_False by congruence. done.
Qed.

Lemma attempts_resume (w : nat) (s : state) :
  attempts_step None (heap s) (heap (resume w s)).
Proof.
  unfold resume, next_iteration.
  destruct (processingQueue s) as [|a rest]; simpl.
  - apply attempts_step_refl.
  - destruct (processJob_begin_fields a (set_processingQueue (λ _, rest) s))
      as (_ & _ & _ & ->). simpl. apply attempts_step_status.
Qed.

Lemma attempts_processQueue (s : state) :
  attempts_step None (heap s) (heap (processQueue s)).
Proof.
  unfold processQueue. destruct (isProcessing s); simpl;
    [apply attempts_step_refl|].
  unfold next_iteration. simpl.
  destruct (processingQueue s) as [|a rest]; simpl;
    [apply attempts_step_refl|].
  destruct (processJob_begin_fields a
              (set_processingQueue (λ _, rest) (set_isProcessing true s)))
    as (_ & _ & _ & ->). simpl. apply attempts_step_status.
Qed.

Lemma attempts_enqueue (j : job) (s : state) :
  attempts_step None (heap s) (heap (enqueue j s).2).
Proof.
  rewrite enqueue_unfold. simpl. destruct (isProcessing s); simpl.
  - apply attempts_step_push.
  - eapply attempts_step_trans; [|apply attempts_processQueue]. simpl.
    apply attempts_step_push.
Qed.

Lemma on_error_unfold (w a : nat) (msg : string) (j : job) (s : state) :
  heap s !! a = Some j →
  on_error w a msg s
  = let s1 := set_heap (alter (record_failure msg) a)
                (set_trace (λ t, t ++ [Log "error" "Job processing failed:"]) s) in
    if (S (j_attempts j) <? j_maxAttempts j)%nat
    then resume w (set_processingQueue (λ q, q ++ [a])
                     (set_heap (alter (with_status retrying) a) s1))
    else set_workers (<[w := Failing a]>) s1.
Proof.
  intros Hl. unfold on_error. cbv zeta.
  change (heap (set_heap (alter (record_failure msg) a)
                  (set_trace (λ t, t ++ [Log "error" "Job processing failed:"]) s)))
    with (alter (record_failure msg) a (heap s)).
  by rewrite list_lookup_alter_eq, Hl.
Qed.

(** After a failure the job has one more attempt; the activation awaits
    [handleJobFailure] for it when that was the last one allowed, and goes
    round the loop otherwise. *)
Lemma on_error_spec (w a : nat) (msg : string) (j : job) (s : state) :
  heap s !! a = Some j →
  attempts_step (Some a) (heap s) (heap (on_error w a msg s))
  ∧ ((S (j_attempts j) < j_maxAttempts j)%nat
     ∨ workers (on_error w a msg s) = <[w := Failing a]> (workers s)
       ∧ heap (on_error w a msg s) !! a = Some (record_failure msg j)).
Proof.
  intros Hl. rewrite (on_error_unfold w a msg j s Hl). cbv zeta.
  destruct (S (j_attempts j) <? j_maxAttempts j)%nat eqn:Hretry.
  - apply Nat.ltb_lt in Hretry. split; [|by left].
    eapply attempts_step_trans; [|apply attempts_resume]. simpl.
    eapply attempts_step_trans; [apply attempts_step_failure|].
    apply attempts_step_status.
  - split; [apply attempts_step_failure|]. right. simpl.
    by rewrite list_lookup_alter_eq, Hl.
Qed.

Lemma step_attempts (env : environment) (l : label) (s s' : state) :
  step env l s = Some s' →
  ∃ bumped,
    attempts_step bumped (heap s) (heap s')
    ∧ ∀ a, bumped = Some a ↔ failed_attempt l s a.
Proof.
  intros Hstep. destruct l as [jd id|rg id|w o|w fo|]; simpl in Hstep.
  - injection Hstep as <-. exists None. split; [apply attempts_enqueue|].
    intros a. split; [discriminate|]. by intros (?&?&?&?&?&_).
  - injection Hstep as <-. exists None. split; [apply attempts_enqueue|].
    intros a. split; [discriminate|]. by intros (?&?&?&?&?&_).
  - destruct (workers s !! w) as [[a|a]|] eqn:Hw; try discriminate.
    destruct (heap s !! a) as [j|] eqn:Hl; try discriminate.
    pose proof (processJob_rest_fields a j o s) as Hrest.
    destruct (processJob_rest a j o s) as [[[]|msg] s1] eqn:Hrun;
      injection Hstep as <-.
    + exists None. split.
      * eapply attempts_step_trans; [|apply attempts_resume].
        destruct Hrest as (_ & _ & _ & ->). apply attempts_step_status.
      * intros b. split; [discriminate|].
        intros (w' & o' & j' & msg & Heq & Hw' & Hl' & Hthrow).
        injection Heq as <- <-. rewrite Hw in Hw'. injection Hw' as <-.
        rewrite Hl in Hl'. injection Hl' as <-. by rewrite Hrun in Hthrow.
    + exists (Some a). destruct Hrest as (_ & _ & Hh1 & _ & _). split.
      * rewrite <- Hh1 in Hl. rewrite <- Hh1.
        by apply (on_error_spec w a msg j s1).
      * intros b. split.
        -- intros [= <-]. exists w, o, j, msg. by rewrite Hrun.
        -- intros (w' & o' & j' & msg' & Heq & Hw' & _).
           injection Heq as <- <-. rewrite Hw in Hw'. by injection Hw' as <-.
  - destruct (workers s !! w) as [[a|a]|] eqn:Hw; try discriminate.
    destruct (heap s !! a) as [j|] eqn:Hl; try discriminate.
    pose proof (frames_handleJobFailure env j fo s) as (_ & _ & Hh1 & _ & _).
    exists None. split.
    + destruct (handleJobFailure env j fo s) as [[[]|msg] s1];
        injection Hstep as <-; simpl in *.
      * rewrite <- Hh1. apply attempts_resume.
      * rewrite Hh1. apply attempts_step_refl.
    + intros b. split; [discriminate|]. by intros (?&?&?&?&?&_).
  - injection Hstep as <-. exists None. split; [apply attempts_step_refl|].
    intros a. split; [discriminate|]. by intros (?&?&?&?&?&_).
Qed.

(** A job that has used all its attempts is failed, waits in no queue and is
    run by no one. *)
Lemma exhausted_is_terminal (s : state) (a : nat) (j : job) :
  wf s → heap s !! a = Some j → j_attempts j = j_maxAttempts j →
  j_status j = failed ∧ (a ∉ processingQueue s) ∧ (Running a ∉ workers s).
Proof.
  intros Hwf Hl Hmax.
  destruct (wf_jobs _ _ _ Hwf a j Hl) as (H3 & _ & Hiff & _).
  assert (j_status j = failed) as Hs by (apply Hiff; congruence).
  split; [exact Hs|]. split.
  - intros Hin. destruct (wf_queued _ _ _ Hwf a Hin) as (j' & Hl' & Hs').
    rewrite Hl in Hl'. injection Hl' as <-. destruct Hs'; congruence.
  - intros Hin. destruct (wf_running _ _ _ Hwf a Hin) as (j' & Hl' & Hs').
    rewrite Hl in Hl'. injection Hl' as <-. congruence.
Qed.

Lemma exhausted_not_attempted (l : label) (s : state) (a : nat) (j : job) :
  wf s → heap s !! a = Some j → j_attempts j = j_maxAttempts j →
  ¬ (failed_attempt l s a).
Proof.
  intros Hwf Hl Hmax (w & o & j' & msg & _ & Hw & _).
  destruct (exhausted_is_terminal s a j Hwf Hl Hmax) as (_ & _ & Hrun).
  apply Hrun. by eapply list_elem_of_lookup_2.
Qed.

Lemma exhausted_forever (env : environment) (ls : list label) (s s' : state)
  (a : nat) (j : job) :
  wf s → heap s !! a = Some j → j_attempts j = j_maxAttempts j →
  run env ls s = Some s' →
  (a ∉ processingQueue s')
  ∧ ∃ j', heap s' !! a = Some j'
          ∧ j_attempts j' = j_maxAttempts j' ∧ j_status j' = failed.
Proof.
  revert s j. induction ls as [|l ls IH]; intros s j Hwf Hl Hmax Hrun;
    simpl in Hrun.
  - injection Hrun as <-.
    destruct (exhausted_is_terminal s a j Hwf Hl Hmax) as (Hs & Hq & _).
    split; [exact Hq|]. by exists j.
  - destruct (step env l s) as [s1|] eqn:Hstep; [|discriminate].
    destruct (step_attempts env l s s1 Hstep) as (bumped & Hat & Hiff).
    destruct (Hat a j Hl) as (j1 & Hl1 & Hm1 & Ha1).
    rewrite decide_False in Ha1.
    + eapply (IH s1 j1); [by eapply wf_step|exact Hl1|congruence|exact Hrun].
    + intros Hb. apply Hiff in Hb.
      by eapply (exhausted_not_attempted l s a j).
Qed.

(** C2. Along every step of every reachable state, a job's [attempts] grows
    by exactly one when the step is a failed processing attempt of that job
    and is unchanged otherwise, [maxAttempts] never changes, and [attempts]
    never exceeds it.  When a failed attempt makes them equal the job is
    ['failed'] and the activation awaits [handleJobFailure] for it; a job
    whose attempts equal [maxAttempts] is in no queue, is run by no worker,
    and stays so in every later state. *)
Theorem attempts_count_failed_runs (env : environment) (l : label)
  (s s' : state) :
  reachable env s → step env l s = Some s' →
  (∀ a j, heap s !! a = Some j →
     ∃ j', heap s' !! a = Some j'
           ∧ j_maxAttempts j' = j_maxAttempts j
           ∧ (failed_attempt l s a → j_attempts j' = S (j_attempts j))
           ∧ (¬ (failed_attempt l s a) → j_attempts j' = j_attempts j)
           ∧ (failed_attempt l s a → j_attempts j' = j_maxAttempts j' →
              j_status j' = failed ∧ Failing a ∈ workers s'))
  ∧ (∀ a j', heap s' !! a = Some j' →
       (j_attempts j' ≤ j_maxAttempts j')%nat
       ∧ (j_attempts j' = j_maxAttempts j' →
          j_status j' = failed
          ∧ (a ∉ processingQueue s') ∧ (Running a ∉ workers s')))
  ∧ (∀ a j', heap s' !! a = Some j' → j_attempts j' = j_maxAttempts j' →
       ∀ ls s'', run env ls s' = Some s'' →
         (a ∉ processingQueue s'')
         ∧ ∃ j'', heap s'' !! a = Some j''
                  ∧ j_attempts j'' = j_maxAttempts j''
                  ∧ j_status j'' = failed).
Proof.
  intros Hreach Hstep. pose proof (wf_reachable env s Hreach) as Hwf.
  pose proof (wf_step env l s s' Hwf Hstep) as Hwf'.
  split; [|split].
  - intros a j Hl.
    destruct (step_attempts env l s s' Hstep) as (bumped & Hat & Hiff).
    destruct (Hat a j Hl) as (j' & Hl' & Hm' & Ha').
    exists j'. split; [exact Hl'|]. split; [exact Hm'|].
    destruct (decide (bumped = Some a)) as [Hb|Hb].
    + pose proof (proj1 (Hiff a) Hb) as Hfail. split; [done|].
      split; [done|]. intros _ Hmax.
      destruct (exhausted_is_terminal s' a j' Hwf' Hl' Hmax) as (Hs & _).
      split; [exact Hs|].
      destruct (wf_jobs _ _ _ Hwf' a j' Hl') as (_ & _ & _ & _).
      destruct Hfail as (w & o & j0 & msg & -> & Hw & Hl0 & Hthrow).
      rewrite Hl in Hl0. injection Hl0 as <-. simpl in Hstep.
      rewrite Hw, Hl in Hstep.
      pose proof (processJob_rest_fields a j o s) as Hrest.
      destruct (processJob_rest a j o s) as [[[]|msg'] s1];
        [discriminate Hthrow|]. injection Hstep as <-.
      destruct Hrest as (_ & _ & Hh1 & Hw1 & _).
      rewrite <- Hh1 in Hl.
      destruct (on_error_spec w a msg' j s1 Hl) as (_ & [Hlt|[Hws _]]).
      * exfalso. lia.
      * rewrite Hws, Hw1. apply list_elem_of_insert. by eapply lookup_lt_Some.
    + split; [intros Hfail; by apply Hiff in Hfail|]. split; [done|].
      intros Hfail. by apply Hiff in Hfail.
  - intros a j' Hl'. split.
    + destruct (wf_jobs _ _ _ Hwf' a j' Hl') as (-> & Hle & _). exact Hle.
    + by apply exhausted_is_terminal.
  - intros a j' Hl' Hmax ls s'' Hrun.
    by eapply (exhausted_forever env ls s' s'' a j').
Qed.

(** ** The pipeline when its stages succeed *)

Lemma get_prop_not_null (v : json) (k : string) :
  v ≠ JNull → ∃ r, get_prop v k = Ok r.
Proof. destruct v; intros H; try done; simpl; eauto. Qed.

Lemma saveResults_succeeds (sid : string) (files : json) (s : state) :
  files ≠ JNull →
  ∃ row,
    saveResults sid files None None s
    = (Ok tt,
       set_generated_tracks (λ t, t ++ [row])
         (set_sessions
            (update_status (λ r, String.eqb (s_id r) sid) "completed") s)).
Proof.
  intros Hnn. unfold saveResults.
  destruct (get_prop_not_null files "backingTrack" Hnn) as (v1 & H1).
  destruct (get_prop_not_null files "midi" Hnn) as (v2 & H2).
  destruct (get_prop_not_null files "stemsZip" Hnn) as (v3 & H3).
  destruct (get_prop_not_null files "lyrics" Hnn) as (v4 & H4).
  destruct (get_prop_not_null files "downloadPackage" Hnn) as (v5 & H5).
  destruct (get_prop_not_null files "totalSize" Hnn) as (v6 & H6).
  rewrite H1, H2, H3, H4, H5, H6. munfold. simpl. eexists. reflexivity.
Qed.

Lemma sendSMSNotification_swallows (phone sid : string) (files : json)
  (sms : option string) (s : state) :
  ∃ s', sendSMSNotification phone sid files sms s = (Ok tt, s')
        ∧ sessions s' = sessions s
        ∧ (files ≠ JNull → is_Some sms →
           trace s'
           = trace s ++ [DownloadLinks phone sid false;
                         Log "error" "Failed to send SMS notification:"]).
Proof.
  unfold sendSMSNotification. munfold.
  destruct (get_prop files "downloadPackage") as [v|e] eqn:Hprop; simpl.
  - destruct sms as [msg|]; simpl; eexists; (split; [reflexivity|]);
      (split; [reflexivity|]); intros _ Hsms; simpl.
    + by rewrite <- (assoc_L (++)).
    + by destruct Hsms.
  - eexists. split; [reflexivity|]. split; [reflexivity|]. intros Hnn.
    destruct (get_prop_not_null files "downloadPackage" Hnn) as (r & Hr).
    congruence.
Qed.

Lemma cleanup_swallows (unlink : option string) (s : state) :
  ∃ s' es, cleanup unlink s = (Ok tt, s')
           ∧ sessions s' = sessions s
           ∧ trace s' = trace s ++ es.
Proof.
  unfold cleanup. munfold.
  destruct unlink; simpl; eexists _, _; repeat split; try reflexivity.
  by rewrite (right_id_L [] (++)).
Qed.

(** When stages 1 to 8 succeed, [processRecording] returns the session and
    the files whatever the notification and the clean-up do, and leaves the
    new session row, like every row with its id, ['completed'].  A
    notification that throws leaves its failed call and the error line in
    the trace. *)
Lemma processRecording_succeeds (userId : option string) (rd : recordingData)
  (o : pipeline_outcomes) (sid : string) (files : json) (s : state) :
  stages_succeed o sid files →
  ∃ s' row,
    processRecording userId rd o s
    = (Ok {| pr_sessionId := sid; pr_files := files |}, s')
    ∧ s_id row = sid
    ∧ s_user_id row = userId
    ∧ sessions s'
      = update_status (λ r, String.eqb (s_id r) sid) "completed"
          (sessions s ++ [row])
    ∧ (∀ phone, rd_phoneNumber rd = Some phone → present (Some phone) = true →
       is_Some (po_sms o) →
       ∃ es, trace s'
             = trace s ++ [DownloadLinks phone sid false;
                           Log "error" "Failed to send SMS notification:"]
                       ++ es).
Proof.
  intros (af & t & Hd & Hlo & Hhi & Hacc & Ht & Hdur & Hins & Hf & Hnn & Hu
          & Hi).
  unfold generated_music in Hf.
  unfold processRecording, downloadAudio, validateAudioFile, transcribeAudio,
    analysis_prompt, interpolate, createSession.
  rewrite Hd, Hacc, Ht, Hins, Hu, Hi.
  unfold try_catch at 1. unfold mbind, mret, M_bind, M_ret, bind, ret, lift,
    wrap_error, modify, throw.
  assert ((audio_maxSize <? af_size af)%Z = false) as Hb1 by (by apply Z.ltb_ge).
  assert ((af_size af <? 1000)%Z = false) as Hb2 by (by apply Z.ltb_ge).
  cbn beta iota. rewrite Hb1, Hb2. cbn beta iota. rewrite Hdur.
  cbn beta iota. rewrite Hf. cbn beta iota.
  match goal with
  | |- context [saveResults sid files None None ?s1] =>
      destruct (saveResults_succeeds sid files s1 Hnn) as (track & ->)
  end.
  cbn beta iota.
  match goal with
  | |- context [match rd_phoneNumber rd with _ => _ end ?s2] =>
      assert (∃ s3, (match rd_phoneNumber rd with
                     | Some phone =>
                         if present (Some phone)
                         then sendSMSNotification phone sid files (po_sms o)
                         else λ s0, (Ok (), s0)
                     | None => λ s0, (Ok (), s0)
                     end) s2 = (Ok tt, s3)
                    ∧ sessions s3 = sessions s2
                    ∧ (∀ phone, rd_phoneNumber rd = Some phone →
                         present (Some phone) = true → is_Some (po_sms o) →
                         trace s3
                         = trace s2
                           ++ [DownloadLinks phone sid false;
                               Log "error" "Failed to send SMS notification:"]))
        as (s3 & -> & Hs3 & Ht3)
  end.
  { destruct (rd_phoneNumber rd) as [phone|].
    - destruct (present (Some phone)) eqn:Hp.
      + match goal with
        | |- context [sendSMSNotification phone sid files (po_sms o) ?s2] =>
            destruct (sendSMSNotification_swallows phone sid files (po_sms o)
                        s2) as (s3 & -> & Hs3 & Ht3)
        end.
        exists s3. split; [done|]. split; [done|].
        intros phone' [= <-] _ Hsms. by apply Ht3.
      + eexists. split; [reflexivity|]. split; [reflexivity|].
        intros phone' [= <-] Hp'. congruence.
    - eexists. split; [reflexivity|]. split; [reflexivity|].
      intros phone' [=]. }
  cbn beta iota.
  destruct (cleanup_swallows (po_unlink o) s3) as (s4 & es & -> & Hs4 & Ht4).
  eexists s4, (session_of sid userId _). split; [reflexivity|].
  rewrite Hs4, Hs3. simpl. split; [reflexivity|]. split; [reflexivity|].
  split; [reflexivity|].
  intros phone Hphone Hp Hsms. exists es.
  rewrite Ht4, (Ht3 phone Hphone Hp Hsms). simpl.
  by rewrite <- (assoc_L (++)).
Qed.

Lemma notify_ok userId event jobId sessionId error files (s : state) :
  ∃ s' es, notify userId event jobId sessionId error files s = (Ok tt, s')
           ∧ same_queue s s'
           ∧ sessions s' = sessions s
           ∧ trace s' = trace s ++ es.
Proof.
  unfold notify. munfold. simpl.
  destruct (io_up s && present userId); eexists _, _; repeat split;
    try reflexivity.
  by rewrite (right_id_L [] (++)).
Qed.

Lemma processJob_begin_tables (a : nat) (s : state) :
  sessions (processJob_begin a s) = sessions s
  ∧ ∃ es, trace (processJob_begin a s) = trace s ++ es.
Proof.
  unfold processJob_begin. destruct (heap s !! a) as [j|].
  - match goal with
    | |- context [notify ?u ?e ?i ?sid ?err ?f ?s0] =>
        destruct (notify_ok u e i sid err f s0) as (s1 & es & -> & _ & Hs & Ht)
    end.
    simpl. rewrite Hs, Ht. split; [done|]. by exists es.
  - split; [done|]. exists []. by rewrite (right_id_L [] (++)).
Qed.

(** Going round the loop does not touch a job that is not queued, nor the
    session table, and only adds to the trace. *)
Lemma resume_other (w a : nat) (s : state) :
  a ∉ processingQueue s →
  heap (resume w s) !! a = heap s !! a
  ∧ (a ∉ processingQueue (resume w s))
  ∧ sessions (resume w s) = sessions s
  ∧ ∃ es, trace (resume w s) = trace s ++ es.
Proof.
  intros Hq. unfold resume, next_iteration.
  destruct (processingQueue s) as [|c rest] eqn:Hqueue; simpl.
  - rewrite Hqueue. repeat split; try done.
    exists []. by rewrite (right_id_L [] (++)).
  - destruct (processJob_begin_fields c (set_processingQueue (λ _, rest) s))
      as (Hq' & _ & _ & Hh').
    destruct (processJob_begin_tables c (set_processingQueue (λ _, rest) s))
      as (Hs' & es & Ht').
    rewrite Hq', Hh', Hs', Ht'. simpl.
    apply not_elem_of_cons in Hq as [Hne Hrest].
    rewrite list_lookup_alter_ne by done. repeat split; try done.
    by exists es.
Qed.

(** A worker's job is not in the queue. *)
Lemma wf_worker_not_queued (s : state) (w : nat) (x : worker) :
  wf s → workers s !! w = Some x → worker_job x ∉ processingQueue s.
Proof.
  intros Hwf Hw Hin. destruct Hwf as [Hnd _ _ _ _].
  apply NoDup_app in Hnd as (_ & Hdisj & _). apply (Hdisj _ Hin).
  apply worker_job_elem. by eapply list_elem_of_lookup_2.
Qed.

(** The settling of a [processJob] whose pipeline succeeds: the job is
    ['completed'] with the attempts it had, is not queued again, and the
    session of the run is ['completed'], also when the notification threw. *)
Lemma settle_completes (env : environment) (w a : nat) (j : job)
  (o : job_outcomes) (sid : string) (files : json) (s : state) :
  wf s →
  workers s !! w = Some (Running a) →
  heap s !! a = Some j →
  j_type j = process_recording →
  stages_succeed (jo_pipeline o) sid files →
  ∃ s' row,
    step env (Settle w o) s = Some s'
    ∧ status_at a s' = Some completed
    ∧ attempts_at a s' = Some (j_attempts j)
    ∧ (a ∉ processingQueue s')
    ∧ s_id row = sid
    ∧ s_user_id row = j_userId j
    ∧ sessions s'
      = update_status (λ r, String.eqb (s_id r) sid) "completed"
          (sessions s ++ [row])
    ∧ (∀ phone, j_phoneNumber j = Some phone → present (Some phone) = true →
       is_Some (po_sms (jo_pipeline o)) →
       ∃ es, trace s'
             = trace s ++ [DownloadLinks phone sid false;
                           Log "error" "Failed to send SMS notification:"]
                       ++ es).
Proof.
  intros Hwf Hw Hl Htype Hok. simpl. rewrite Hw, Hl.
  unfold processJob_rest, processJob_work. rewrite Htype.
  destruct (processRecording_succeeds (j_userId j)
              {| rd_recordingUrl := j_recordingUrl j;
                 rd_callSid := j_callSid j;
                 rd_duration := j_duration j;
                 rd_phoneNumber := j_phoneNumber j |}
              (jo_pipeline o) sid files s Hok)
    as (s1 & row & Hrun & Hid & Huser & Hsess & Htrace).
  pose proof (frames_processRecording (j_userId j)
                {| rd_recordingUrl := j_recordingUrl j;
                   rd_callSid := j_callSid j;
                   rd_duration := j_duration j;
                   rd_phoneNumber := j_phoneNumber j |}
                (jo_pipeline o) s) as Hframe.
  rewrite Hrun in Hframe. simpl in Hframe.
  destruct Hframe as (Hq1 & _ & Hh1 & _ & _).
  unfold mbind at 1, M_bind at 1, bind at 1.
  unfold mbind at 1, M_bind at 1, bind at 1. rewrite Hrun. simpl.
  destruct (notify_ok (j_userId j) "processing_complete" (Some (j_id j))
              (Some sid) None (Some files) s1)
    as (s2 & es2 & -> & (Hq2 & _ & Hh2 & _ & _) & Hs2 & Ht2).
  unfold modify.
  pose proof (wf_worker_not_queued s w (Running a) Hwf Hw) as Hnq.
  simpl in Hnq.
  destruct (resume_other w a (set_heap (alter (with_status completed) a) s2))
    as (Hheap & Hqueue & Hsessions & es3 & Ht3).
  { simpl. by rewrite Hq2, Hq1. }
  eexists _, row. split; [reflexivity|].
  unfold status_at, attempts_at. rewrite Hheap. simpl.
  rewrite list_lookup_alter_eq, Hh2, Hh1, Hl. simpl.
  split; [done|]. split; [done|]. split; [exact Hqueue|].
  split; [exact Hid|]. split; [exact Huser|]. split.
  - rewrite Hsessions. simpl. by rewrite Hs2.
  - intros phone Hphone Hp Hsms.
    destruct (Htrace phone Hphone Hp Hsms) as (es1 & Ht1).
    exists (es1 ++ es2 ++ es3). rewrite Ht3. simpl. rewrite Ht2, Ht1.
    by rewrite <- !(assoc_L (++)).
Qed.

Lemma update_status_elem (where_ : session_row → bool) (st : string)
  (t : list session_row) (r : session_row) :
  r ∈ update_status where_ st t →
  ∃ r0, r0 ∈ t ∧ s_id r = s_id r0
        ∧ (where_ r0 = true → s_processing_status r = st).
Proof.
  unfold update_status. intros Hin.
  apply list_elem_of_fmap in Hin as (r0 & -> & Hin). exists r0.
  split; [exact Hin|]. destruct (where_ r0); simpl; split; done.
Qed.

Lemma stages_succeed_sample (composer : result json) (sms : option string) :
  stages_succeed (pipeline (Ok sample_audio) composer sms) "s-1" sample_files.
Proof.
  exists sample_audio, sample_transcription. unfold audio_maxSize. simpl.
  repeat split; try reflexivity; try lia. discriminate.
Qed.

Lemma one_job_running_reachable (env : environment) :
  reachable env one_job_running.
Proof.
  exists [], [], true, [QueueProcessingJob sample_jobData "job_1"].
  reflexivity.
Qed.

(** ** A notification that throws *)

(** C9. When stages 1 to 8 of a recording job succeed and the notification
    to the job's phone throws, [processRecording] still returns its result,
    the settling step marks the job ['completed'] with its attempts
    unchanged and does not queue it again, and the session of the run is
    ['completed'] in the table. *)
Theorem failed_notification_keeps_job_completed (env : environment)
  (w a : nat) (j : job) (o : job_outcomes) (sid phone : string)
  (files : json) (s : state) :
  reachable env s →
  workers s !! w = Some (Running a) →
  heap s !! a = Some j →
  j_type j = process_recording →
  j_phoneNumber j = Some phone →
  present (Some phone) = true →
  stages_succeed (jo_pipeline o) sid files →
  is_Some (po_sms (jo_pipeline o)) →
  (∃ s1,
     processRecording (j_userId j)
       {| rd_recordingUrl := j_recordingUrl j; rd_callSid := j_callSid j;
          rd_duration := j_duration j; rd_phoneNumber := j_phoneNumber j |}
       (jo_pipeline o) s
     = (Ok {| pr_sessionId := sid; pr_files := files |}, s1))
  ∧ ∃ s',
      step env (Settle w o) s = Some s'
      ∧ (∃ es, trace s'
               = trace s ++ [DownloadLinks phone sid false;
                             Log "error" "Failed to send SMS notification:"]
                         ++ es)
      ∧ status_at a s' = Some completed
      ∧ attempts_at a s' = Some (j_attempts j)
      ∧ (a ∉ processingQueue s')
      ∧ (∃ r, r ∈ sessions s' ∧ s_id r = sid)
      ∧ (∀ r, r ∈ sessions s' → s_id r = sid →
              s_processing_status r = "completed").
Proof.
  intros Hreach Hw Hl Htype Hphone Hp Hok Hsms. split.
  - destruct (processRecording_succeeds (j_userId j)
                {| rd_recordingUrl := j_recordingUrl j;
                   rd_callSid := j_callSid j;
                   rd_duration := j_duration j;
                   rd_phoneNumber := j_phoneNumber j |}
                (jo_pipeline o) sid files s Hok) as (s1 & _ & Hrun & _).
    by exists s1.
  - destruct (settle_completes env w a j o sid files s
                (wf_reachable env s Hreach) Hw Hl Htype Hok)
      as (s' & row & Hstep & Hst & Hat & Hq & Hid & _ & Hsess & Htrace).
    exists s'. split; [exact Hstep|].
    split; [by apply (Htrace phone)|]. split; [exact Hst|].
    split; [exact Hat|]. split; [exact Hq|]. split.
    + exists (with_processing_status "completed" row). split; [|exact Hid].
      rewrite Hsess. unfold update_status. rewrite fmap_app. simpl.
      rewrite Hid, String.eqb_refl. apply elem_of_app. right.
      apply list_elem_of_here.
    + intros r Hin Hr. rewrite Hsess in Hin.
      apply update_status_elem in Hin as (r0 & _ & Hid0 & Hdone).
      apply Hdone. apply String.eqb_eq. congruence.
Qed.

Lemma failed_notification_keeps_job_completed_witness :
  reachable (production true) one_job_running
  ∧ stages_succeed (jo_pipeline sms_fails) "s-1" sample_files
  ∧ is_Some (po_sms (jo_pipeline sms_fails))
  ∧ ∃ s',
      step (production true) (Settle 0 sms_fails) one_job_running = Some s'
      ∧ (∃ es, trace s'
               = trace one_job_running
                 ++ [DownloadLinks "+15550100" "s-1" false;
                     Log "error" "Failed to send SMS notification:"] ++ es)
      ∧ status_at 0 s' = Some completed
      ∧ attempts_at 0 s' = Some 0
      ∧ (0 ∉ processingQueue s')
      ∧ (∃ r, r ∈ sessions s' ∧ s_id r = "s-1")
      ∧ (∀ r, r ∈ sessions s' → s_id r = "s-1" →
              s_processing_status r = "completed").
Proof.
  split; [apply one_job_running_reachable|].
  split; [apply stages_succeed_sample|].
  split; [by eexists|].
  exact (proj2 (failed_notification_keeps_job_completed (production true) 0 0
                  (with_status processing
                     (new_processing_job sample_jobData "job_1"))
                  sms_fails "s-1" "+15550100" sample_files one_job_running
                  (one_job_running_reachable (production true))
                  eq_refl eq_refl eq_refl eq_refl eq_refl
                  (stages_succeed_sample (Ok composer_answer) _)
                  (ex_intro _ _ eq_refl))).
Defined.

(** ** Two failed downloads, then success *)

Lemma settle_download_fails (env : environment) (w a : nat) (j : job)
  (o : job_outcomes) (e : string) (s : state) :
  workers s !! w = Some (Running a) →
  heap s !! a = Some j →
  j_type j = process_recording →
  po_download (jo_pipeline o) = Throw e →
  step env (Settle w o) s
  = Some (on_error w a ("Failed to download audio: " +:+ e)
            (set_trace (λ t, t ++ [Log "error" "Audio processing failed:"]) s)).
Proof.
  intros Hw Hl Htype Hd. simpl. rewrite Hw, Hl.
  unfold processJob_rest, processJob_work, processRecording, downloadAudio.
  rewrite Htype, Hd. reflexivity.
Qed.

Lemma solo_after_enqueue (jd : jobData) (id : string)
  (us : list user_row) (ss : list session_row) (io : bool) :
  ∃ j, solo 0 j (queueProcessingJob jd id (boot us ss io)).2.
Proof.
  unfold queueProcessingJob. rewrite enqueue_unfold. simpl.
  unfold processQueue, next_iteration. simpl.
  destruct (processJob_begin_fields 0
              (set_processingQueue (λ _, [])
                 (set_isProcessing true
                    (set_processingQueue (λ q, q ++ [0])
                       (set_heap (λ h, h ++ [new_processing_job jd id])
                          (boot us ss io))))))
    as (Hq & _ & Hw & Hh).
  exists (with_status processing (new_processing_job jd id)).
  unfold solo. simpl. rewrite Hq, Hw, Hh. done.
Qed.

Lemma solo_download_fails (env : environment) (n : nat) (j : job)
  (o : job_outcomes) (e : string) (s : state) :
  solo n j s → (S n < 3)%nat →
  po_download (jo_pipeline o) = Throw e →
  ∃ s' j', step env (Settle 0 o) s = Some s' ∧ solo (S n) j' s'.
Proof.
  intros (Hq & Hw & Hh & Hs & Htype & Hat & Hmax) Hlt Hd.
  rewrite (settle_download_fails env 0 0 j o e s);
    [|by rewrite Hw|by rewrite Hh|exact Htype|exact Hd].
  eexists _, _. split; [reflexivity|].
  rewrite (on_error_unfold 0 0 _ j); [|simpl; by rewrite Hh]. cbv zeta.
  rewrite Hat, Hmax. apply Nat.ltb_lt in Hlt. rewrite Hlt.
  unfold resume, next_iteration. simpl. rewrite Hq. simpl.
  match goal with
  | |- context [processJob_begin 0 ?s0] =>
      destruct (processJob_begin_fields 0 s0) as (Hq' & _ & Hw' & Hh')
  end.
  unfold solo. simpl. rewrite Hq', Hw', Hh'. simpl. rewrite Hw, Hh. simpl.
  repeat split; try done. simpl. by rewrite Hat.
Qed.

(** C3 (as the code has it). A recording job queued on an idle server whose
    download throws on the first two attempts and whose third attempt
    succeeds ends ['completed'] with [maxAttempts] 3 and [attempts] 2: the
    counter counts the failed attempts. *)
Theorem third_attempt_completes_with_two_attempts (env : environment)
  (us : list user_row) (ss : list session_row) (io : bool) (jd : jobData)
  (id e1 e2 sid : string) (o1 o2 o3 : job_outcomes) (files : json) :
  po_download (jo_pipeline o1) = Throw e1 →
  po_download (jo_pipeline o2) = Throw e2 →
  stages_succeed (jo_pipeline o3) sid files →
  ∃ s,
    run env [QueueProcessingJob jd id; Settle 0 o1; Settle 0 o2; Settle 0 o3]
      (boot us ss io) = Some s
    ∧ status_at 0 s = Some completed
    ∧ attempts_at 0 s = Some 2
    ∧ j_maxAttempts <$> heap s !! 0 = Some 3.
Proof.
  intros H1 H2 H3. simpl.
  destruct (solo_after_enqueue jd id us ss io) as (j0 & Hsolo0).
  assert (wf (queueProcessingJob jd id (boot us ss io)).2) as Hwf0.
  { apply (wf_step env (QueueProcessingJob jd id) (boot us ss io));
      [apply wfq_nil|reflexivity]. }
  destruct (solo_download_fails env 0 j0 o1 e1 _ Hsolo0 ltac:(lia) H1)
    as (s1 & j1 & Hstep1 & Hsolo1).
  pose proof (wf_step env _ _ _ Hwf0 Hstep1) as Hwf1.
  simpl in Hstep1. rewrite Hstep1.
  destruct (solo_download_fails env 1 j1 o2 e2 _ Hsolo1 ltac:(lia) H2)
    as (s2 & j2 & Hstep2 & Hsolo2).
  pose proof (wf_step env _ _ _ Hwf1 Hstep2) as Hwf2.
  simpl in Hstep2. rewrite Hstep2.
  destruct Hsolo2 as (Hq & Hw & Hh & Hs & Htype & Hat & Hmax).
  destruct (settle_completes env 0 0 j2 o3 sid files s2 Hwf2)
    as (s3 & row & Hstep3 & Hst & Hatt & _ & _ & _ & _ & _);
    [by rewrite Hw|by rewrite Hh|exact Htype|exact H3|].
  simpl in Hstep3. rewrite Hstep3. exists s3.
  split; [reflexivity|]. split; [exact Hst|]. split; [by rewrite Hatt, Hat|].
  destruct (step_attempts env (Settle 0 o3) s2 s3 Hstep3)
    as (bumped & Hstep & _).
  destruct (Hstep 0 j2) as (j3 & Hl3 & Hm3 & _); [by rewrite Hh|].
  rewrite Hl3. simpl. congruence.
Qed.

Lemma third_attempt_completes_with_two_attempts_witness :
  po_download (jo_pipeline download_fails) = Throw "timeout of 30000ms exceeded"
  ∧ stages_succeed (jo_pipeline succeeds) "s-1" sample_files
  ∧ ∃ s,
      run (production true)
        [QueueProcessingJob sample_jobData "job_1"; Settle 0 download_fails;
         Settle 0 download_fails; Settle 0 succeeds] (boot [] [] true)
      = Some s
      ∧ status_at 0 s = Some completed
      ∧ attempts_at 0 s = Some 2
      ∧ j_maxAttempts <$> heap s !! 0 = Some 3.
Proof.
  split; [reflexivity|]. split; [apply stages_succeed_sample|].
  exact (third_attempt_completes_with_two_attempts (production true) [] []
           true sample_jobData "job_1" _ _ "s-1" download_fails
           download_fails succeeds sample_files eq_refl eq_refl
           (stages_succeed_sample _ _)).
Defined.

(** The claim of C3 fails on the code: after two failed attempts and a
    successful third one the job is completed with [attempts] 2, not 3. *)
Lemma third_attempt_does_not_count :
  ∃ s,
    run (production true)
      [QueueProcessingJob sample_jobData "job_1"; Settle 0 download_fails;
       Settle 0 download_fails; Settle 0 succeeds] (boot [] [] true)
    = Some s
    ∧ status_at 0 s = Some completed
    ∧ j_maxAttempts <$> heap s !! 0 = Some 3
    ∧ attempts_at 0 s = Some 2
    ∧ attempts_at 0 s ≠ Some 3.
Proof.
  eexists. split; [vm_compute; reflexivity|].
  repeat split; try reflexivity. discriminate.
Qed.

(** ** First in, first out, with retries at the tail *)

Lemma next_iteration_takes_head (s : state) (c : nat) (rest : list nat) :
  processingQueue s = c :: rest →
  ∃ s', next_iteration s = (Some (Running c), s')
        ∧ processingQueue s' = rest
        ∧ heap s' = alter (with_status processing) c (heap s)
        ∧ workers s' = workers s.
Proof.
  intros Hq. unfold next_iteration. rewrite Hq.
  destruct (processJob_begin_fields c (set_processingQueue (λ _, rest) s))
    as (Hq' & _ & Hw' & Hh').
  eexists. split; [reflexivity|]. by rewrite Hq', Hw', Hh'.
Qed.

Lemma enqueue_appends (j : job) (s : state) :
  isProcessing s = true →
  processingQueue (enqueue j s).2 = processingQueue s ++ [length (heap s)]
  ∧ heap (enqueue j s).2 = heap s ++ [j]
  ∧ workers (enqueue j s).2 = workers s.
Proof. intros Hp. rewrite enqueue_unfold. simpl. by rewrite Hp. Qed.

(** The settling of a [processJob] that throws while the job may be tried
    again: the job goes to the tail, and the activation takes the head. *)
Lemma settle_retries (env : environment) (w a : nat) (j : job)
  (o : job_outcomes) (msg : string) (s : state) :
  wf s →
  workers s !! w = Some (Running a) →
  heap s !! a = Some j →
  (processJob_rest a j o s).1 = Throw msg →
  (S (j_attempts j) < j_maxAttempts j)%nat →
  ∃ s',
    step env (Settle w o) s = Some s'
    ∧ match processingQueue s with
      | [] =>
          processingQueue s' = []
          ∧ workers s' !! w = Some (Running a)
          ∧ status_at a s' = Some processing
      | c :: rest =>
          processingQueue s' = rest ++ [a]
          ∧ workers s' !! w = Some (Running c)
          ∧ status_at a s' = Some retrying
      end.
Proof.
  intros Hwf Hw Hl Hthrow Hlt. simpl. rewrite Hw, Hl.
  pose proof (processJob_rest_fields a j o s) as Hrest.
  destruct (processJob_rest a j o s) as [[[]|msg'] s1]; [discriminate Hthrow|].
  destruct Hrest as (Hq1 & _ & Hh1 & Hw1 & _).
  eexists. split; [reflexivity|].
  rewrite (on_error_unfold w a msg' j s1) by (by rewrite Hh1). cbv zeta.
  apply Nat.ltb_lt in Hlt. rewrite Hlt.
  pose proof (lookup_lt_Some _ _ _ Hw) as Hlen.
  pose proof (wf_worker_not_queued s w (Running a) Hwf Hw) as Hnq.
  simpl in Hnq. unfold resume.
  destruct (processingQueue s) as [|c rest] eqn:Hq.
  - match goal with
    | |- context [next_iteration ?s0] =>
        destruct (next_iteration_takes_head s0 a [])
          as (s2 & -> & Hq2 & Hh2 & Hw2)
    end.
    { simpl. by rewrite Hq1. }
    unfold status_at. simpl. rewrite Hq2, Hh2, Hw2. simpl. rewrite Hw1.
    split; [done|]. split; [by apply list_lookup_insert_eq|].
    by rewrite !list_lookup_alter_eq, Hh1, Hl.
  - match goal with
    | |- context [next_iteration ?s0] =>
        destruct (next_iteration_takes_head s0 c (rest ++ [a]))
          as (s2 & -> & Hq2 & Hh2 & Hw2)
    end.
    { simpl. by rewrite Hq1. }
    unfold status_at. simpl. rewrite Hq2, Hh2, Hw2. simpl. rewrite Hw1.
    split; [done|]. split; [by apply list_lookup_insert_eq|].
    apply not_elem_of_cons in Hnq as [Hne _].
    rewrite list_lookup_alter_ne by done.
    by rewrite !list_lookup_alter_eq, Hh1, Hl.
Qed.

(** C4. The loop takes the head of the queue and [enqueue] appends at its
    tail; a job whose run throws with attempts left goes to the tail and
    the activation takes the head (the job itself when nothing else waits).
    So a later job overtakes a retrying one: after [job_1] and [job_2] are
    queued and the first run of [job_1] throws, [job_2] is being processed
    while [job_1] waits for its second attempt; and a third job queued
    while [job_1] is retrying is processed before the third attempt of
    [job_1]. *)
Theorem retries_requeue_at_tail (env : environment) (w a : nat) (j : job)
  (o : job_outcomes) (msg : string) (s : state) :
  reachable env s →
  workers s !! w = Some (Running a) →
  heap s !! a = Some j →
  (processJob_rest a j o s).1 = Throw msg →
  (S (j_attempts j) < j_maxAttempts j)%nat →
  (∀ s0 c rest, processingQueue s0 = c :: rest →
     ∃ s1, next_iteration s0 = (Some (Running c), s1)
           ∧ processingQueue s1 = rest)
  ∧ (∀ s0 jb, isProcessing s0 = true →
       processingQueue (enqueue jb s0).2
       = processingQueue s0 ++ [length (heap s0)])
  ∧ (∃ s',
       step env (Settle w o) s = Some s'
       ∧ match processingQueue s with
         | [] =>
             processingQueue s' = []
             ∧ workers s' !! w = Some (Running a)
             ∧ status_at a s' = Some processing
         | c :: rest =>
             processingQueue s' = rest ++ [a]
             ∧ workers s' !! w = Some (Running c)
             ∧ status_at a s' = Some retrying
         end)
  ∧ (∃ s',
       run env [QueueProcessingJob sample_jobData "job_1";
                QueueProcessingJob other_jobData "job_2";
                Settle 0 download_fails] (boot [] [] true) = Some s'
       ∧ status_at 0 s' = Some retrying
       ∧ attempts_at 0 s' = Some 1
       ∧ processingQueue s' = [0]
       ∧ workers s' = [Running 1]
       ∧ status_at 1 s' = Some processing)
  ∧ (∃ s1 s2,
       run env [QueueProcessingJob sample_jobData "job_1";
                QueueProcessingJob other_jobData "job_2";
                Settle 0 download_fails] (boot [] [] true) = Some s1
       ∧ status_at 0 s1 = Some retrying
       ∧ run env [QueueProcessingJob sample_jobData "job_3";
                  Settle 0 succeeds;
                  Settle 0 download_fails] s1 = Some s2
       ∧ status_at 0 s2 = Some retrying
       ∧ attempts_at 0 s2 = Some 2
       ∧ processingQueue s2 = [0]
       ∧ workers s2 = [Running 2]
       ∧ status_at 2 s2 = Some processing).
Proof.
  intros Hreach Hw Hl Hthrow Hlt. split; [|split; [|split; [|split]]].
  - intros s0 c rest Hq.
    destruct (next_iteration_takes_head s0 c rest Hq) as (s1 & H1 & H2 & _).
    by exists s1.
  - intros s0 jb Hp. by apply enqueue_appends.
  - by apply (settle_retries env w a j o msg s (wf_reachable env s Hreach)).
  - eexists. split; [vm_compute; reflexivity|]. by repeat split.
  - eexists _, _. split; [vm_compute; reflexivity|]. split; [reflexivity|].
    split; [vm_compute; reflexivity|]. by repeat split.
Qed.

Lemma retries_requeue_at_tail_witness :
  reachable (production true) two_jobs_queued
  ∧ workers two_jobs_queued !! 0 = Some (Running 0)
  ∧ (processJob_rest 0
       (with_status processing (new_processing_job sample_jobData "job_1"))
       download_fails two_jobs_queued).1
    = Throw "Failed to download audio: timeout of 30000ms exceeded"
  ∧ ∃ s',
      step (production true) (Settle 0 download_fails) two_jobs_queued
      = Some s'
      ∧ match processingQueue two_jobs_queued with
        | [] =>
            processingQueue s' = []
            ∧ workers s' !! 0 = Some (Running 0)
            ∧ status_at 0 s' = Some processing
        | c :: rest =>
            processingQueue s' = rest ++ [0]
            ∧ workers s' !! 0 = Some (Running c)
            ∧ status_at 0 s' = Some retrying
        end.
Proof.
  assert (reachable (production true) two_jobs_queued) as Hreach.
  { exists [], [], true,
      [QueueProcessingJob sample_jobData "job_1";
       QueueProcessingJob other_jobData "job_2"]. vm_compute. reflexivity. }
  assert (workers two_jobs_queued !! 0 = Some (Running 0)) as Hw
    by (vm_compute; reflexivity).
  assert (heap two_jobs_queued !! 0
          = Some (with_status processing
                    (new_processing_job sample_jobData "job_1"))) as Hl
    by (vm_compute; reflexivity).
  assert ((processJob_rest 0
             (with_status processing
                (new_processing_job sample_jobData "job_1"))
             download_fails two_jobs_queued).1
          = Throw "Failed to download audio: timeout of 30000ms exceeded")
    as Hthrow by (vm_compute; reflexivity).
  split; [exact Hreach|]. split; [exact Hw|]. split; [exact Hthrow|].
  exact (proj1 (proj2 (proj2 (retries_requeue_at_tail (production true) 0 0
           (with_status processing (new_processing_job sample_jobData "job_1"))
           download_fails
           "Failed to download audio: timeout of 30000ms exceeded"
           two_jobs_queued Hreach Hw Hl Hthrow
           (le_n_S _ _ (le_n_S _ _ (le_0_n _))))))).
Defined.

(** ** The failure handler *)

Ltac no_sms :=
  repeat first [solve [constructor] | constructor; [simpl; tauto|]].

Lemma mark_session_failed_spec (j : job) (fo : failure_outcomes) (s : state) :
  ∃ s' es,
    mark_session_failed j fo s = (Ok tt, s')
    ∧ trace s' = trace s ++ es
    ∧ io_up s' = io_up s
    ∧ Forall (λ e, ¬ is_sms e) es
    ∧ (j_type j = process_recording → fo_update fo = None →
       sessions s'
       = update_status (session_of_call (j_callSid j) (j_userId j)) "failed"
           (sessions s))
    ∧ (j_type j = process_recording → is_Some (fo_update fo) →
       sessions s' = sessions s
       ∧ Log "error" "Failed to update session status:" ∈ es)
    ∧ (j_type j = regenerate_session → sessions s' = sessions s).
Proof.
  unfold mark_session_failed. munfold.
  destruct (j_type j); [destruct (fo_update fo) as [msg|]|]; simpl.
  - eexists _, [_]. split; [reflexivity|]. split; [reflexivity|].
    split; [reflexivity|].
    split; [no_sms|]. split; [done|]. split; [|done].
    intros _ _. split; [done|]. apply list_elem_of_here.
  - eexists _, []. split; [reflexivity|].
    split; [by rewrite (right_id_L [] (++))|]. split; [reflexivity|].
    split; [no_sms|].
    split; [done|]. split; [|done]. by intros _ [? [=]].
  - eexists _, []. split; [reflexivity|].
    split; [by rewrite (right_id_L [] (++))|]. split; [reflexivity|].
    split; [no_sms|].
    split; [done|]. split; done.
Qed.

Lemma notify_spec userId event jobId sessionId error files (s : state) :
  ∃ s' es,
    notify userId event jobId sessionId error files s = (Ok tt, s')
    ∧ trace s' = trace s ++ es
    ∧ sessions s' = sessions s
    ∧ io_up s' = io_up s
    ∧ Forall (λ e, ¬ is_sms e) es
    ∧ (io_up s = true → present userId = true →
       Emit (room userId) event jobId sessionId error files ∈ es).
Proof.
  unfold notify. munfold. simpl.
  destruct (io_up s) eqn:Hio; destruct (present userId) eqn:Hp; simpl.
  - eexists _, [_]. repeat split; try reflexivity; try done.
    + no_sms.
    + intros _ _. apply list_elem_of_here.
  - eexists _, []. repeat split; try reflexivity; try done.
    by rewrite (right_id_L [] (++)).
  - eexists _, []. repeat split; try reflexivity; try done.
    by rewrite (right_id_L [] (++)).
  - eexists _, []. repeat split; try reflexivity; try done.
    by rewrite (right_id_L [] (++)).
Qed.

Lemma send_apology_spec (env : environment) (j : job) (fo : failure_outcomes)
  (s : state) :
  ∃ s' es,
    send_apology env j fo s = (Ok tt, s')
    ∧ trace s' = trace s ++ es
    ∧ sessions s' = sessions s
    ∧ (∀ phone, j_phoneNumber j = Some phone → present (Some phone) = true →
       sms_configured env = true → fo_twilio fo = None →
       SmsCreate phone apology (bool_decide (fo_create fo = None)) ∈ es)
    ∧ (j_phoneNumber j = None → es = []).
Proof.
  unfold send_apology, sms_configured, sendSMS. munfold.
  destruct (j_phoneNumber j) as [phone|]; simpl.
  - destruct (String.eqb phone "") eqn:Hempty; simpl.
    + eexists _, []. split; [reflexivity|].
      split; [by rewrite (right_id_L [] (++))|]. split; [done|].
      split; [|done]. intros ? [= <-] Hp. unfold present in Hp.
      by rewrite Hempty in Hp.
    + destruct (fo_twilio fo) as [e|]; simpl.
      * eexists _, [_]. split; [reflexivity|]. split; [reflexivity|].
        split; [done|]. split; [|done]. by intros ? _ _ _ [=].
      * destruct (negb (present (twilio_phoneNumber env))
                  || includes "xxx" (default "" (twilio_phoneNumber env)));
          simpl.
        -- eexists _, []. split; [reflexivity|].
           split; [by rewrite (right_id_L [] (++))|]. split; [done|].
           split; [|done]. by intros ? _ _ [=].
        -- destruct (fo_create fo) as [e|]; simpl.
           ++ eexists _, [_; _]. split; [reflexivity|].
              split; [simpl; by rewrite <- (assoc_L (++))|]. split; [done|].
              split; [|done]. intros ? [= <-] _ _ _. apply list_elem_of_here.
           ++ eexists _, [_]. split; [reflexivity|]. split; [reflexivity|].
              split; [done|]. split; [|done].
              intros ? [= <-] _ _ _. apply list_elem_of_here.
  - eexists _, []. split; [reflexivity|].
    split; [by rewrite (right_id_L [] (++))|]. split; [done|]. split; done.
Qed.

(** [handleJobFailure] always returns, whatever its collaborators do. *)
Lemma handleJobFailure_spec (env : environment) (j : job)
  (fo : failure_outcomes) (s : state) :
  ∃ s' es,
    handleJobFailure env j fo s = (Ok tt, s')
    ∧ trace s' = trace s ++ es
    ∧ (j_type j = process_recording → fo_update fo = None →
       sessions s'
       = update_status (session_of_call (j_callSid j) (j_userId j)) "failed"
           (sessions s))
    ∧ (j_type j = process_recording → is_Some (fo_update fo) →
       sessions s' = sessions s
       ∧ Log "error" "Failed to update session status:" ∈ es)
    ∧ (j_type j = regenerate_session → sessions s' = sessions s)
    ∧ (io_up s = true → present (j_userId j) = true →
       Emit (room (j_userId j)) "processing_failed" (Some (j_id j))
         (or_else (j_sessionId j) (j_callSid j)) (j_lastError j) None ∈ es)
    ∧ (∀ phone, j_phoneNumber j = Some phone → present (Some phone) = true →
       sms_configured env = true → fo_twilio fo = None →
       SmsCreate phone apology (bool_decide (fo_create fo = None)) ∈ es)
    ∧ (j_phoneNumber j = None → Forall (λ e, ¬ is_sms e) es).
Proof.
  unfold handleJobFailure.
  unfold mbind at 1, M_bind at 1, bind at 1. unfold log at 1, emit_effect at 1,
    modify at 1.
  unfold mbind at 1, M_bind at 1, bind at 1.
  destruct (mark_session_failed_spec j fo
              (set_trace (λ t, t ++ [Log "error" "Job permanently failed:"]) s))
    as (s1 & es1 & -> & Ht1 & Hio1 & Hn1 & Hok1 & Hko1 & Hre1).
  unfold mbind at 1, M_bind at 1, bind at 1.
  destruct (notify_spec (j_userId j) "processing_failed" (Some (j_id j))
              (or_else (j_sessionId j) (j_callSid j)) (j_lastError j) None s1)
    as (s2 & es2 & -> & Ht2 & Hs2 & Hio2 & Hn2 & Hemit).
  destruct (send_apology_spec env j fo s2)
    as (s3 & es3 & -> & Ht3 & Hs3 & Hsms & Hnone).
  simpl in Hio1.
  exists s3, (Log "error" "Job permanently failed:" :: es1 ++ es2 ++ es3).
  split; [reflexivity|]. split.
  { rewrite Ht3, Ht2, Ht1. simpl. by rewrite <- !(assoc_L (++)). }
  rewrite Hs3, Hs2. split; [exact Hok1|]. split.
  { intros Htype Hfail. destruct (Hko1 Htype Hfail) as (Hs & Hin).
    split; [exact Hs|]. apply list_elem_of_further, elem_of_app. by left. }
  split; [exact Hre1|]. split.
  { intros Hio Hp. apply list_elem_of_further, elem_of_app. right.
    apply elem_of_app. left. apply Hemit; [congruence|exact Hp]. }
  split.
  { intros phone Hphone Hp Hcfg Htw. apply list_elem_of_further.
    apply elem_of_app. right. apply elem_of_app. right. by apply Hsms. }
  intros Hphone. rewrite (Hnone Hphone), (right_id_L [] (++)).
  constructor; [simpl; tauto|]. by apply Forall_app.
Qed.

(** C5 (as the code has it). A worker awaits [handleJobFailure] only for a
    job whose attempts equal [maxAttempts].  The handler never raises: it
    returns whatever the database, the Twilio constructor and the message
    call do, and the loop goes on.  For a recording job it marks failed the
    session rows of the job's call and user (a query that throws is logged
    and swallowed); a regeneration job gets no database update.  It emits
    [processing_failed] with the job's last error to the user's room when
    the socket server is up and the job has a user id.  It attempts the
    apology message when the job has a phone number, SMS sending is
    configured and the Twilio client can be built; a job without a phone
    number, as every regeneration job is created, gets none. *)
Theorem failure_handler_is_best_effort (env : environment) (w a : nat)
  (j : job) (fo : failure_outcomes) (s : state) :
  reachable env s →
  workers s !! w = Some (Failing a) →
  heap s !! a = Some j →
  j_attempts j = j_maxAttempts j
  ∧ j_status j = failed
  ∧ (∀ rg id, j_phoneNumber (new_regeneration_job rg id) = None)
  ∧ ∃ s1 es,
      handleJobFailure env j fo s = (Ok tt, s1)
      ∧ step env (FailureHandled w fo) s = Some (resume w s1)
      ∧ trace s1 = trace s ++ es
      ∧ (j_type j = process_recording → fo_update fo = None →
         sessions s1
         = update_status (session_of_call (j_callSid j) (j_userId j))
             "failed" (sessions s))
      ∧ (j_type j = process_recording → is_Some (fo_update fo) →
         sessions s1 = sessions s
         ∧ Log "error" "Failed to update session status:" ∈ es)
      ∧ (j_type j = regenerate_session → sessions s1 = sessions s)
      ∧ (io_up s = true → present (j_userId j) = true →
         Emit (room (j_userId j)) "processing_failed" (Some (j_id j))
           (or_else (j_sessionId j) (j_callSid j)) (j_lastError j) None ∈ es)
      ∧ (∀ phone, j_phoneNumber j = Some phone →
           present (Some phone) = true →
           sms_configured env = true → fo_twilio fo = None →
           SmsCreate phone apology (bool_decide (fo_create fo = None)) ∈ es)
      ∧ (j_phoneNumber j = None → Forall (λ e, ¬ is_sms e) es).
Proof.
  intros Hreach Hw Hl. pose proof (wf_reachable env s Hreach) as Hwf.
  destruct (wf_failing _ _ _ Hwf a) as (j' & Hl' & Hs).
  { by eapply list_elem_of_lookup_2. }
  rewrite Hl in Hl'. injection Hl' as <-.
  destruct (wf_jobs _ _ _ Hwf a j Hl) as (Hmax & _ & Hiff & _).
  split; [rewrite Hmax; by apply Hiff|]. split; [exact Hs|].
  split; [done|].
  destruct (handleJobFailure_spec env j fo s) as (s1 & es & Hrun & Hrest).
  exists s1, es. split; [exact Hrun|]. split; [|exact Hrest].
  simpl. by rewrite Hw, Hl, Hrun.
Qed.

Lemma failure_handler_is_best_effort_witness :
  reachable (production true) exhausted_recording
  ∧ workers exhausted_recording !! 0 = Some (Failing 0)
  ∧ heap exhausted_recording !! 0 = Some exhausted_job
  ∧ j_attempts exhausted_job = j_maxAttempts exhausted_job
  ∧ j_status exhausted_job = failed.
Proof.
  assert (reachable (production true) exhausted_recording) as Hreach.
  { exists [], [sample_session "s-0" "processing"], true,
      [QueueProcessingJob sample_jobData "job_1"; Settle 0 download_fails;
       Settle 0 download_fails; Settle 0 download_fails].
    vm_compute. reflexivity. }
  assert (workers exhausted_recording !! 0 = Some (Failing 0)) as Hw
    by (vm_compute; reflexivity).
  assert (heap exhausted_recording !! 0 = Some exhausted_job) as Hl
    by (vm_compute; reflexivity).
  split; [exact Hreach|]. split; [exact Hw|]. split; [exact Hl|].
  pose proof (failure_handler_is_best_effort (production true) 0 0
                exhausted_job handler_runs exhausted_recording Hreach Hw Hl)
    as Hthm.
  exact (conj (proj1 Hthm) (proj1 (proj2 Hthm))).
Defined.

(** The claim of C5 fails on the code: a regeneration job uses up its three
    attempts and is handled, yet its session keeps its status and no message
    is attempted. *)
Lemma regeneration_failure_marks_no_session :
  ∃ s,
    run (production true)
      [QueueRegenerationJob sample_regenData "regen_1";
       Settle 0 download_fails; Settle 0 download_fails;
       Settle 0 download_fails; FailureHandled 0 handler_runs]
      (boot [] [sample_session "s-1" "completed"] true)
    = Some s
    ∧ attempts_at 0 s = Some 3
    ∧ j_maxAttempts <$> heap s !! 0 = Some 3
    ∧ status_at 0 s = Some failed
    ∧ j_sessionId <$> heap s !! 0 = Some (Some "s-1")
    ∧ sessions s = [sample_session "s-1" "completed"]
    ∧ Forall (λ e, ¬ is_sms e) (trace s).
Proof.
  eexists. split; [vm_compute; reflexivity|].
  repeat split; try reflexivity. no_sms.
Qed.

(** ** A composer that throws *)

Lemma generateMusic_agents_answer (now_iso : string) (now_ms : Z)
  (musicalAnalysis : json) (t : transcription) (o : agent_outcomes)
  (analysis genre arrangement : json) :
  musicalAnalysis ≠ JNull → analysis ≠ JNull →
  prompts_render t analysis →
  ao_analyst o = Ok analysis →
  ao_specialist o = Ok genre →
  ao_director o = Ok arrangement →
  generateMusic now_iso now_ms musicalAnalysis t o
  = generation_result now_iso now_ms analysis
      (runChordComposer analysis (ao_composer o)) genre arrangement.
Proof.
  intros Hma Ha (Hdur & Hconf & Hgenre) Han Hsp Hdi.
  unfold generateMusic, generateMusic_try, runMusicAnalyst,
    runGenreSpecialist, runArrangementDirector, analyst_prompt, interpolate.
  rewrite Han, Hsp, Hdi, Hdur, Hconf.
  destruct (get_prop_not_null musicalAnalysis "tempo" Hma) as (v & ->).
  unfold mbind, result_bind. cbn beta iota.
  destruct (primaryGenre analysis) as [g|msg] eqn:Hg.
  - rewrite (Hgenre g eq_refl). reflexivity.
  - unfold primaryGenre in Hg.
    destruct (get_prop_not_null analysis "genres" Ha) as (gs & Hgs).
    rewrite Hgs in Hg. discriminate Hg.
Qed.

(** C8 (as the code has it). When the composer throws while the analyst, the
    specialist and the director answer and the prompts built outside a
    [try] can be built ([prompts_render]: the duration and the confidence of
    the transcription and the genre the specialist adapts for convert to
    strings), [generateMusic] returns their answers with the default
    progression C, Am, F, G and its chord notes in place of the composer's,
    and a recording job whose other stages succeed is completed.  The result
    carries no fallback marker: it has no [source] field, its analysis is
    the analyst's answer as it came, and it is the very result of a run
    whose composer answers with the default progression.
    ([source: 'fallback'] is set by [getFallbackMusicData], which runs when
    the body of [generateMusic] itself throws: on a [null] analysis, or on
    a prompt that cannot be built.) *)
Theorem composer_failure_uses_default_progression (env : environment)
  (w a : nat) (j : job) (o : job_outcomes) (sid msg : string)
  (files analysis genre arrangement : json) (t : transcription) (s : state) :
  reachable env s →
  workers s !! w = Some (Running a) →
  heap s !! a = Some j →
  j_type j = process_recording →
  stages_succeed (jo_pipeline o) sid files →
  analyzeMusicalElements (po_analyze (jo_pipeline o)) ≠ JNull →
  ao_analyst (po_agents (jo_pipeline o)) = Ok analysis →
  analysis ≠ JNull →
  prompts_render t analysis →
  ao_composer (po_agents (jo_pipeline o)) = Throw msg →
  ao_specialist (po_agents (jo_pipeline o)) = Ok genre →
  ao_director (po_agents (jo_pipeline o)) = Ok arrangement →
  generated_music (jo_pipeline o) t
  = generation_result (po_now_iso (jo_pipeline o)) (po_now_ms (jo_pipeline o))
      analysis default_progression genre arrangement
  ∧ get_prop default_progression "primaryProgression"
    = Ok (Some (strs ["C"; "Am"; "F"; "G"]))
  ∧ get_prop default_progression "chordNotes"
    = Ok (Some (JObj [("C", strs ["C4"; "E4"; "G4"]);
                      ("Am", strs ["A3"; "C4"; "E4"]);
                      ("F", strs ["F3"; "A3"; "C4"]);
                      ("G", strs ["G3"; "B3"; "D4"])]))
  ∧ get_prop (generated_music (jo_pipeline o) t) "source" = Ok None
  ∧ get_prop (generated_music (jo_pipeline o) t) "analysis" = Ok (Some analysis)
  ∧ get_prop default_progression "source" = Ok None
  ∧ generated_music (jo_pipeline o) t
    = generateMusic (po_now_iso (jo_pipeline o)) (po_now_ms (jo_pipeline o))
        (analyzeMusicalElements (po_analyze (jo_pipeline o))) t
        (with_composer (Ok default_progression) (po_agents (jo_pipeline o)))
  ∧ ∃ s',
      step env (Settle w o) s = Some s'
      ∧ status_at a s' = Some completed
      ∧ attempts_at a s' = Some (j_attempts j).
Proof.
  intros Hreach Hw Hl Htype Hok Hma Han Ha Hpr Hco Hsp Hdi.
  assert (generated_music (jo_pipeline o) t
          = generation_result (po_now_iso (jo_pipeline o))
              (po_now_ms (jo_pipeline o)) analysis default_progression genre
              arrangement) as Hresult.
  { unfold generated_music.
    rewrite (generateMusic_agents_answer _ _ _ t _ analysis genre arrangement
               Hma Ha Hpr Han Hsp Hdi).
    by rewrite Hco. }
  split; [exact Hresult|]. split; [reflexivity|]. split; [reflexivity|].
  rewrite Hresult. split; [reflexivity|]. split; [reflexivity|].
  split; [reflexivity|]. split.
  - symmetry.
    by apply (generateMusic_agents_answer _ _ _ t
                (with_composer (Ok default_progression) _) analysis genre
                arrangement).
  - destruct (settle_completes env w a j o sid files s
                (wf_reachable env s Hreach) Hw Hl Htype Hok)
      as (s' & _ & Hstep & Hst & Hat & _).
    by exists s'.
Qed.

Lemma composer_failure_uses_default_progression_witness :
  reachable (production true) one_job_running
  ∧ stages_succeed (jo_pipeline composer_fails) "s-1" sample_files
  ∧ ao_composer (po_agents (jo_pipeline composer_fails)) = Throw "429 rate limit"
  ∧ get_prop (generated_music (jo_pipeline composer_fails) sample_transcription)
      "source" = Ok None
  ∧ ∃ s',
      step (production true) (Settle 0 composer_fails) one_job_running
      = Some s'
      ∧ status_at 0 s' = Some completed
      ∧ attempts_at 0
          s' = Some (j_attempts
                       (with_status processing
                          (new_processing_job sample_jobData "job_1"))).
Proof.
  assert (reachable (production true) one_job_running) as Hreach
    by apply one_job_running_reachable.
  assert (stages_succeed (jo_pipeline composer_fails) "s-1" sample_files)
    as Hok by apply stages_succeed_sample.
  assert (sample_analysis ≠ JNull) as Hma by discriminate.
  assert (JObj [("tempo", JNum (inject_Z 96)); ("key", JStr "G");
                ("scale", JStr "major")] ≠ JNull) as Ha by discriminate.
  assert (prompts_render sample_transcription
            (JObj [("tempo", JNum (inject_Z 96)); ("key", JStr "G");
                   ("scale", JStr "major")])) as Hpr.
  { split; [reflexivity|]. split; [reflexivity|].
    intros g Hg. vm_compute in Hg. injection Hg as <-. reflexivity. }
  split; [exact Hreach|]. split; [exact Hok|]. split; [reflexivity|].
  pose proof (composer_failure_uses_default_progression (production true) 0 0
                (with_status processing
                   (new_processing_job sample_jobData "job_1"))
                composer_fails "s-1" "429 rate limit" sample_files _ _ _
                sample_transcription one_job_running Hreach eq_refl eq_refl
                eq_refl Hok Hma eq_refl Ha Hpr eq_refl eq_refl eq_refl)
    as Hthm.
  exact (conj (proj1 (proj2 (proj2 (proj2 Hthm))))
              (proj2 (proj2 (proj2 (proj2 (proj2 (proj2 (proj2 Hthm)))))))).
Defined.

(** The claim of C8 fails on the code: the composer throws, the job is
    completed, and the generation result has no [source] field, no [source]
    in its analysis or its chords, and equals the result of a run in which
    the composer answered with the default progression. *)
Lemma composer_fallback_leaves_no_marker :
  let music :=
    generated_music (jo_pipeline composer_fails) sample_transcription in
  ao_composer (po_agents (jo_pipeline composer_fails)) = Throw "429 rate limit"
  ∧ get_prop music "chords" = Ok (Some default_progression)
  ∧ get_prop music "source" = Ok None
  ∧ Forall (λ part, ∃ v, get_prop music part = Ok (Some v)
                         ∧ get_prop v "source" = Ok None)
      ["analysis"; "chords"; "genre"; "arrangement"]
  ∧ music
    = generated_music
        (pipeline (Ok sample_audio) (Ok default_progression) None)
        sample_transcription
  ∧ ∃ s,
      run (production true)
        [QueueProcessingJob sample_jobData "job_1"; Settle 0 composer_fails]
        (boot [] [] true) = Some s
      ∧ status_at 0 s = Some completed.
Proof.
  cbv zeta. split; [reflexivity|]. split; [vm_compute; reflexivity|].
  split; [vm_compute; reflexivity|]. split.
  - repeat (constructor; [eexists; split; vm_compute; reflexivity|]).
    constructor.
  - split; [vm_compute; reflexivity|].
    eexists. split; [vm_compute; reflexivity|]. reflexivity.
Qed.

Lemma attempts_count_failed_runs_witness :
  reachable (production true) one_job_running
  ∧ ∃ s',
      step (production true) (Settle 0 download_fails) one_job_running
      = Some s'
      ∧ ∀ a j', heap s' !! a = Some j' →
          (j_attempts j' ≤ j_maxAttempts j')%nat
          ∧ (j_attempts j' = j_maxAttempts j' →
             j_status j' = failed
             ∧ (a ∉ processingQueue s') ∧ (Running a ∉ workers s')).
Proof.
  assert (reachable (production true) one_job_running) as Hreach
    by apply one_job_running_reachable.
  split; [exact Hreach|].
  destruct (step (production true) (Settle 0 download_fails) one_job_running)
    as [s'|] eqn:Hstep; [|vm_compute in Hstep; discriminate Hstep].
  exists s'. split; [reflexivity|].
  exact (proj1 (proj2 (attempts_count_failed_runs (production true)
                         (Settle 0 download_fails) one_job_running s'
                         Hreach Hstep))).
Defined.

(** ** One job at a time *)

(** C1, on the code. [clearQueue] lowers the flag while a worker is still
    awaiting its job; the next [queueProcessingJob] then starts a second
    worker, and two jobs are ['processing'] at once. *)
Theorem clearQueue_lets_two_jobs_process :
  ∃ s,
    run (production true)
      [QueueProcessingJob sample_jobData "job_1"; ClearQueue;
       QueueProcessingJob other_jobData "job_2"] (boot [] [] true) = Some s
    ∧ status_at 0 s = Some processing
    ∧ status_at 1 s = Some processing
    ∧ length (processing_jobs s) = 2
    ∧ workers s = [Running 0; Running 1].
Proof.
  eexists. split; [vm_compute; reflexivity|]. by repeat split.
Qed.

(** Without [clearQueue] the discipline holds. *)
Lemma serial_resume (w : nat) (s : state) :
  (w < length (workers s))%nat → (length (workers s) ≤ 1)%nat →
  isProcessing s = true → serial (resume w s).
Proof.
  intros Hw Hlen Hp. unfold resume, next_iteration, serial.
  destruct (processingQueue s) as [|c rest]; simpl.
  - destruct (workers s) as [|x [|y ws]]; simpl in *; try lia.
    destruct w; [simpl; split; [lia|done]|lia].
  - destruct (processJob_begin_fields c (set_processingQueue (λ _, rest) s))
      as (_ & Hp' & Hw' & _).
    rewrite Hp', Hw'. simpl. rewrite length_insert, Hp. done.
Qed.

Lemma serial_busy (s : state) (w : nat) (x : worker) :
  serial s → workers s !! w = Some x →
  isProcessing s = true ∧ (length (workers s) ≤ 1)%nat
  ∧ (w < length (workers s))%nat.
Proof.
  intros (Hlen & Hidle) Hw. split; [|split; [exact Hlen|]].
  - destruct (isProcessing s); [done|]. rewrite Hidle in Hw by done.
    by rewrite lookup_nil in Hw.
  - by eapply lookup_lt_Some.
Qed.

Lemma serial_enqueue (j : job) (s : state) : serial s → serial (enqueue j s).2.
Proof.
  intros (Hlen & Hidle). rewrite enqueue_unfold. simpl.
  destruct (isProcessing s) eqn:Hp.
  { unfold serial. simpl. rewrite Hp. split; [exact Hlen|done]. }
  unfold processQueue, next_iteration. simpl. rewrite Hp. simpl.
  destruct (processingQueue s ++ [length (heap s)]) as [|c rest] eqn:Hq.
  { by destruct (processingQueue s). }
  match goal with
  | |- context [processJob_begin c ?s0] =>
      destruct (processJob_begin_fields c s0) as (_ & Hp' & Hw' & _)
  end.
  unfold serial. simpl. rewrite Hp', Hw'. simpl.
  rewrite (Hidle eq_refl). simpl. split; [lia|done].
Qed.

Lemma serial_step (env : environment) (l : label) (s s' : state) :
  l ≠ ClearQueue → serial s → step env l s = Some s' → serial s'.
Proof.
  intros Hl Hserial Hstep.
  destruct l as [jd id|rg id|w o|w fo|]; simpl in Hstep; [| | | |done].
  - injection Hstep as <-. by apply serial_enqueue.
  - injection Hstep as <-. by apply serial_enqueue.
  - destruct (workers s !! w) as [[a|a]|] eqn:Hw; try discriminate.
    destruct (heap s !! a) as [j|] eqn:Hla; try discriminate.
    destruct (serial_busy s w _ Hserial Hw) as (Hp & Hlen & Hlt).
    pose proof (processJob_rest_fields a j o s) as Hrest.
    destruct (processJob_rest a j o s) as [[[]|msg] s1]; injection Hstep as <-.
    + destruct Hrest as (_ & Hp1 & Hw1 & _).
      apply serial_resume; rewrite ?Hw1, ?Hp1; done.
    + destruct Hrest as (_ & Hp1 & Hh1 & Hw1 & _).
      rewrite (on_error_unfold w a msg j s1) by (by rewrite Hh1). cbv zeta.
      destruct (S (j_attempts j) <? j_maxAttempts j)%nat.
      * apply serial_resume; simpl; rewrite ?Hw1, ?Hp1; done.
      * unfold serial. simpl. rewrite length_insert, Hw1, Hp1, Hp. done.
  - destruct (workers s !! w) as [[a|a]|] eqn:Hw; try discriminate.
    destruct (heap s !! a) as [j|] eqn:Hla; try discriminate.
    destruct (serial_busy s w _ Hserial Hw) as (Hp & Hlen & Hlt).
    pose proof (frames_handleJobFailure env j fo s) as (_ & Hp1 & _ & Hw1 & _).
    destruct (handleJobFailure env j fo s) as [[[]|msg] s1];
      injection Hstep as <-; simpl in *.
    + apply serial_resume; rewrite ?Hw1, ?Hp1; done.
    + unfold serial. simpl. rewrite Hw1, Hp1, Hp.
      destruct (workers s) as [|x [|y ws]]; simpl in *; try lia.
      destruct w; [simpl; split; [lia|done]|lia].
Qed.

Lemma filter_none {A} (P : A → Prop) `{∀ x, Decision (P x)} (l : list A) :
  (∀ x, x ∈ l → ¬ P x) → filter P l = [].
Proof.
  induction l as [|x l IH]; intros Hnone; [reflexivity|].
  rewrite filter_cons. destruct (decide (P x)) as [Hx|Hx].
  - exfalso. apply (Hnone x); [apply list_elem_of_here|exact Hx].
  - apply IH. intros y Hy. apply Hnone. by apply list_elem_of_further.
Qed.

Lemma filter_at_most_one {A} (P : A → Prop) `{∀ x, Decision (P x)}
  (l : list A) :
  (∀ i k x y, l !! i = Some x → P x → l !! k = Some y → P y → i = k) →
  (length (filter P l) ≤ 1)%nat.
Proof.
  induction l as [|x l IH]; intros Huniq; [simpl; lia|].
  rewrite filter_cons. destruct (decide (P x)) as [Hx|Hx].
  - rewrite (filter_none P l); [simpl; lia|].
    intros y Hy Hpy. apply list_elem_of_lookup_1 in Hy as (k & Hk).
    by specialize (Huniq 0 (S k) x y eq_refl Hx Hk Hpy).
  - apply IH. intros i k y z Hi Hy Hk Hz.
    by specialize (Huniq (S i) (S k) y z Hi Hy Hk Hz) as [= ->].
Qed.

Lemma serial_one_processing (s : state) :
  wf s → serial s → (length (processing_jobs s) ≤ 1)%nat.
Proof.
  intros Hwf (Hlen & _). unfold processing_jobs.
  apply filter_at_most_one. intros i k x y Hi Hx Hk Hy.
  destruct (wf_jobs _ _ _ Hwf i x Hi) as (_ & _ & _ & Hri).
  destruct (wf_jobs _ _ _ Hwf k y Hk) as (_ & _ & _ & Hrk).
  specialize (Hri Hx). specialize (Hrk Hy).
  destruct (workers s) as [|z [|z' ws]]; simpl in Hlen; try lia.
  - by apply elem_of_nil in Hri.
  - apply list_elem_of_singleton in Hri, Hrk. congruence.
Qed.

(** In every state reached without [clearQueue], at most one job is
    ['processing']. *)
Lemma one_processing_without_clearQueue (env : environment)
  (us : list user_row) (ss : list session_row) (io : bool)
  (ls : list label) (s : state) :
  Forall (λ l, l ≠ ClearQueue) ls →
  run env ls (boot us ss io) = Some s →
  (length (processing_jobs s) ≤ 1)%nat.
Proof.
  intros Hls Hrun.
  assert (serial (boot us ss io)) as Hserial by (split; [simpl; lia|done]).
  assert (wf s) as Hwf.
  { apply (wf_run env ls (boot us ss io)); [apply wfq_nil|exact Hrun]. }
  apply serial_one_processing; [exact Hwf|].
  revert Hserial Hrun. generalize (boot us ss io).
  induction Hls as [|l ls Hl Hls IH]; intros s0 Hserial Hrun; simpl in Hrun.
  - by injection Hrun as <-.
  - destruct (step env l s0) as [s1|] eqn:Hstep; [|discriminate].
    eapply IH; [|exact Hrun]. by eapply serial_step.
Qed.

(** * Further properties of the code *)

(** ** No queued job is left without a worker *)

Lemma resume_fields (w : nat) (s : state) :
  match processingQueue s with
  | [] =>
      processingQueue (resume w s) = []
      ∧ isProcessing (resume w s) = false
      ∧ workers (resume w s) = delete w (workers s)
      ∧ heap (resume w s) = heap s
  | c :: rest =>
      processingQueue (resume w s) = rest
      ∧ isProcessing (resume w s) = isProcessing s
      ∧ workers (resume w s) = <[w := Running c]> (workers s)
      ∧ heap (resume w s) = alter (with_status processing) c (heap s)
  end.
Proof.
  unfold resume, next_iteration.
  destruct (processingQueue s) as [|c rest] eqn:Hq; simpl.
  - by rewrite Hq.
  - destruct (processJob_begin_fields c (set_processingQueue (λ _, rest) s))
      as (Hq' & Hp' & Hw' & Hh').
    by rewrite Hq', Hp', Hw', Hh'.
Qed.

Lemma insert_not_nil {A} (l : list A) (i : nat) (x : A) :
  (i < length l)%nat → <[i:=x]> l ≠ [].
Proof. destruct l; simpl; [lia|]. by destruct i. Qed.

Lemma attended_resume (w : nat) (s : state) :
  (w < length (workers s))%nat → attended (resume w s).
Proof.
  intros Hw. pose proof (resume_fields w s) as Hf. unfold attended.
  destruct (processingQueue s) as [|c rest].
  - destruct Hf as (-> & -> & _). by split.
  - destruct Hf as (_ & _ & -> & _). split; intros _; by apply insert_not_nil.
Qed.

Lemma attended_enqueue (j : job) (s : state) :
  attended s → attended (enqueue j s).2.
Proof.
  intros (Hflag & Hqueue). rewrite enqueue_unfold. simpl.
  destruct (isProcessing s) eqn:Hp.
  - unfold attended. simpl. rewrite Hp. by split; intros _; apply Hflag.
  - unfold processQueue, next_iteration. simpl. rewrite Hp. simpl.
    destruct (processingQueue s ++ [length (heap s)]) as [|c rest] eqn:Hq.
    { by destruct (processingQueue s). }
    match goal with
    | |- context [processJob_begin c ?s0] =>
        destruct (processJob_begin_fields c s0) as (_ & _ & Hw' & _)
    end.
    unfold attended. simpl. rewrite Hw'. simpl.
    split; intros _; by destruct (workers s).
Qed.

Lemma attended_step (env : environment) (l : label) (s s' : state) :
  attended s → step env l s = Some s' → attended s'.
Proof.
  intros Hatt Hstep. destruct l as [jd id|rg id|w o|w fo|]; simpl in Hstep.
  - injection Hstep as <-. by apply attended_enqueue.
  - injection Hstep as <-. by apply attended_enqueue.
  - destruct (workers s !! w) as [[a|a]|] eqn:Hw; try discriminate.
    destruct (heap s !! a) as [j|] eqn:Hl; try discriminate.
    pose proof (lookup_lt_Some _ _ _ Hw) as Hlen.
    pose proof (processJob_rest_fields a j o s) as Hrest.
    destruct (processJob_rest a j o s) as [[[]|msg] s1]; injection Hstep as <-.
    + destruct Hrest as (_ & _ & Hw1 & _). apply attended_resume.
      by rewrite Hw1.
    + destruct Hrest as (_ & _ & Hh1 & Hw1 & _).
      rewrite (on_error_unfold w a msg j s1) by (by rewrite Hh1). cbv zeta.
      destruct (S (j_attempts j) <? j_maxAttempts j)%nat.
      * apply attended_resume. simpl. by rewrite Hw1.
      * unfold attended. simpl. rewrite Hw1.
        split; intros _; by apply insert_not_nil.
  - destruct (workers s !! w) as [[a|a]|] eqn:Hw; try discriminate.
    destruct (heap s !! a) as [j|] eqn:Hl; try discriminate.
    pose proof (lookup_lt_Some _ _ _ Hw) as Hlen.
    pose proof (frames_handleJobFailure env j fo s) as (_ & _ & _ & Hw1 & _).
    destruct (handleJobFailure_spec env j fo s) as (s1 & es & Hrun & _).
    rewrite Hrun in Hstep, Hw1. injection Hstep as <-. simpl in Hw1.
    apply attended_resume. by rewrite Hw1.
  - injection Hstep as <-. by split.
Qed.

Lemma attended_run (env : environment) (ls : list label) (s s' : state) :
  attended s → run env ls s = Some s' → attended s'.
Proof.
  revert s. induction ls as [|l ls IH]; intros s Hatt Hrun; simpl in Hrun.
  - by injection Hrun as <-.
  - destruct (step env l s) as [s1|] eqn:Hstep; [|discriminate].
    eapply IH; [|exact Hrun]. by eapply attended_step.
Qed.

(** X1. In every reachable state, also after [clearQueue], a job that waits
    in the queue has a suspended worker loop that will come back to the
    queue, and so has a raised flag: no queued job is stranded. *)
Theorem queued_jobs_have_a_worker (env : environment) (s : state) :
  reachable env s →
  (processingQueue s ≠ [] → workers s ≠ [])
  ∧ (isProcessing s = true → workers s ≠ []).
Proof.
  intros (us & ss & io & ls & Hrun).
  destruct (attended_run env ls (boot us ss io) s) as (Hflag & Hqueue);
    [by split|exact Hrun|].
  by split.
Qed.

Lemma queued_jobs_have_a_worker_witness :
  reachable (production true) two_jobs_queued
  ∧ processingQueue two_jobs_queued ≠ []
  ∧ workers two_jobs_queued ≠ [].
Proof.
  assert (reachable (production true) two_jobs_queued) as Hreach.
  { exists [], [], true,
      [QueueProcessingJob sample_jobData "job_1";
       QueueProcessingJob other_jobData "job_2"]. vm_compute. reflexivity. }
  assert (processingQueue two_jobs_queued ≠ []) as Hq
    by (vm_compute; discriminate).
  split; [exact Hreach|]. split; [exact Hq|].
  exact (proj1 (queued_jobs_have_a_worker (production true) two_jobs_queued
                  Hreach) Hq).
Defined.

(** ** The queue drains *)

Lemma weight_alter_ne (f : job → job) (a b : nat) (h : list job) :
  b ≠ a → weight (alter f a h) b = weight h b.
Proof. intros Hne. unfold weight. by rewrite list_lookup_alter_ne. Qed.

Lemma weight_alter_status (st : JobStatus) (a b : nat) (h : list job) :
  weight (alter (with_status st) a h) b = weight h b.
Proof.
  destruct (decide (b = a)) as [->|Hne]; [|by apply weight_alter_ne].
  unfold weight. rewrite list_lookup_alter_eq. by destruct (h !! a).
Qed.

Lemma sum_list_with_ext_in {A} (f g : A → nat) (l : list A) :
  (∀ x, x ∈ l → f x = g x) → sum_list_with f l = sum_list_with g l.
Proof.
  induction l as [|x l IH]; intros Hext; simpl; [done|].
  rewrite (Hext x) by left. rewrite IH; [done|].
  intros y Hy. apply Hext. by right.
Qed.

(** Rewriting the job at [a] leaves the sums over the references other
    than [a] as they were. *)
Lemma sums_frame (h h' : list job) (a : nat) (q : list nat)
  (ws : list worker) :
  (∀ b, b ≠ a → weight h' b = weight h b) →
  a ∉ q ++ (worker_job <$> ws) →
  sum_list_with (weight h') q + sum_list_with (worker_weight h') ws
  = sum_list_with (weight h) q + sum_list_with (worker_weight h) ws.
Proof.
  intros Hother Hfresh. apply not_elem_of_app in Hfresh as [Hq Hws].
  f_equal; apply sum_list_with_ext_in.
  - intros b Hb. apply Hother. by intros ->.
  - intros [b|b] Hb; simpl; [|done]. apply Hother. intros ->.
    apply Hws. by apply (list_elem_of_fmap_2 worker_job _ (Running a)).
Qed.

Lemma sums_status (h : list job) (st : JobStatus) (a : nat) (q : list nat)
  (ws : list worker) :
  sum_list_with (weight (alter (with_status st) a h)) q
  + sum_list_with (worker_weight (alter (with_status st) a h)) ws
  = sum_list_with (weight h) q + sum_list_with (worker_weight h) ws.
Proof.
  f_equal; apply sum_list_with_ext_in.
  - intros b _. apply weight_alter_status.
  - intros [b|b] _; simpl; [apply weight_alter_status|done].
Qed.

Lemma pending_split (w : nat) (x : worker) (s : state) :
  workers s !! w = Some x →
  pending s = pending_without w s + worker_weight (heap s) x.
Proof.
  intros Hw. unfold pending, pending_without.
  rewrite (delete_Permutation (workers s) w x Hw) at 1. simpl. lia.
Qed.

Lemma pending_resume (w : nat) (s : state) :
  (w < length (workers s))%nat → pending (resume w s) = pending_without w s.
Proof.
  intros Hw. pose proof (resume_fields w s) as Hf.
  unfold pending, pending_without.
  destruct (processingQueue s) as [|c rest].
  - destruct Hf as (-> & _ & -> & ->). done.
  - destruct Hf as (-> & _ & -> & ->).
    rewrite (insert_delete_perm (workers s) w (Running c) Hw). simpl.
    rewrite weight_alter_status.
    pose proof (sums_status (heap s) processing c rest (delete w (workers s))).
    lia.
Qed.

Lemma wf_settling_unshared (s : state) (w : nat) (x : worker) :
  wf s → workers s !! w = Some x →
  worker_job x ∉ processingQueue s ++ (worker_job <$> delete w (workers s)).
Proof.
  intros Hwf Hw. apply (wfq_worker_unshared _ _ (heap s)).
  eapply wfq_perm; [exact Hwf|]. symmetry. by apply delete_Permutation.
Qed.

Lemma pending_step (env : environment) (l : label) (s s' : state) :
  wf s → worker_turn l → step env l s = Some s' →
  (pending s' < pending s)%nat.
Proof.
  intros Hwf Hturn Hstep.
  destruct l as [jd id|rg id|w o|w fo|]; simpl in Hturn, Hstep; try done.
  - destruct (workers s !! w) as [[a|a]|] eqn:Hw; try discriminate.
    destruct (heap s !! a) as [j|] eqn:Hl; try discriminate.
    pose proof (lookup_lt_Some _ _ _ Hw) as Hlen.
    destruct (wf_running _ _ _ Hwf a) as (j' & Hl' & Hst);
      [by eapply list_elem_of_lookup_2|].
    assert (j' = j) as -> by congruence.
    destruct (wfq_running_attempts _ _ _ a j Hwf Hl Hst) as (Hmax & Hatt).
    pose proof (wf_settling_unshared s w _ Hwf Hw) as Hfresh.
    simpl in Hfresh.
    assert (weight (heap s) a = 2 * (3 - j_attempts j)) as Hweight
      by (unfold weight; by rewrite Hl, Hmax).
    rewrite (pending_split w _ s Hw). simpl. rewrite Hweight.
    pose proof (processJob_rest_fields a j o s) as Hrest.
    destruct (processJob_rest a j o s) as [[[]|msg] s1]; injection Hstep as <-.
    + destruct Hrest as (Hq1 & _ & Hw1 & Hh1).
      rewrite pending_resume by (by rewrite Hw1).
      unfold pending_without. rewrite Hq1, Hw1, Hh1, sums_status. lia.
    + destruct Hrest as (Hq1 & _ & Hh1 & Hw1 & _).
      rewrite (on_error_unfold w a msg j s1) by (by rewrite Hh1). cbv zeta.
      rewrite Hmax.
      assert (∀ st b, b ≠ a →
                weight (alter (with_status st) a
                          (alter (record_failure msg) a (heap s))) b
                = weight (heap s) b) as Hother.
      { intros st b Hne. by rewrite weight_alter_status, weight_alter_ne. }
      assert (∀ b, b ≠ a →
                weight (alter (record_failure msg) a (heap s)) b
                = weight (heap s) b) as Hother'.
      { intros b Hne. by rewrite weight_alter_ne. }
      destruct (S (j_attempts j) <? 3)%nat eqn:Hretry.
      * rewrite pending_resume by (simpl; by rewrite Hw1).
        unfold pending_without. simpl. rewrite Hq1, Hw1, Hh1.
        rewrite sum_list_with_app. simpl.
        pose proof (sums_frame (heap s) _ a (processingQueue s)
                      (delete w (workers s)) (Hother retrying) Hfresh).
        rewrite weight_alter_status.
        assert (weight (alter (record_failure msg) a (heap s)) a
                = 2 * (3 - S (j_attempts j))) as ->
          by (unfold weight; rewrite list_lookup_alter_eq, Hl; simpl;
              by rewrite Hmax).
        apply Nat.ltb_lt in Hretry. lia.
      * unfold pending. simpl. rewrite Hq1, Hw1, Hh1.
        rewrite (insert_delete_perm (workers s) w (Failing a) Hlen). simpl.
        pose proof (sums_frame (heap s) _ a (processingQueue s)
                      (delete w (workers s)) Hother' Hfresh).
        unfold pending_without. lia.
  - destruct (workers s !! w) as [[a|a]|] eqn:Hw; try discriminate.
    destruct (heap s !! a) as [j|] eqn:Hl; try discriminate.
    pose proof (lookup_lt_Some _ _ _ Hw) as Hlen.
    pose proof (frames_handleJobFailure env j fo s) as (Hq1 & _ & Hh1 & Hw1 & _).
    destruct (handleJobFailure_spec env j fo s) as (s1 & es & Hrun & _).
    rewrite Hrun in Hstep, Hq1, Hh1, Hw1. injection Hstep as <-.
    simpl in Hq1, Hh1, Hw1.
    rewrite pending_resume by (by rewrite Hw1).
    rewrite (pending_split w _ s Hw). simpl.
    unfold pending_without. rewrite Hq1, Hh1, Hw1. lia.
Qed.

Lemma weight_bound (s : state) (a : nat) : wf s → (weight (heap s) a ≤ 6)%nat.
Proof.
  intros Hwf. unfold weight. destruct (heap s !! a) as [j|] eqn:Hl; [|lia].
  destruct (wf_jobs _ _ _ Hwf a j Hl) as (-> & _). lia.
Qed.

Lemma pending_bound (s : state) :
  wf s →
  (pending s ≤ 6 * (length (processingQueue s) + length (workers s)))%nat.
Proof.
  intros Hwf. unfold pending.
  assert (∀ q, sum_list_with (weight (heap s)) q ≤ 6 * length q)%nat as Hq.
  { induction q as [|a q IH]; simpl; [lia|].
    pose proof (weight_bound s a Hwf). lia. }
  assert (∀ ws, sum_list_with (worker_weight (heap s)) ws ≤ 6 * length ws)%nat
    as Hws.
  { induction ws as [|[a|a] ws IH]; simpl; [lia| |lia].
    pose proof (weight_bound s a Hwf). lia. }
  specialize (Hq (processingQueue s)). specialize (Hws (workers s)). lia.
Qed.

(** X2. The queue drains: from a reachable state, every run of worker turns
    (settlings of an awaited [processJob] or [handleJobFailure], no new job
    queued in between) is at most as long as [pending] says, and that is at
    most six turns for each queued or running job. *)
Theorem worker_turns_are_bounded (env : environment) (s s' : state)
  (ls : list label) :
  reachable env s →
  Forall worker_turn ls →
  run env ls s = Some s' →
  (length ls + pending s' ≤ pending s)%nat
  ∧ (pending s ≤ 6 * (length (processingQueue s) + length (workers s)))%nat.
Proof.
  intros Hreach Hturns Hrun. apply wf_reachable in Hreach.
  split; [|by apply pending_bound].
  revert s Hreach Hrun. induction Hturns as [|l ls Hl _ IH];
    intros s Hwf Hrun; simpl in Hrun.
  - injection Hrun as <-. simpl. lia.
  - destruct (step env l s) as [s1|] eqn:Hstep; [|discriminate].
    pose proof (pending_step env l s s1 Hwf Hl Hstep).
    specialize (IH s1 (wf_step env l s s1 Hwf Hstep) Hrun). simpl. lia.
Qed.

Lemma worker_turns_are_bounded_witness :
  ∃ s',
    run (production true) [Settle 0 download_fails; Settle 0 succeeds]
      two_jobs_queued = Some s'
    ∧ (2 + pending s' ≤ pending two_jobs_queued)%nat
    ∧ (pending two_jobs_queued ≤ 6 * (1 + 1))%nat.
Proof.
  assert (reachable (production true) two_jobs_queued) as Hreach.
  { exists [], [], true,
      [QueueProcessingJob sample_jobData "job_1";
       QueueProcessingJob other_jobData "job_2"]. vm_compute. reflexivity. }
  assert (Forall worker_turn [Settle 0 download_fails; Settle 0 succeeds])
    as Hturns by (repeat constructor).
  eexists. split; [vm_compute; reflexivity|].
  refine (worker_turns_are_bounded (production true) two_jobs_queued _ _
            Hreach Hturns _).
  vm_compute. reflexivity.
Defined.

(** ** The life cycle of a job *)

Lemma job_step_refl (x : option job) : job_step x x.
Proof. destruct x; simpl; [constructor|done]. Qed.

Lemma job_step_take (before : option job) (j1 : job) :
  job_step before (Some j1) →
  j_status j1 = queued ∨ j_status j1 = retrying →
  job_step before (Some (with_status processing j1)).
Proof.
  intros Hstep Hst. destruct before as [j|]; simpl in *.
  - inversion Hstep; subst; simpl in Hst;
      try (destruct Hst; discriminate).
    + by constructor.
    + by constructor.
  - destruct Hstep as (Hatt & Hmax & _). repeat split; [done..|by right].
Qed.

Lemma resume_lookup (w : nat) (s : state) (a : nat) :
  heap (resume w s) !! a
  = match processingQueue s with
    | c :: _ =>
        if decide (a = c) then with_status processing <$> heap s !! a
        else heap s !! a
    | [] => heap s !! a
    end.
Proof.
  pose proof (resume_fields w s) as Hf.
  destruct (processingQueue s) as [|c rest].
  - by destruct Hf as (_ & _ & _ & ->).
  - destruct Hf as (_ & _ & _ & ->). destruct (decide (a = c)) as [->|Hne].
    + by rewrite list_lookup_alter_eq.
    + by rewrite list_lookup_alter_ne.
Qed.

Lemma processQueue_lookup (s : state) (a : nat) :
  isProcessing s = false →
  heap (processQueue s) !! a
  = match processingQueue s with
    | c :: _ =>
        if decide (a = c) then with_status processing <$> heap s !! a
        else heap s !! a
    | [] => heap s !! a
    end.
Proof.
  intros Hp. unfold processQueue, next_iteration. rewrite Hp. simpl.
  destruct (processingQueue s) as [|c rest]; [done|]. simpl.
  match goal with
  | |- context [processJob_begin c ?s0] =>
      destruct (processJob_begin_fields c s0) as (_ & _ & _ & Hh')
  end.
  rewrite Hh'. simpl. destruct (decide (a = c)) as [->|Hne].
  - by rewrite list_lookup_alter_eq.
  - by rewrite list_lookup_alter_ne.
Qed.

(** Shifting the head of a queue of waiting jobs keeps to the life
    cycle. *)
Lemma job_step_shift (q : list nat) (h : list job) (before : option job)
  (a : nat) :
  (∀ c, c ∈ q →
     ∃ j, h !! c = Some j ∧ (j_status j = queued ∨ j_status j = retrying)) →
  job_step before (h !! a) →
  job_step before
    match q with
    | c :: _ => if decide (a = c) then with_status processing <$> h !! a
                else h !! a
    | [] => h !! a
    end.
Proof.
  intros Hq Hstep. destruct q as [|c rest]; [done|].
  destruct (decide (a = c)) as [->|Hne]; [|done].
  destruct (Hq c) as (j & Hl & Hst); [by left|].
  rewrite Hl in *. simpl. by apply job_step_take.
Qed.

Lemma job_step_enqueue (j : job) (s : state) (a : nat) :
  j_status j = queued → j_attempts j = 0 → j_maxAttempts j = 3 →
  wf s → job_step (heap s !! a) (heap (enqueue j s).2 !! a).
Proof.
  intros Hst Hat Hmax Hwf. rewrite enqueue_unfold. simpl.
  assert (job_step (heap s !! a) ((heap s ++ [j]) !! a)) as Hpushed.
  { destruct (heap s !! a) as [ja|] eqn:Hl.
    - rewrite (lookup_app_l_Some _ _ _ _ Hl). constructor.
    - apply lookup_ge_None in Hl.
      destruct (decide (a = length (heap s))) as [->|Hne].
      + rewrite list_lookup_middle by done. simpl. by repeat split; [..|left].
      + rewrite lookup_ge_None_2 by (rewrite length_app; simpl; lia). done. }
  destruct (isProcessing s) eqn:Hp; [exact Hpushed|].
  rewrite processQueue_lookup by done. simpl.
  apply job_step_shift; [|exact Hpushed].
  intros c [Hc|Hc]%elem_of_app.
  - destruct (wf_queued _ _ _ Hwf c Hc) as (jc & Hl & Hs).
    exists jc. split; [|done]. by apply lookup_app_l_Some.
  - apply list_elem_of_singleton in Hc as ->. exists j.
    split; [by apply list_lookup_middle|by left].
Qed.

Lemma job_step_step (env : environment) (l : label) (s s' : state)
  (a : nat) :
  wf s → step env l s = Some s' → job_step (heap s !! a) (heap s' !! a).
Proof.
  intros Hwf Hstep. destruct l as [jd id|rg id|w o|w fo|]; simpl in Hstep.
  - injection Hstep as <-. by apply job_step_enqueue.
  - injection Hstep as <-. by apply job_step_enqueue.
  - destruct (workers s !! w) as [[a0|a0]|] eqn:Hw; try discriminate.
    destruct (heap s !! a0) as [j|] eqn:Hl; try discriminate.
    destruct (wf_running _ _ _ Hwf a0) as (j' & Hl' & Hst);
      [by eapply list_elem_of_lookup_2|].
    assert (j' = j) as -> by congruence.
    destruct (wfq_running_attempts _ _ _ a0 j Hwf Hl Hst) as (Hmax & Hatt).
    pose proof (wf_worker_not_queued s w _ Hwf Hw) as Hnq. simpl in Hnq.
    pose proof (processJob_rest_fields a0 j o s) as Hrest.
    destruct (processJob_rest a0 j o s) as [[[]|msg] s1]; injection Hstep as <-.
    + destruct Hrest as (Hq1 & _ & _ & Hh1).
      rewrite resume_lookup, Hq1, Hh1. apply job_step_shift.
      * intros c Hc. destruct (wf_queued _ _ _ Hwf c Hc) as (jc & Hlc & Hs).
        exists jc. split; [|done]. rewrite list_lookup_alter_ne; [done|].
        by intros ->.
      * destruct (decide (a = a0)) as [->|Hne].
        -- rewrite list_lookup_alter_eq, Hl. simpl. by constructor.
        -- rewrite list_lookup_alter_ne by done. apply job_step_refl.
    + destruct Hrest as (Hq1 & _ & Hh1 & _).
      rewrite (on_error_unfold w a0 msg j s1) by (by rewrite Hh1). cbv zeta.
      rewrite Hmax.
      destruct (S (j_attempts j) <? 3)%nat eqn:Hretry.
      * apply Nat.ltb_lt in Hretry.
        rewrite resume_lookup. simpl. rewrite Hq1, Hh1.
        apply job_step_shift.
        -- intros c [Hc|Hc]%elem_of_app.
           ++ destruct (wf_queued _ _ _ Hwf c Hc) as (jc & Hlc & Hs).
              exists jc. split; [|done].
              rewrite !list_lookup_alter_ne; [done|by intros ->..].
           ++ apply list_elem_of_singleton in Hc as ->.
              rewrite !list_lookup_alter_eq, Hl. simpl.
              eexists. split; [done|by right].
        -- destruct (decide (a = a0)) as [->|Hne].
           ++ rewrite !list_lookup_alter_eq, Hl. simpl.
              constructor; [done|by rewrite Hmax].
           ++ rewrite !list_lookup_alter_ne by done. apply job_step_refl.
      * apply Nat.ltb_ge in Hretry. simpl. rewrite Hh1.
        destruct (decide (a = a0)) as [->|Hne].
        -- rewrite list_lookup_alter_eq, Hl. simpl.
           constructor; [done|lia].
        -- rewrite list_lookup_alter_ne by done. apply job_step_refl.
  - destruct (workers s !! w) as [[a0|a0]|] eqn:Hw; try discriminate.
    destruct (heap s !! a0) as [j|] eqn:Hl; try discriminate.
    pose proof (frames_handleJobFailure env j fo s) as (Hq1 & _ & Hh1 & _).
    destruct (handleJobFailure_spec env j fo s) as (s1 & es & Hrun & _).
    rewrite Hrun in Hstep, Hq1, Hh1. injection Hstep as <-.
    simpl in Hq1, Hh1. rewrite resume_lookup, Hq1, Hh1.
    apply job_step_shift; [|apply job_step_refl].
    intros c Hc. exact (wf_queued _ _ _ Hwf c Hc).
  - injection Hstep as <-. apply job_step_refl.
Qed.

(** X3. The life cycle of a job: in a reachable state, one turn of the
    event loop (a call of [queueProcessingJob], [queueRegenerationJob] or
    [clearQueue], or the settling of an awaited [processJob] or
    [handleJobFailure]) keeps every job object and rewrites it only from
    waiting to ['processing'], from ['processing'] to ['completed'], to
    ['retrying'] with one more attempt while attempts are left (and on to
    ['processing'] when it is shifted at once), or to ['failed'] with the
    last attempt. *)
Theorem jobs_follow_the_life_cycle (env : environment) (l : label)
  (s s' : state) (a : nat) (j : job) :
  reachable env s →
  step env l s = Some s' →
  heap s !! a = Some j →
  ∃ j', heap s' !! a = Some j' ∧ lifecycle j j'.
Proof.
  intros Hreach Hstep Hl. apply wf_reachable in Hreach.
  pose proof (job_step_step env l s s' a Hreach Hstep) as Hjs.
  rewrite Hl in Hjs. destruct (heap s' !! a) as [j'|]; [|done].
  by exists j'.
Qed.

Lemma jobs_follow_the_life_cycle_witness :
  ∃ s' j',
    step (production true) (Settle 0 download_fails) two_jobs_queued = Some s'
    ∧ heap s' !! 1 = Some j'
    ∧ lifecycle (with_status queued (new_processing_job other_jobData "job_2"))
        j'.
Proof.
  assert (reachable (production true) two_jobs_queued) as Hreach.
  { exists [], [], true,
      [QueueProcessingJob sample_jobData "job_1";
       QueueProcessingJob other_jobData "job_2"]. vm_compute. reflexivity. }
  eexists. 
  assert (heap two_jobs_queued !! 1
          = Some (with_status queued
                    (new_processing_job other_jobData "job_2"))) as Hl
    by (vm_compute; reflexivity).
  destruct (jobs_follow_the_life_cycle (production true)
              (Settle 0 download_fails) two_jobs_queued _ 1 _ Hreach
              ltac:(vm_compute; reflexivity) Hl) as (j' & Hl' & Hlc).
  exists j'. split; [vm_compute; reflexivity|]. by split.
Defined.

Lemma lifecycle_terminal (j j' : job) :
  lifecycle j j' → terminal (j_status j) → j' = j.
Proof.
  intros Hlc [Hst|Hst]; inversion Hlc; subst; try done;
    try congruence; match goal with H : _ ∨ _ |- _ => destruct H end;
    congruence.
Qed.

(** X4. A job that is ['completed'] or ['failed'] is never rewritten again,
    whatever is queued, settled or cleared afterwards: it is not retried and
    its attempts and last error stay. *)
Theorem finished_jobs_are_frozen (env : environment) (ls : list label)
  (s s' : state) (a : nat) (j : job) :
  reachable env s →
  heap s !! a = Some j →
  terminal (j_status j) →
  run env ls s = Some s' →
  heap s' !! a = Some j.
Proof.
  intros Hreach Hl Hterm Hrun. apply wf_reachable in Hreach.
  revert s Hreach Hl Hrun. induction ls as [|l ls IH];
    intros s Hwf Hl Hrun; simpl in Hrun.
  - by injection Hrun as <-.
  - destruct (step env l s) as [s1|] eqn:Hstep; [|discriminate].
    apply (IH s1); [by eapply wf_step| |exact Hrun].
    pose proof (job_step_step env l s s1 a Hwf Hstep) as Hjs.
    rewrite Hl in Hjs. destruct (heap s1 !! a) as [j'|]; [|done].
    simpl in Hjs. by rewrite (lifecycle_terminal j j' Hjs Hterm).
Qed.

Lemma finished_jobs_are_frozen_witness :
  ∃ s',
    run (production true)
      [FailureHandled 0 handler_runs;
       QueueProcessingJob other_jobData "job_2"; ClearQueue]
      exhausted_recording = Some s'
    ∧ heap s' !! 0 = Some exhausted_job.
Proof.
  assert (reachable (production true) exhausted_recording) as Hreach.
  { exists [], [sample_session "s-0" "processing"], true,
      [QueueProcessingJob sample_jobData "job_1"; Settle 0 download_fails;
       Settle 0 download_fails; Settle 0 download_fails].
    vm_compute. reflexivity. }
  assert (heap exhausted_recording !! 0 = Some exhausted_job) as Hl
    by (vm_compute; reflexivity).
  assert (terminal (j_status exhausted_job)) as Hterm
    by (right; vm_compute; reflexivity).
  eexists. split; [vm_compute; reflexivity|].
  refine (finished_jobs_are_frozen (production true)
            [FailureHandled 0 handler_runs;
             QueueProcessingJob other_jobData "job_2"; ClearQueue]
            exhausted_recording _ 0 exhausted_job Hreach Hl Hterm _).
  vm_compute. reflexivity.
Defined.

(** ** What [getQueueStatus] reports *)

Lemma graded_step (env : environment) (l : label) (s s' : state) :
  wf s → graded (heap s) → step env l s = Some s' → graded (heap s').
Proof.
  intros Hwf Hgr Hstep a j' Hl'.
  pose proof (job_step_step env l s s' a Hwf Hstep) as Hjs.
  rewrite Hl' in Hjs. destruct (heap s !! a) as [j|] eqn:Hl; simpl in Hjs.
  - specialize (Hgr a j Hl).
    inversion Hjs; subst; simpl; try done; split; intros; try done; lia.
  - destruct Hjs as (-> & _ & [->| ->]); split; intros; done.
Qed.

Lemma graded_reachable (env : environment) (s : state) :
  reachable env s → graded (heap s).
Proof.
  intros (us & ss & io & ls & Hrun).
  assert (wf (boot us ss io)) as Hwf by apply wfq_nil.
  assert (graded (heap (boot us ss io))) as Hgr by (intros a j Hl; done).
  revert Hwf Hgr Hrun. generalize (boot us ss io).
  induction ls as [|l ls IH]; intros s0 Hwf Hgr Hrun; simpl in Hrun.
  - by injection Hrun as <-.
  - destruct (step env l s0) as [s1|] eqn:Hstep; [|discriminate].
    apply (IH s1); [by eapply wf_step|by eapply graded_step|exact Hrun].
Qed.

Lemma omap_length_total {A B} (f : A → option B) (l : list A) :
  (∀ x, x ∈ l → is_Some (f x)) → length (omap f l) = length l.
Proof.
  induction l as [|x l IH]; intros Htotal; simpl; [done|].
  destruct (Htotal x) as [y Hy]; [by left|]. rewrite Hy. simpl.
  f_equal. apply IH. intros z Hz. apply Htotal. by right.
Qed.

Lemma omap_Forall {A B} (f : A → option B) (P : B → Prop) (l : list A) :
  (∀ x y, x ∈ l → f x = Some y → P y) → Forall P (omap f l).
Proof.
  induction l as [|x l IH]; intros HP; simpl; [constructor|].
  destruct (f x) as [y|] eqn:Hy.
  - constructor; [by apply (HP x); [left|]|].
    apply IH. intros z y' Hz. apply HP. by right.
  - apply IH. intros z y' Hz. apply HP. by right.
Qed.

(** X5. [getQueueStatus] in a reachable state: it lists one entry for each
    queued reference, and every entry is either ['queued'] with no attempt
    or ['retrying'] with one or two; a job that is processing, completed or
    failed is never listed. *)
Theorem getQueueStatus_lists_waiting_jobs (env : environment) (s : state) :
  reachable env s →
  length (qs_jobs (getQueueStatus s)) = qs_queueLength (getQueueStatus s)
  ∧ Forall waiting (qs_jobs (getQueueStatus s)).
Proof.
  intros Hreach. pose proof (graded_reachable env s Hreach) as Hgr.
  apply wf_reachable in Hreach. simpl. split.
  - apply omap_length_total. intros a Ha.
    destruct (wf_queued _ _ _ Hreach a Ha) as (j & -> & _). by eexists.
  - apply omap_Forall. intros a e Ha He.
    destruct (wf_queued _ _ _ Hreach a Ha) as (j & Hl & Hst).
    rewrite Hl in He. injection He as <-.
    destruct (Hgr a j Hl) as (Hqueued & Hretrying).
    destruct (wf_jobs _ _ _ Hreach a j Hl) as (_ & Hle & Hiff & _).
    unfold waiting. simpl. destruct Hst as [Hst|Hst]; [left|right].
    + split; [done|by apply Hqueued].
    + split; [done|]. split; [by apply Hretrying|].
      destruct (decide (j_attempts j = 3)) as [H3|H3]; [|lia].
      apply Hiff in H3. congruence.
Qed.

Lemma getQueueStatus_lists_waiting_jobs_witness :
  length (qs_jobs (getQueueStatus two_jobs_queued)) = 1
  ∧ Forall waiting (qs_jobs (getQueueStatus two_jobs_queued)).
Proof.
  assert (reachable (production true) two_jobs_queued) as Hreach.
  { exists [], [], true,
      [QueueProcessingJob sample_jobData "job_1";
       QueueProcessingJob other_jobData "job_2"]. vm_compute. reflexivity. }
  exact (getQueueStatus_lists_waiting_jobs (production true) two_jobs_queued
           Hreach).
Defined.

(** ** An idle server has settled every job *)

Lemma processQueue_fields (s : state) :
  isProcessing s = false →
  match processingQueue s with
  | [] => processQueue s = s
  | c :: rest =>
      processingQueue (processQueue s) = rest
      ∧ workers (processQueue s) = workers s ++ [Running c]
      ∧ heap (processQueue s) = alter (with_status processing) c (heap s)
  end.
Proof.
  intros Hp. unfold processQueue, next_iteration. rewrite Hp. simpl.
  destruct (processingQueue s) as [|c rest]; [done|]. simpl.
  match goal with
  | |- context [processJob_begin c ?s0] =>
      destruct (processJob_begin_fields c s0) as (Hq' & _ & Hw' & Hh')
  end.
  by rewrite Hq', Hw', Hh'.
Qed.

Lemma refs_without (q : list nat) (ws : list worker) (w : nat) (x : worker)
  (a : nat) :
  ws !! w = Some x → a ≠ worker_job x →
  a ∈ q ++ (worker_job <$> ws) → a ∈ q ++ (worker_job <$> delete w ws).
Proof.
  intros Hw Hne. rewrite (delete_Permutation ws w x Hw) at 1.
  rewrite fmap_cons, !elem_of_app, elem_of_cons. tauto.
Qed.

Lemma refs_with (q : list nat) (ws : list worker) (w : nat) (x : worker)
  (a : nat) :
  (w < length ws)%nat →
  a = worker_job x ∨ a ∈ q ++ (worker_job <$> delete w ws) →
  a ∈ q ++ (worker_job <$> <[w := x]> ws).
Proof.
  intros Hw. rewrite (insert_delete_perm ws w x Hw).
  rewrite fmap_cons, !elem_of_app, elem_of_cons. tauto.
Qed.

Lemma accounted_resume (w : nat) (s : state) :
  (w < length (workers s))%nat →
  accounted (processingQueue s) (delete w (workers s)) (heap s) →
  accounted (processingQueue (resume w s)) (workers (resume w s))
    (heap (resume w s)).
Proof.
  intros Hw Hpre a j' Hl'. rewrite resume_lookup in Hl'.
  pose proof (resume_fields w s) as Hf.
  destruct (processingQueue s) as [|c rest].
  - destruct Hf as (-> & _ & -> & _). by apply Hpre.
  - destruct Hf as (-> & _ & -> & _).
    destruct (decide (a = c)) as [->|Hne].
    + right. apply refs_with; [done|]. by left.
    + destruct (Hpre a j' Hl') as [Hterm|Hin]; [by left|right].
      apply refs_with; [done|]. right.
      rewrite elem_of_app, elem_of_cons in Hin. rewrite elem_of_app. tauto.
Qed.

Lemma accounted_enqueue (j : job) (s : state) :
  accounted (processingQueue s) (workers s) (heap s) →
  accounted (processingQueue (enqueue j s).2) (workers (enqueue j s).2)
    (heap (enqueue j s).2).
Proof.
  intros Hacc. rewrite enqueue_unfold. simpl.
  assert (accounted (processingQueue s ++ [length (heap s)]) (workers s)
            (heap s ++ [j])) as Hpushed.
  { intros a j' Hl'. apply lookup_app_Some in Hl' as [Hl'|[Hge Hl']].
    - destruct (Hacc a j' Hl') as [Hterm|Hin]; [by left|right].
      rewrite !elem_of_app in *. tauto.
    - right. destruct (a - length (heap s)) as [|n] eqn:Hn; [|done].
      assert (a = length (heap s)) as -> by lia.
      rewrite !elem_of_app, list_elem_of_singleton. tauto. }
  destruct (isProcessing s) eqn:Hp; [exact Hpushed|].
  intros a j' Hl'. rewrite processQueue_lookup in Hl' by done.
  match goal with
  | |- context [processQueue ?s0] =>
      pose proof (processQueue_fields s0 Hp) as Hf
  end.
  simpl in Hl', Hf.
  destruct (processingQueue s ++ [length (heap s)]) as [|c rest] eqn:Hq.
  { by destruct (processingQueue s). }
  destruct Hf as (-> & -> & _). rewrite fmap_app. simpl.
  destruct (decide (a = c)) as [->|Hne].
  - right. rewrite !elem_of_app, list_elem_of_singleton. tauto.
  - destruct (Hpushed a j' Hl') as [Hterm|Hin]; [by left|right].
    rewrite elem_of_app, elem_of_cons in Hin.
    rewrite !elem_of_app. tauto.
Qed.

Lemma accounted_step (env : environment) (l : label) (s s' : state) :
  l ≠ ClearQueue → wf s →
  accounted (processingQueue s) (workers s) (heap s) →
  step env l s = Some s' →
  accounted (processingQueue s') (workers s') (heap s').
Proof.
  intros Hl Hwf Hacc Hstep.
  destruct l as [jd id|rg id|w o|w fo|]; simpl in Hstep; [| | | |done].
  - injection Hstep as <-. by apply accounted_enqueue.
  - injection Hstep as <-. by apply accounted_enqueue.
  - destruct (workers s !! w) as [[a0|a0]|] eqn:Hw; try discriminate.
    destruct (heap s !! a0) as [j|] eqn:Hl0; try discriminate.
    pose proof (lookup_lt_Some _ _ _ Hw) as Hlen.
    pose proof (processJob_rest_fields a0 j o s) as Hrest.
    destruct (processJob_rest a0 j o s) as [[[]|msg] s1]; injection Hstep as <-.
    + destruct Hrest as (Hq1 & _ & Hw1 & Hh1).
      apply accounted_resume; rewrite ?Hw1, ?Hq1, ?Hh1; [done|].
      intros a j' Hl'. destruct (decide (a = a0)) as [->|Hne].
      * rewrite list_lookup_alter_eq, Hl0 in Hl'. injection Hl' as <-.
        left. by left.
      * rewrite list_lookup_alter_ne in Hl' by done.
        destruct (Hacc a j' Hl') as [Hterm|Hin]; [by left|right].
        by apply (refs_without _ _ w (Running a0)).
    + destruct Hrest as (Hq1 & _ & Hh1 & Hw1 & _).
      rewrite (on_error_unfold w a0 msg j s1) by (by rewrite Hh1). cbv zeta.
      destruct (S (j_attempts j) <? j_maxAttempts j)%nat.
      * apply accounted_resume; simpl; rewrite ?Hw1, ?Hq1, ?Hh1; [done|].
        intros a j' Hl'. destruct (decide (a = a0)) as [->|Hne].
        -- right. rewrite !elem_of_app, list_elem_of_singleton. tauto.
        -- rewrite !list_lookup_alter_ne in Hl' by done.
           destruct (Hacc a j' Hl') as [Hterm|Hin]; [by left|right].
           apply (refs_without _ _ w (Running a0)) in Hin; [|done..].
           rewrite !elem_of_app in *. tauto.
      * simpl. rewrite Hq1, Hw1, Hh1. intros a j' Hl'.
        destruct (decide (a = a0)) as [->|Hne].
        -- right. apply refs_with; [done|]. by left.
        -- rewrite list_lookup_alter_ne in Hl' by done.
           destruct (Hacc a j' Hl') as [Hterm|Hin]; [by left|right].
           apply refs_with; [done|]. right.
           by apply (refs_without _ _ w (Running a0)).
  - destruct (workers s !! w) as [[a0|a0]|] eqn:Hw; try discriminate.
    destruct (heap s !! a0) as [j|] eqn:Hl0; try discriminate.
    pose proof (lookup_lt_Some _ _ _ Hw) as Hlen.
    destruct (wf_failing _ _ _ Hwf a0) as (j0 & Hl0' & Hst);
      [by eapply list_elem_of_lookup_2|].
    assert (j0 = j) as -> by congruence.
    pose proof (frames_handleJobFailure env j fo s) as (Hq1 & _ & Hh1 & Hw1 & _).
    destruct (handleJobFailure_spec env j fo s) as (s1 & es & Hrun & _).
    rewrite Hrun in Hstep, Hq1, Hh1, Hw1. injection Hstep as <-.
    simpl in Hq1, Hh1, Hw1.
    apply accounted_resume; rewrite ?Hw1, ?Hq1, ?Hh1; [done|].
    intros a j' Hl'. destruct (decide (a = a0)) as [->|Hne].
    + left. right. congruence.
    + destruct (Hacc a j' Hl') as [Hterm|Hin]; [by left|right].
      by apply (refs_without _ _ w (Failing a0)).
Qed.

(** X6. When [clearQueue] is never called and no activation of
    [processQueue] is suspended any more, the server is at rest: the queue is
    empty, the flag is down, and every job ever queued is ['completed'] or
    ['failed']. *)
Theorem idle_server_has_settled_every_job (env : environment)
  (us : list user_row) (ss : list session_row) (io : bool)
  (ls : list label) (s : state) :
  Forall (λ l, l ≠ ClearQueue) ls →
  run env ls (boot us ss io) = Some s →
  workers s = [] →
  processingQueue s = []
  ∧ isProcessing s = false
  ∧ ∀ a j, heap s !! a = Some j → terminal (j_status j).
Proof.
  intros Hls Hrun Hidle.
  destruct (attended_run env ls (boot us ss io) s) as (Hflag & Hqueue);
    [by split|exact Hrun|].
  assert (processingQueue s = []) as Hq.
  { destruct (processingQueue s) as [|c rest] eqn:Hq; [done|].
    by destruct Hqueue. }
  split; [exact Hq|]. split.
  { destruct (isProcessing s); [by destruct Hflag|done]. }
  assert (accounted (processingQueue s) (workers s) (heap s)) as Hacc.
  { assert (wf (boot us ss io)) as Hwf by apply wfq_nil.
    assert (accounted (processingQueue (boot us ss io))
              (workers (boot us ss io)) (heap (boot us ss io))) as Hacc
      by (intros a j Hl; done).
    revert Hwf Hacc Hrun. generalize (boot us ss io). clear Hflag Hqueue.
    induction Hls as [|l ls Hl _ IH]; intros s0 Hwf Hacc Hrun;
      simpl in Hrun.
    - by injection Hrun as <-.
    - destruct (step env l s0) as [s1|] eqn:Hstep; [|discriminate].
      apply (IH s1); [by eapply wf_step|by eapply accounted_step|exact Hrun]. }
  intros a j Hl. destruct (Hacc a j Hl) as [Hterm|Hin]; [done|].
  rewrite Hq, Hidle in Hin. by apply elem_of_nil in Hin.
Qed.

Lemma idle_server_has_settled_every_job_witness :
  ∃ s,
    run (production true)
      [QueueProcessingJob sample_jobData "job_1"; Settle 0 download_fails;
       QueueProcessingJob other_jobData "job_2"; Settle 0 succeeds;
       Settle 0 succeeds] (boot [] [] true) = Some s
    ∧ processingQueue s = []
    ∧ isProcessing s = false
    ∧ ∀ a j, heap s !! a = Some j → terminal (j_status j).
Proof.
  eexists. split; [vm_compute; reflexivity|].
  refine (idle_server_has_settled_every_job (production true) [] [] true
            [QueueProcessingJob sample_jobData "job_1";
             Settle 0 download_fails;
             QueueProcessingJob other_jobData "job_2"; Settle 0 succeeds;
             Settle 0 succeeds] _ _ _ _).
  - repeat constructor; discriminate.
  - vm_compute. reflexivity.
  - vm_compute. reflexivity.
Defined.

(** ** The webhooks *)

Lemma always_ret {A} (P : A → Prop) (a : A) : P a → always P (mret a).
Proof. intros HP s. by exists a, s. Qed.

Lemma always_bind {A B} (Q : A → Prop) (P : B → Prop) (m : M A)
  (k : A → M B) :
  always Q m → (∀ a, Q a → always P (k a)) → always P (m ≫= k).
Proof.
  intros Hm Hk s. destruct (Hm s) as (a & s1 & Hrun & HQ).
  destruct (Hk a HQ s1) as (b & s2 & Hrun' & HP).
  exists b, s2. munfold. by rewrite Hrun.
Qed.

Lemma always_try_catch {A} (P : A → Prop) (m : M A) (h : string → M A) :
  yields P m → (∀ msg, always P (h msg)) → always P (try_catch m h).
Proof.
  intros Hm Hh s. specialize (Hm s). unfold try_catch.
  destruct (m s) as [[a|msg] s1]; [by exists a, s1|apply Hh].
Qed.

Lemma yields_ret {A} (P : A → Prop) (a : A) : P a → yields P (mret a).
Proof. by intros HP s. Qed.

Lemma yields_throw {A} (P : A → Prop) (msg : string) : yields P (throw msg).
Proof. by intros s. Qed.

Lemma yields_bind {A B} (P : B → Prop) (m : M A) (k : A → M B) :
  (∀ a, yields P (k a)) → yields P (m ≫= k).
Proof.
  intros Hk s. munfold. destruct (m s) as [[a|msg] s1]; [apply Hk|done].
Qed.

Lemma logCall_spec q callSid phoneNumber action success errorMessage userId
  (s : state) :
  ∃ s',
    logCall q callSid phoneNumber action success errorMessage userId s
    = (Ok tt, s')
    ∧ same_queue s s'
    ∧ users s' = users s ∧ sessions s' = sessions s
    ∧ match q with
      | None =>
          call_logs s'
          = call_logs s
            ++ [call_log callSid phoneNumber action success errorMessage
                  userId]
          ∧ trace s' = trace s
      | Some _ =>
          call_logs s' = call_logs s
          ∧ trace s' = trace s ++ [Log "error" "Failed to log call:"]
      end.
Proof.
  unfold logCall. munfold. destruct q as [msg|]; simpl;
    eexists; (split; [reflexivity|]); by repeat split.
Qed.

Lemma always_logCall q callSid phoneNumber action success errorMessage userId :
  always (λ _, True)
    (logCall q callSid phoneNumber action success errorMessage userId).
Proof.
  intros s.
  destruct (logCall_spec q callSid phoneNumber action success errorMessage
              userId s) as (s' & Hrun & _).
  by exists tt, s'.
Qed.

Lemma always_handleRecordingFailure q userId callSid errorMessage :
  always (λ _, True) (handleRecordingFailure q userId callSid errorMessage).
Proof.
  intros s. unfold handleRecordingFailure.
  unfold mbind, M_bind, bind, log, emit_effect, modify at 1.
  match goal with
  | |- context [try_catch ?m ?h ?s0] =>
      assert (∃ s1, try_catch m h s0 = (Ok tt, s1)) as (s1 & ->)
  end.
  { unfold try_catch, db_query. munfold. destruct q; by eexists. }
  destruct (notify_ok userId "processing_failed" None callSid
              (Some errorMessage) None s1) as (s2 & es & -> & _).
  by exists tt, s2.
Qed.

(** X7. The four Twilio webhooks always answer: whatever the request and
    whatever the database does, no handler throws; the answer is the 403 of
    the signature check, or status 200 with at least one verb for the
    caller ([OK] for the status callback). *)
Theorem webhooks_always_answer (env : environment) (h : webhook)
  (req : request) :
  always (λ r, r = forbidden ∨ answers h r) (serve env h req).
Proof.
  unfold serve, route.
  apply (always_bind (λ c, c = None ∨ c = Some forbidden)).
  { intros s. unfold validateTwilioSignature.
    destruct (bool_decide (NODE_ENV env = Some "development"));
      [by exists None, s; split; [|left]|].
    destruct (validateRequest env (twilio_authToken env) (rq_signature req)
                ("https://" +:+ rq_host req +:+ rq_originalUrl req)
                (rq_body req));
      [by exists None, s; split; [|left]|].
    eexists _, _. split; [reflexivity|by right]. }
  intros c [->| ->]; [|by apply always_ret; left].
  destruct h as [q_log|now q_select q_update q_log|q_log id|q_update]; simpl.
  - unfold voice_handler. apply always_try_catch.
    + apply yields_bind. intros _. apply yields_ret. right.
      split; [done|by eexists _, _].
    + intros msg. apply always_ret. right. split; [done|by eexists _, _].
  - unfold authenticate_handler. cbv zeta. apply always_try_catch.
    + destruct (bad_pin_format (field "Digits" (rq_body req))).
      * apply yields_bind. intros _. apply yields_ret. right.
        split; [done|by eexists _, _].
      * apply yields_bind. intros [u|]; apply yields_bind; intros _;
          apply yields_ret; right; (split; [done|by eexists _, _]).
    + intros msg. apply (always_bind (λ _, True)); [apply always_logCall|].
      intros _ _. apply always_ret. right. split; [done|by eexists _, _].
  - unfold recording_complete_handler. cbv zeta. apply always_try_catch.
    + destruct (field "RecordingUrl" (rq_body req)) as [url|];
        [|apply yields_throw].
      destruct (present (Some url)); [|apply yields_throw].
      apply yields_bind. intros _. apply yields_bind. intros _.
      apply yields_ret. right. split; [done|by eexists _, _].
    + intros msg. apply always_ret. right. split; [done|by eexists _, _].
  - unfold recording_status_handler.
    apply (always_bind (λ _, True)); [|intros _ _; by apply always_ret; right].
    apply always_try_catch; [by intros s; destruct (_ s) as [[[]|?] ?]|].
    intros msg. by apply always_ret.
Qed.

Lemma frames_validatePIN now q_select q_update pin :
  frames (validatePIN now q_select q_update pin).
Proof. unfold validatePIN, logFailedPINAttempt. frame. Qed.

Lemma frames_handleRecordingFailure q userId callSid errorMessage :
  frames (handleRecordingFailure q userId callSid errorMessage).
Proof. unfold handleRecordingFailure. frame. Qed.

Lemma frames_route env req handler :
  frames handler → frames (route env req handler).
Proof.
  intros Hh. unfold route, validateTwilioSignature.
  apply frames_bind; [frame|]. intros [r|]; [apply frames_ret|exact Hh].
Qed.

(** X8. Of the four webhooks only [/recording-complete] reaches the
    processing queue: the other three leave the queue, the flag, the job
    objects and the suspended workers as they are, whatever the request. *)
Theorem only_recording_complete_touches_the_queue (env : environment)
  (h : webhook) (req : request) (s : state) :
  touches_queue h = false →
  same_queue s (serve env h req s).2.
Proof.
  intros Hh. unfold serve. apply frames_route.
  destruct h as [q_log|now q_select q_update q_log|q_log id|q_update];
    simpl; [| | discriminate |].
  - unfold voice_handler. frame.
  - unfold authenticate_handler. cbv zeta.
    pose proof frames_validatePIN. frame.
  - unfold recording_status_handler.
    pose proof frames_handleRecordingFailure. frame.
Qed.

Lemma only_recording_complete_touches_the_queue_witness :
  same_queue two_jobs_queued
    (serve (production true) (PostAuthenticate 7 None None None)
       (pin_request "123456") two_jobs_queued).2.
Proof.
  apply (only_recording_complete_touches_the_queue (production true)
           (PostAuthenticate 7 None None None) (pin_request "123456")
           two_jobs_queued).
  reflexivity.
Defined.

Lemma enqueue_spec (j : job) (s : state) :
  ∃ j',
    length (heap (enqueue j s).2) = S (length (heap s))
    ∧ heap (enqueue j s).2 !! length (heap s) = Some j'
    ∧ with_status (j_status j) j' = j
    ∧ length (heap s)
      ∈ processingQueue (enqueue j s).2
        ++ (worker_job <$> workers (enqueue j s).2).
Proof.
  rewrite enqueue_unfold. simpl.
  assert (with_status (j_status j) j = j) as Hsame by (by destruct j).
  assert (with_status (j_status j) (with_status processing j) = j) as Hsame'
    by (by destruct j).
  destruct (isProcessing s) eqn:Hp.
  { exists j. simpl. rewrite length_app, list_lookup_middle by done. simpl.
    repeat split; [lia|done|]. rewrite !elem_of_app, list_elem_of_singleton.
    tauto. }
  match goal with
  | |- context [processQueue ?s0] =>
      pose proof (processQueue_fields s0 Hp) as Hf
  end.
  simpl in Hf.
  destruct (processingQueue s ++ [length (heap s)]) as [|c rest] eqn:Hq.
  { by destruct (processingQueue s). }
  destruct Hf as (-> & -> & ->).
  rewrite length_alter, length_app, fmap_app. simpl.
  destruct (decide (c = length (heap s))) as [->|Hne].
  - exists (with_status processing j).
    rewrite list_lookup_alter_eq, list_lookup_middle by done.
    repeat split; [lia|done|]. rewrite !elem_of_app, list_elem_of_singleton.
    tauto.
  - exists j. rewrite list_lookup_alter_ne, list_lookup_middle by done.
    repeat split; [lia|done|].
    assert (length (heap s) ∈ c :: rest) as Hin.
    { rewrite <- Hq, elem_of_app, list_elem_of_singleton. tauto. }
    apply elem_of_cons in Hin as [Heq|Hin]; [congruence|].
    rewrite !elem_of_app. tauto.
Qed.

(** X9. [/recording-complete] for a request the middleware lets through and
    that carries a recording URL: whether or not the call can be logged, the
    caller hears that the recording is being processed, and exactly one new
    job object exists afterwards; it is the recording job of the request
    (the URL with [.wav] appended, no attempt yet), and it is in the queue or
    with a worker. *)
Theorem recording_complete_queues_one_job (env : environment)
  (q_log : option string) (id : string) (req : request) (url : string)
  (s : state) :
  accepted env req →
  field "RecordingUrl" (rq_body req) = Some url →
  url ≠ "" →
  ∃ s' j,
    serve env (PostRecordingComplete q_log id) req s
    = (Ok recording_accepted, s')
    ∧ length (heap s') = S (length (heap s))
    ∧ heap s' !! length (heap s) = Some j
    ∧ with_status queued j = recording_job req url id
    ∧ length (heap s) ∈ processingQueue s' ++ (worker_job <$> workers s').
Proof.
  intros Hacc Hurl Hne. unfold serve. rewrite route_accepts by exact Hacc.
  simpl. unfold recording_complete_handler. cbv zeta. rewrite Hurl.
  assert (present (Some url) = true) as ->.
  { simpl. by apply negb_true_iff, String.eqb_neq. }
  unfold try_catch, mbind, M_bind, bind.
  destruct (logCall_spec q_log (field "callSid" (rq_query req))
              (field "From" (rq_body req)) "recording_complete" true None
              (field "userId" (rq_query req)) s)
    as (s1 & -> & (_ & _ & Hh1 & _) & _).
  unfold queueProcessingJob.
  change (new_processing_job _ id) with (recording_job req url id).
  destruct (enqueue_spec (recording_job req url id) s1)
    as (j & Hlen & Hl & Hj & Hin).
  rewrite enqueue_unfold in Hlen, Hl, Hin. rewrite enqueue_unfold.
  rewrite Hh1 in *. cbn beta iota zeta in *. cbn [snd] in *.
  eexists _, j. split; [reflexivity|]. by repeat split.
Qed.

Lemma recording_complete_queues_one_job_witness :
  ∃ s' j,
    serve (production true) (PostRecordingComplete (Some "db is down") "job_3")
      (sample_request
         [("RecordingUrl", "https://api.twilio.com/recordings/RE3");
          ("From", "+15550100")]
         [("userId", "u-1"); ("callSid", "CA3")]) two_jobs_queued
    = (Ok recording_accepted, s')
    ∧ length (heap s') = 3
    ∧ heap s' !! 2 = Some j
    ∧ j_recordingUrl j = Some "https://api.twilio.com/recordings/RE3.wav".
Proof.
  assert (accepted (production true)
            (sample_request
               [("RecordingUrl", "https://api.twilio.com/recordings/RE3");
                ("From", "+15550100")]
               [("userId", "u-1"); ("callSid", "CA3")])) as Hacc
    by (right; reflexivity).
  destruct (recording_complete_queues_one_job (production true)
              (Some "db is down") "job_3" _
              "https://api.twilio.com/recordings/RE3" two_jobs_queued Hacc
              eq_refl ltac:(discriminate))
    as (s' & j & Hrun & Hlen & Hl & Hj & _).
  exists s', j. split; [exact Hrun|]. split; [exact Hlen|].
  split; [exact Hl|]. exact (f_equal j_recordingUrl Hj).
Defined.

(** X10. [/recording-complete] without a recording URL (missing or empty):
    nothing is logged to [call_logs], no job is queued, and the caller is
    told that there was an issue. *)
Theorem recording_complete_without_url_queues_nothing (env : environment)
  (q_log : option string) (id : string) (req : request) (s : state) :
  accepted env req →
  present (field "RecordingUrl" (rq_body req)) = false →
  serve env (PostRecordingComplete q_log id) req s = (Ok recording_refused, s).
Proof.
  intros Hacc Hurl. unfold serve. rewrite route_accepts by exact Hacc.
  simpl. unfold recording_complete_handler. cbv zeta.
  destruct (field "RecordingUrl" (rq_body req)) as [url|]; [|done].
  by rewrite Hurl.
Qed.

Lemma recording_complete_without_url_queues_nothing_witness :
  serve (production true) (PostRecordingComplete None "job_3")
    (sample_request [("RecordingUrl", ""); ("From", "+15550100")]
       [("userId", "u-1"); ("callSid", "CA3")]) two_jobs_queued
  = (Ok recording_refused, two_jobs_queued).
Proof.
  apply recording_complete_without_url_queues_nothing;
    [right; reflexivity|reflexivity].
Defined.

(** ** The pipeline when a stage fails *)

(** X11. Stage 2 of [processRecording]: [validateAudioFile] accepts a file
    exactly when its size is between 1000 bytes and [config.audio.maxSize]
    (10 MiB), both included, and the file can be accessed; it never
    answers [false] and never changes the state. *)
Theorem validateAudioFile_accepts_iff (f : audio_file)
  (access : option string) (s : state) :
  (validateAudioFile f access s).2 = s
  ∧ (validateAudioFile f access s).1 ≠ Ok false
  ∧ ((validateAudioFile f access s).1 = Ok true
     ↔ (1000 ≤ af_size f ≤ 10485760)%Z ∧ access = None).
Proof.
  unfold validateAudioFile, audio_maxSize. munfold.
  destruct (10 * 1024 * 1024 <? af_size f)%Z eqn:Hhi;
    [apply Z.ltb_lt in Hhi|apply Z.ltb_ge in Hhi]; simpl.
  { split; [done|]. split; [done|]. split; [done|]. lia. }
  destruct (af_size f <? 1000)%Z eqn:Hlo;
    [apply Z.ltb_lt in Hlo|apply Z.ltb_ge in Hlo]; simpl.
  { split; [done|]. split; [done|]. split; [done|]. lia. }
  destruct access as [msg|]; simpl.
  - split; [done|]. split; [done|]. split; [done|]. by intros [_ ?].
  - split; [done|]. split; [done|]. split; [|done]. intros _. split; [lia|done].
Qed.

Lemma processRecording_fails_early (userId : option string)
  (rd : recordingData) (o : pipeline_outcomes) (msg : string) (s : state) :
  fails_early o msg →
  processRecording userId rd o s = (Throw msg, audio_processing_failed s).
Proof.
  unfold processRecording, downloadAudio, validateAudioFile, transcribeAudio.
  intros [(m & Hd & ->)|(f & Hd & Hcase)]; rewrite Hd.
  { reflexivity. }
  unfold try_catch at 1. unfold mbind, mret, M_bind, M_ret, bind, ret, lift,
    wrap_error, throw.
  cbn beta iota.
  destruct Hcase as [(Hhi & ->)|[(Hlo & ->)|((Hlo & Hhi) & Hcase)]].
  - apply Z.ltb_lt in Hhi. by rewrite Hhi.
  - assert ((audio_maxSize <? af_size f)%Z = false) as ->
      by (apply Z.ltb_ge; unfold audio_maxSize; lia).
    apply Z.ltb_lt in Hlo. by rewrite Hlo.
  - assert ((audio_maxSize <? af_size f)%Z = false) as -> by (by apply Z.ltb_ge).
    assert ((af_size f <? 1000)%Z = false) as -> by (by apply Z.ltb_ge).
    destruct Hcase as [([m Ha] & ->)|(Ha & Hcase)]; rewrite Ha.
    + reflexivity.
    + destruct Hcase as [(m & Ht & ->)|(t & Ht & Hdur & ->)]; rewrite Ht.
      * reflexivity.
      * unfold analysis_prompt, interpolate. by rewrite Hdur.
Qed.

(** X12. When the download, the checks on the file or the transcription
    fail, or the prompt of the analysis cannot be built from the duration
    of the transcription, [processRecording] throws the message of that
    stage, and the database, the queue and the outside world of the model
    are as before:
    no row of [users], [sessions], [generated_tracks] or [call_logs] is
    written or changed, the queue, the flag and the jobs are untouched, and
    nothing but log lines is added to the trace, so no event goes to the
    socket and no message is sent.  (The file system is not part of the
    state: the statement does not speak of the recording a served download
    has written.) *)
Theorem early_failure_writes_no_row (userId : option string)
  (rd : recordingData) (o : pipeline_outcomes) (msg : string) (s : state) :
  fails_early o msg →
  ∃ s' es,
    processRecording userId rd o s = (Throw msg, s')
    ∧ users s' = users s
    ∧ sessions s' = sessions s
    ∧ generated_tracks s' = generated_tracks s
    ∧ call_logs s' = call_logs s
    ∧ same_queue s s'
    ∧ trace s' = trace s ++ es
    ∧ Forall is_log es.
Proof.
  intros Hfail.
  exists (audio_processing_failed s), [Log "error" "Audio processing failed:"].
  split; [by apply processRecording_fails_early|].
  do 4 (split; [reflexivity|]). split; [by repeat split|].
  split; [reflexivity|]. by repeat constructor.
Qed.

Lemma early_failure_writes_no_row_witness :
  ∃ s',
    processRecording (Some "u-1")
      {| rd_recordingUrl := Some "https://api.twilio.com/recordings/RE1.wav";
         rd_callSid := Some "CA1"; rd_duration := Some "12";
         rd_phoneNumber := Some "+15550100" |}
      (pipeline (Ok {| af_path := "/uploads/r.wav"; af_size := 999;
                       af_filename := "r.wav" |}) (Ok composer_answer) None)
      two_jobs_queued
    = (Throw "Audio file too small or corrupted", s')
    ∧ sessions s' = sessions two_jobs_queued
    ∧ same_queue two_jobs_queued s'.
Proof.
  destruct (early_failure_writes_no_row (Some "u-1")
              {| rd_recordingUrl :=
                   Some "https://api.twilio.com/recordings/RE1.wav";
                 rd_callSid := Some "CA1"; rd_duration := Some "12";
                 rd_phoneNumber := Some "+15550100" |}
              (pipeline (Ok {| af_path := "/uploads/r.wav"; af_size := 999;
                               af_filename := "r.wav" |})
                 (Ok composer_answer) None)
              "Audio file too small or corrupted" two_jobs_queued)
    as (s' & es & Hrun & _ & Hs & _ & _ & Hq & _).
  - right. eexists. split; [reflexivity|].
    right. left. split; [reflexivity|reflexivity].
  - exists s'. split; [exact Hrun|]. split; [exact Hs|exact Hq].
Defined.

Lemma processRecording_reaches_generation (userId : option string)
  (rd : recordingData) (o : pipeline_outcomes) (f : audio_file)
  (t : transcription) (sid : string) (s : state) :
  reaches_generation o f t sid →
  processRecording userId rd o s
  = try_catch
      (audioFiles ← lift (po_files o sid (generated_music o t));
       saveResults sid audioFiles (po_update_session o) (po_insert_tracks o);;
       match rd_phoneNumber rd with
       | Some phone =>
           if present (Some phone)
           then sendSMSNotification phone sid audioFiles (po_sms o)
           else mret tt
       | None => mret tt
       end;;
       cleanup (po_unlink o);;
       mret {| pr_sessionId := sid; pr_files := audioFiles |})
      (λ msg, log "error" "Audio processing failed:";; throw msg)
      (set_sessions (λ ss, ss ++ [created_session userId rd o f t sid]) s).
Proof.
  intros (Hd & (Hlo & Hhi) & Hacc & Ht & Hdur & Hins).
  unfold processRecording, downloadAudio, validateAudioFile, transcribeAudio,
    analysis_prompt, interpolate, createSession, generated_music,
    created_session, session_data.
  rewrite Hd, Hacc, Ht, Hins.
  unfold try_catch. unfold mbind at 1 2 3 4, M_bind at 1 2 3 4,
    bind at 1 2 3 4.
  unfold lift at 1 2, wrap_error.
  assert ((audio_maxSize <? af_size f)%Z = false) as -> by (by apply Z.ltb_ge).
  assert ((af_size f <? 1000)%Z = false) as -> by (by apply Z.ltb_ge).
  cbn beta iota. unfold mbind at 1, M_bind at 1, bind at 1, lift at 1.
  rewrite Hdur. reflexivity.
Qed.

(** X13. When the first five stages succeed and the generation of the audio
    files throws, [processRecording] throws that error and leaves the session
    row of stage 5 behind, still ['processing'].  No other row of [sessions]
    and no row of [users], [generated_tracks] or [call_logs] is written or
    changed, the queue, the flag and the jobs are untouched, and nothing but
    log lines is added to the trace, so no event goes to the socket and no
    message is sent.  (The file system is not part of the state: the
    statement does not speak of the recording stage 1 has written.) *)
Theorem failed_generation_leaves_a_processing_session
  (userId : option string) (rd : recordingData) (o : pipeline_outcomes)
  (f : audio_file) (t : transcription) (sid msg : string) (s : state) :
  reaches_generation o f t sid →
  po_files o sid (generated_music o t) = Throw msg →
  ∃ s' es,
    processRecording userId rd o s = (Throw msg, s')
    ∧ sessions s' = sessions s ++ [created_session userId rd o f t sid]
    ∧ s_processing_status (created_session userId rd o f t sid) = "processing"
    ∧ users s' = users s
    ∧ generated_tracks s' = generated_tracks s
    ∧ call_logs s' = call_logs s
    ∧ same_queue s s'
    ∧ trace s' = trace s ++ es
    ∧ Forall is_log es.
Proof.
  intros Hreach Hfiles.
  exists (audio_processing_failed
            (set_sessions (λ ss, ss ++ [created_session userId rd o f t sid])
               s)),
    [Log "error" "Audio processing failed:"].
  split.
  { rewrite (processRecording_reaches_generation _ _ _ f t sid s Hreach).
    unfold try_catch, mbind, M_bind, bind, lift. by rewrite Hfiles. }
  do 5 (split; [reflexivity|]). split; [by repeat split|].
  split; [reflexivity|]. by repeat constructor.
Qed.

Lemma failed_generation_leaves_a_processing_session_witness :
  ∃ s' row,
    processRecording (Some "u-1")
      {| rd_recordingUrl := Some "https://api.twilio.com/recordings/RE1.wav";
         rd_callSid := Some "CA1"; rd_duration := Some "12";
         rd_phoneNumber := Some "+15550100" |}
      {| po_download := Ok sample_audio; po_access := None;
         po_transcribe := Ok sample_transcription;
         po_analyze := Ok sample_analysis;
         po_insert_session := Ok "s-1";
         po_agents := agents (Ok composer_answer);
         po_now_iso := "2025-01-01T00:00:00.000Z";
         po_now_ms := 1735689600000;
         po_files := λ _ _, Throw "ffmpeg exited with code 1";
         po_update_session := None; po_insert_tracks := None;
         po_sms := None; po_unlink := None |}
      (boot [] [] true)
    = (Throw "ffmpeg exited with code 1", s')
    ∧ sessions s' = [row]
    ∧ s_processing_status row = "processing".
Proof.
  destruct (failed_generation_leaves_a_processing_session (Some "u-1")
              {| rd_recordingUrl :=
                   Some "https://api.twilio.com/recordings/RE1.wav";
                 rd_callSid := Some "CA1"; rd_duration := Some "12";
                 rd_phoneNumber := Some "+15550100" |}
              {| po_download := Ok sample_audio; po_access := None;
                 po_transcribe := Ok sample_transcription;
                 po_analyze := Ok sample_analysis;
                 po_insert_session := Ok "s-1";
                 po_agents := agents (Ok composer_answer);
                 po_now_iso := "2025-01-01T00:00:00.000Z";
                 po_now_ms := 1735689600000;
                 po_files := λ _ _, Throw "ffmpeg exited with code 1";
                 po_update_session := None; po_insert_tracks := None;
                 po_sms := None; po_unlink := None |}
              sample_audio sample_transcription "s-1"
              "ffmpeg exited with code 1" (boot [] [] true))
    as (s' & es & Hrun & Hs & Hst & _).
  - repeat split; simpl; unfold audio_maxSize; lia.
  - reflexivity.
  - exists s'. eexists. split; [exact Hrun|]. split; [exact Hs|exact Hst].
Defined.

(** X14. [saveResults] is not atomic: when the first five stages succeed,
    the files are made and the [UPDATE] of the session is served but the
    [INSERT] of the tracks throws, [processRecording] throws
    [Failed to save results: ...] although the session row already says
    ['completed'], and no track row exists. *)
Theorem failed_track_insert_leaves_session_completed
  (userId : option string) (rd : recordingData) (o : pipeline_outcomes)
  (f : audio_file) (t : transcription) (sid msg : string) (files : json)
  (s : state) :
  reaches_generation o f t sid →
  po_files o sid (generated_music o t) = Ok files →
  files ≠ JNull →
  po_update_session o = None →
  po_insert_tracks o = Some msg →
  processRecording userId rd o s
  = (Throw ("Failed to save results: " +:+ msg),
     audio_processing_failed
       (set_sessions
          (λ ss, update_status (λ r, String.eqb (s_id r) sid) "completed"
                   (ss ++ [created_session userId rd o f t sid])) s)).
Proof.
  intros Hreach Hfiles Hnn Hu Hi.
  rewrite (processRecording_reaches_generation _ _ _ f t sid s Hreach).
  unfold try_catch at 1. unfold mbind at 1, M_bind at 1, bind at 1.
  unfold lift at 1. rewrite Hfiles. cbn beta iota.
  unfold mbind at 1, M_bind at 1, bind at 1.
  unfold saveResults. rewrite Hu, Hi.
  destruct (get_prop_not_null files "backingTrack" Hnn) as (v1 & H1).
  destruct (get_prop_not_null files "midi" Hnn) as (v2 & H2).
  destruct (get_prop_not_null files "stemsZip" Hnn) as (v3 & H3).
  destruct (get_prop_not_null files "lyrics" Hnn) as (v4 & H4).
  destruct (get_prop_not_null files "downloadPackage" Hnn) as (v5 & H5).
  destruct (get_prop_not_null files "totalSize" Hnn) as (v6 & H6).
  rewrite H1, H2, H3, H4, H5, H6. reflexivity.
Qed.

Lemma failed_track_insert_leaves_session_completed_witness :
  ∃ s',
    processRecording (Some "u-1")
      {| rd_recordingUrl := Some "https://api.twilio.com/recordings/RE1.wav";
         rd_callSid := Some "CA1"; rd_duration := Some "12";
         rd_phoneNumber := Some "+15550100" |}
      {| po_download := Ok sample_audio; po_access := None;
         po_transcribe := Ok sample_transcription;
         po_analyze := Ok sample_analysis;
         po_insert_session := Ok "s-1";
         po_agents := agents (Ok composer_answer);
         po_now_iso := "2025-01-01T00:00:00.000Z";
         po_now_ms := 1735689600000;
         po_files := λ _ _, Ok sample_files;
         po_update_session := None;
         po_insert_tracks := Some "relation generated_tracks does not exist";
         po_sms := None; po_unlink := None |}
      (boot [] [] true)
    = (Throw "Failed to save results: relation generated_tracks does not exist",
       s').
Proof.
  eexists.
  apply (failed_track_insert_leaves_session_completed (Some "u-1") _ _
           sample_audio sample_transcription "s-1" _ sample_files
           (boot [] [] true)).
  - repeat split; simpl; unfold audio_maxSize; lia.
  - reflexivity.
  - discriminate.
  - reflexivity.
  - reflexivity.
Defined.

(** ** Object spreads *)

Lemma assoc_app (k : string) (l1 l2 : list (string * json)) :
  assoc k (l1 ++ l2) = or_field (assoc k l1) (assoc k l2).
Proof.
  induction l1 as [|[k1 v1] l1 IH]; simpl; [done|].
  by destruct (String.eqb k k1).
Qed.

Lemma assoc_missing (k : string) (l : list (string * json)) :
  k ∉ l.*1 → assoc k l = None.
Proof.
  induction l as [|[k1 v1] l IH]; simpl; [done|].
  intros [Hne Hin]%not_elem_of_cons.
  apply String.eqb_neq in Hne. rewrite Hne. by apply IH.
Qed.

Lemma assoc_obj_set (k k' : string) (v : json) (fs : list (string * json)) :
  assoc k (obj_set k' v fs) = if String.eqb k k' then Some v else assoc k fs.
Proof.
  induction fs as [|[k1 v1] fs IH]; simpl; [done|].
  destruct (String.eqb k' k1) eqn:H1; simpl.
  - apply String.eqb_eq in H1 as ->. by destruct (String.eqb k k1).
  - rewrite IH. destruct (String.eqb k k1) eqn:H2; [|done].
    apply String.eqb_eq in H2 as ->.
    by rewrite String.eqb_sym, H1.
Qed.

(** [{...base, ...kvs}]: the later keys win. *)
Lemma assoc_obj_extend (k : string) (base kvs : list (string * json)) :
  NoDup kvs.*1 →
  assoc k (obj_extend base kvs) = or_field (assoc k kvs) (assoc k base).
Proof.
  unfold obj_extend. revert base.
  induction kvs as [|[k1 v1] kvs IH]; intros base Hnd; simpl; [done|].
  apply NoDup_cons in Hnd as [Hfresh Hnd]. rewrite IH by done.
  rewrite assoc_obj_set. destruct (String.eqb k k1) eqn:H1; [|done].
  apply String.eqb_eq in H1 as ->. by rewrite assoc_missing.
Qed.

(** X15. Stage 5 of [processRecording] spreads the analysis last into the
    data of the session, so what the analysis says wins: a [callSid],
    [audioUrl], [lyrics] or [duration] in the answer of the analysis
    replaces that of the call in the session row, and the call's is stored
    only where the analysis has none. *)
Theorem analysis_overrides_the_call_in_the_session (sid : string)
  (userId : option string) (rd : recordingData) (f : audio_file)
  (t : transcription) (fs : list (string * json)) :
  NoDup fs.*1 →
  s_call_sid (session_of sid userId (session_data rd f t (JObj fs)))
  = or_field (assoc "callSid" fs) (JStr <$> rd_callSid rd)
  ∧ s_original_audio_url
      (session_of sid userId (session_data rd f t (JObj fs)))
    = or_field (assoc "audioUrl" fs) (JStr <$> rd_recordingUrl rd)
  ∧ s_transcribed_lyrics
      (session_of sid userId (session_data rd f t (JObj fs)))
    = or_field (assoc "lyrics" fs) (Some (JStr (t_text t)))
  ∧ s_audio_duration (session_of sid userId (session_data rd f t (JObj fs)))
    = or_field (assoc "duration" fs) (Some (t_duration t))
  ∧ s_tempo (session_of sid userId (session_data rd f t (JObj fs)))
    = assoc "tempo" fs
  ∧ s_detected_key (session_of sid userId (session_data rd f t (JObj fs)))
    = assoc "key" fs.
Proof.
  intros Hnd. unfold session_of, session_data. simpl.
  rewrite !assoc_obj_extend by done.
  destruct (rd_callSid rd), (rd_recordingUrl rd); simpl;
    repeat split; by destruct (assoc _ fs).
Qed.

Lemma analysis_overrides_the_call_in_the_session_witness :
  s_call_sid
    (session_of "s-1" (Some "u-1")
       (session_data
          {| rd_recordingUrl := None; rd_callSid := Some "CA1";
             rd_duration := None; rd_phoneNumber := None |}
          sample_audio sample_transcription
          (JObj [("tempo", JNum (inject_Z 96)); ("callSid", JStr "CA9")])))
  = Some (JStr "CA9").
Proof.
  assert (NoDup [("tempo", JNum (inject_Z 96)); ("callSid", JStr "CA9")].*1)
    as Hnd by (apply (bool_decide_unpack _); vm_compute; exact I).
  exact (proj1 (analysis_overrides_the_call_in_the_session "s-1" (Some "u-1")
                  {| rd_recordingUrl := None; rd_callSid := Some "CA1";
                     rd_duration := None; rd_phoneNumber := None |}
                  sample_audio sample_transcription _ Hnd)).
Defined.

(** ** The agents *)

(** X16. [generateMusic] returns the fallback data exactly when the body of
    its [try] throws, and that is: when the initial analysis is [null], when
    the analyst answers [null], or when a value that a prompt interpolates
    outside the agent's own [try] cannot be converted to a string (the
    duration or the confidence of the transcription in the analyst's prompt,
    the genre the specialist adapts for in its prompt).  No error thrown by
    an agent's completion reaches the [catch] of [generateMusic]. *)
Theorem generateMusic_falls_back_iff_body_throws (now_iso : string)
  (now_ms : Z) (musicalAnalysis : json) (t : transcription)
  (o : agent_outcomes) :
  generateMusic now_iso now_ms musicalAnalysis t o
  = getFallbackMusicData now_iso musicalAnalysis t
  ↔ musicalAnalysis = JNull
    ∨ stringifiable (t_duration t) = false
    ∨ stringifiable (t_confidence t) = false
    ∨ ao_analyst o = Ok JNull
    ∨ ∃ g, primaryGenre (runMusicAnalyst musicalAnalysis (ao_analyst o))
           = Ok g
           ∧ stringifiable g = false.
Proof.
  unfold generateMusic, generateMusic_try, runGenreSpecialist,
    analyst_prompt, interpolate.
  assert (musicalAnalysis = JNull ∨ musicalAnalysis ≠ JNull) as [->|Hma]
    by (destruct musicalAnalysis; (by left) || (by right)).
  { split; [by left|done]. }
  destruct (get_prop_not_null musicalAnalysis "tempo" Hma) as (v & ->).
  unfold mbind at 1 2 3, result_bind at 1 2 3. cbn beta iota.
  destruct (stringifiable (t_duration t)) eqn:Hdur; cbn beta iota;
    [|split; [by right; left|done]].
  destruct (stringifiable (t_confidence t)) eqn:Hconf; cbn beta iota;
    [|split; [by right; right; left|done]].
  assert (runMusicAnalyst musicalAnalysis (ao_analyst o) = JNull
          ∧ ao_analyst o = Ok JNull
          ∨ runMusicAnalyst musicalAnalysis (ao_analyst o) ≠ JNull
            ∧ ao_analyst o ≠ Ok JNull) as [[Hnull Han]|[Hnn Han]].
  { unfold runMusicAnalyst.
    destruct (ao_analyst o) as [[]|msg]; (by left) || (by right). }
  { rewrite Hnull. split; [by right; right; right; left|done]. }
  destruct (get_prop_not_null _ "genres" Hnn) as (gs & Hgs).
  assert (∃ g, primaryGenre (runMusicAnalyst musicalAnalysis (ao_analyst o))
               = Ok g) as (g & Hg)
    by (unfold primaryGenre; rewrite Hgs; by eexists).
  rewrite Hg. unfold mbind, result_bind. cbn beta iota.
  destruct (stringifiable g) eqn:Hstr; cbn beta iota.
  - split; [intros Heq; discriminate Heq|].
    intros [?|[?|[?|[?|(g' & Hg' & Hno)]]]]; try done.
    injection Hg' as <-. congruence.
  - split; [|done]. intros _. right; right; right; right. by exists g.
Qed.

(** The specialist's prompt cannot be built from an analyst's answer whose
    first genre is an object with a [toString] property: the error leaves
    [runGenreSpecialist] before its [try], and [generateMusic] returns the
    fallback data, marked as such. *)
Lemma unconvertible_genre_falls_back :
  let o :=
    {| ao_analyst :=
         Ok (JObj [("tempo", JNum (inject_Z 96));
                   ("genres", JArr [JObj [("toString", JNum 1)]])]);
       ao_composer := Ok composer_answer;
       ao_specialist := Ok (JObj [("primaryGenre", JStr "acoustic")]);
       ao_director := Ok (JObj [("finalInstrumentation", JObj [])]) |} in
  let music :=
    generateMusic "2025-01-01T00:00:00.000Z" 1735689600000 sample_analysis
      sample_transcription o in
  music
  = getFallbackMusicData "2025-01-01T00:00:00.000Z" sample_analysis
      sample_transcription
  ∧ ∃ analysis,
      get_prop music "analysis" = Ok (Some analysis)
      ∧ get_prop analysis "source" = Ok (Some (JStr "fallback")).
Proof.
  cbv zeta. split; [vm_compute; reflexivity|].
  eexists. split; vm_compute; reflexivity.
Qed.

(** X17. When the completion of the analyst fails, the enhanced analysis is
    the initial one with [scale], [rhythmicPattern], [melodicHints] and
    [confidence] set to the defaults: every other property is that of the
    initial analysis, and the genre the specialist adapts for is still the
    first genre of the initial analysis. *)
Theorem analyst_fallback_keeps_the_initial_analysis
  (fs : list (string * json)) (msg k : string) :
  get_prop (runMusicAnalyst (JObj fs) (Throw msg)) k
  = Ok (or_field (assoc k analyst_defaults) (assoc k fs))
  ∧ primaryGenre (runMusicAnalyst (JObj fs) (Throw msg))
    = primaryGenre (JObj fs).
Proof.
  assert (NoDup analyst_defaults.*1) as Hnd
    by (apply (bool_decide_unpack _); vm_compute; exact I).
  unfold runMusicAnalyst, primaryGenre, get_prop, spread.
  change [("scale", JStr "major");
          ("rhythmicPattern", JStr "steady four-four");
          ("melodicHints", JStr "vocal melody detected");
          ("confidence", JNum (6 # 10))] with analyst_defaults.
  by rewrite !assoc_obj_extend.
Qed.

(** ** TwilioService *)

(** X18. [logCall] never throws.  When the insert is served, [call_logs]
    has exactly one more row, with the arguments in their columns; when the
    database throws, no table changes and one error line is written.  The
    users, the sessions and the queue are never touched. *)
Theorem logCall_never_throws (q : option string)
  (callSid phoneNumber : option string) (action : string) (success : bool)
  (errorMessage userId : option string) (s : state) :
  ∃ s',
    logCall q callSid phoneNumber action success errorMessage userId s
    = (Ok tt, s')
    ∧ same_queue s s'
    ∧ users s' = users s ∧ sessions s' = sessions s
    ∧ call_logs s'
      = call_logs s
        ++ match q with
           | Some _ => []
           | None => [call_log callSid phoneNumber action success
                        errorMessage userId]
           end
    ∧ trace s'
      = trace s ++ match q with
                   | Some _ => [Log "error" "Failed to log call:"]
                   | None => []
                   end.
Proof.
  destruct (logCall_spec q callSid phoneNumber action success errorMessage
              userId s) as (s' & Hrun & Hsame & Hu & Hs & Hq).
  exists s'. repeat split; try done; try apply Hsame.
  - destruct q; destruct Hq as [-> _]; [by rewrite (right_id_L [] (++))|done].
  - destruct q; destruct Hq as [_ ->]; [done|by rewrite (right_id_L [] (++))].
Qed.

(** X19. [sendSMS] never throws.  Without a Twilio number, or with a
    placeholder number containing [xxx], it is skipped and nothing happens;
    otherwise [messages.create] is called exactly once, and its failure
    becomes the answer ['failed'] and a warning. *)
Theorem sendSMS_never_throws (env : environment) (to message : string)
  (create : option string) (s : state) :
  ∃ r s',
    sendSMS env to message create s = (Ok r, s')
    ∧ same_queue s s'
    ∧ (r = sms_skipped ↔ sms_configured env = false)
    ∧ (r = sms_sent ↔ sms_configured env = true ∧ create = None)
    ∧ (sms_configured env = false → s' = s)
    ∧ (sms_configured env = true →
       ∃ es, trace s'
             = trace s
               ++ SmsCreate to message (bool_decide (create = None)) :: es
             ∧ Forall (λ e, ¬ is_sms e) es).
Proof.
  unfold sendSMS, sms_configured.
  destruct (negb (present (twilio_phoneNumber env))
            || includes "xxx" (default "" (twilio_phoneNumber env))); simpl.
  { exists sms_skipped, s. repeat split; try done.
    by intros [? _]. }
  munfold. destruct create as [msg|]; simpl.
  - eexists sms_failed, _. split; [reflexivity|]. repeat split; try done.
    + by intros [_ ?].
    + intros _. exists [Log "warn" "SMS sending failed (continuing without SMS):"].
      simpl. split; [by rewrite <- (assoc_L (++))|no_sms].
  - eexists sms_sent, _. split; [reflexivity|]. repeat split; try done.
    intros _. by exists [].
Qed.

(** ** Fresh PINs *)

Lemma string_length_app (a b : string) :
  String.length (a +:+ b) = (String.length a + String.length b)%nat.
Proof. induction a as [|c a IH]; simpl; [done|]. by rewrite IH. Qed.

Lemma string_length_of_list (l : list Ascii.ascii) :
  String.length (String.string_of_list_ascii l) = length l.
Proof. induction l as [|c l IH]; simpl; [done|]. by rewrite IH. Qed.

Lemma all_digits_app (a b : string) :
  all_digits (a +:+ b) = all_digits a && all_digits b.
Proof.
  unfold all_digits. induction a as [|c a IH]; simpl; [done|].
  by rewrite IH, andb_assoc.
Qed.

Lemma all_digits_zeros (n : nat) :
  all_digits (String.string_of_list_ascii (replicate n "0"%char)) = true.
Proof. unfold all_digits. induction n as [|n IH]; simpl; [done|exact IH]. Qed.

Lemma is_digit_pretty_N_char (d : N) : is_digit (pretty_N_char d) = true.
Proof. unfold pretty_N_char. by repeat case_match. Qed.

Lemma pretty_N_go_digits (k : nat) (x : N) (s : string) :
  (x < 10 ^ N.of_nat k)%N →
  all_digits s = true →
  all_digits (pretty_N_go x s) = true
  ∧ (String.length (pretty_N_go x s) ≤ String.length s + k)%nat.
Proof.
  revert x s. induction k as [|k IH]; intros x s Hx Hs.
  - assert (x = 0%N) as -> by (simpl in Hx; lia).
    rewrite pretty_N_go_0. split; [done|lia].
  - destruct (decide (x = 0%N)) as [->|Hne].
    { rewrite pretty_N_go_0. split; [done|lia]. }
    rewrite pretty_N_go_step by lia.
    destruct (IH (x `div` 10)%N
                (String (pretty_N_char (x `mod` 10)) s)) as (Hd & Hlen).
    + apply N.Div0.div_lt_upper_bound.
      rewrite Nat2N.inj_succ, N.pow_succ_r' in Hx. lia.
    + unfold all_digits in *. simpl. by rewrite is_digit_pretty_N_char.
    + split; [exact Hd|]. simpl in Hlen. lia.
Qed.

Lemma pretty_N_digits (x : N) :
  (x < 1000000)%N →
  all_digits (pretty x) = true ∧ (String.length (pretty x) ≤ 6)%nat.
Proof.
  intros Hx. unfold pretty, pretty_N.
  destruct (decide (x = 0%N)) as [->|Hne]; [split; [done|simpl; lia]|].
  destruct (pretty_N_go_digits 6 x "") as [Hd Hlen]; [simpl; lia|done|].
  split; [exact Hd|]. simpl in Hlen. lia.
Qed.

Lemma paddedPin_six_digits (d : pin_draw) : six_digits (paddedPin d) = true.
Proof.
  unfold paddedPin, padStart, six_digits.
  destruct (pretty_N_digits (readUIntBE (pd_bytes d) `mod` 1000000)%N)
    as [Hd Hlen]; [by apply N.mod_lt|].
  apply andb_true_iff. split.
  - apply Nat.eqb_eq.
    rewrite string_length_app, string_length_of_list, length_replicate. lia.
  - fold (all_digits (String.string_of_list_ascii
                        (replicate
                           (6 - String.length
                                  (pretty (readUIntBE (pd_bytes d)
                                           `mod` 1000000)%N)) "0"%char)
                      +:+ pretty (readUIntBE (pd_bytes d) `mod` 1000000)%N)).
    by rewrite all_digits_app, all_digits_zeros, Hd.
Qed.

Lemma generateUniquePIN_from_spec (remaining : nat) (draws : nat → pin_draw)
  (attempts : nat) (pin : string) (s s' : state) :
  generateUniquePIN_from remaining draws attempts s = (Ok pin, s') →
  s' = s
  ∧ ∃ i, (attempts ≤ i < attempts + remaining)%nat
         ∧ pin = paddedPin (draws i)
         ∧ Forall (λ u, u_pin u ≠ pin) (users s).
Proof.
  revert attempts. induction remaining as [|n IH]; intros attempts Hrun;
    simpl in Hrun; [discriminate|].
  unfold db_query in Hrun. munfold.
  destruct (pd_query (draws attempts)) as [msg|]; [discriminate|].
  simpl in Hrun.
  destruct (filter (λ u, u_pin u = paddedPin (draws attempts)) (users s))
    as [|u rest] eqn:Hfilter.
  - injection Hrun as <- <-. split; [done|]. exists attempts.
    split; [lia|]. split; [done|].
    apply Forall_forall. intros u Hu Hpin.
    assert (u ∈ filter (λ u, u_pin u = paddedPin (draws attempts)) (users s))
      as Hin by (by apply list_elem_of_filter).
    rewrite Hfilter in Hin. by apply elem_of_nil in Hin.
  - destruct (IH (S attempts) Hrun) as (-> & i & Hi & Hp & Hfresh).
    split; [done|]. exists i. split; [lia|done].
Qed.

(** X20. A PIN that [generateUniquePIN] returns is the padded value of one
    of its at most ten draws, has exactly six decimal digits (so
    [validatePIN] accepts its format), and is the PIN of no user, active or
    not; the database is only read. *)
Theorem generateUniquePIN_returns_a_fresh_pin (draws : nat → pin_draw)
  (pin : string) (s s' : state) :
  generateUniquePIN draws s = (Ok pin, s') →
  s' = s
  ∧ six_digits pin = true
  ∧ bad_pin_format (Some pin) = false
  ∧ Forall (λ u, u_pin u ≠ pin) (users s)
  ∧ ∃ i, (i < 10)%nat ∧ pin = paddedPin (draws i).
Proof.
  intros Hrun.
  destruct (generateUniquePIN_from_spec _ _ _ _ _ _ Hrun)
    as (-> & i & Hi & -> & Hfresh).
  split; [done|]. split; [apply paddedPin_six_digits|].
  split; [apply six_digits_good_format, paddedPin_six_digits|].
  split; [exact Hfresh|]. exists i. split; [unfold MAX_ATTEMPTS in Hi; lia|done].
Qed.

Lemma generateUniquePIN_returns_a_fresh_pin_witness :
  six_digits "012345" = true
  ∧ Forall (λ u, u_pin u ≠ "012345") [sample_user "123456" true].
Proof.
  assert (generateUniquePIN (constant_draws (x00, x30, x39))
            (boot [sample_user "123456" true] [] true)
          = (Ok "012345", boot [sample_user "123456" true] [] true)) as Hrun
    by (vm_compute; reflexivity).
  destruct (generateUniquePIN_returns_a_fresh_pin _ _ _ _ Hrun)
    as (_ & Hsix & _ & Hfresh & _).
  exact (conj Hsix Hfresh).
Defined.

(** X21. [generateUniquePIN] gives up after ten draws: when the queries are
    served and each of the first ten padded draws is already the PIN of
    some user, it throws and has written nothing, whatever an eleventh draw
    would be. *)
Theorem generateUniquePIN_gives_up_after_ten (draws : nat → pin_draw)
  (s : state) :
  (∀ i, (i < 10)%nat →
     pd_query (draws i) = None
     ∧ ∃ u, u ∈ users s ∧ u_pin u = paddedPin (draws i)) →
  generateUniquePIN draws s
  = (Throw "Unable to generate unique PIN after multiple attempts", s).
Proof.
  unfold generateUniquePIN, MAX_ATTEMPTS. intros Htaken.
  assert (∀ n attempts, (attempts + n = 10)%nat →
            generateUniquePIN_from n draws attempts s
            = (Throw "Unable to generate unique PIN after multiple attempts",
               s)) as Hloop; [|by apply Hloop].
  induction n as [|n IH]; intros attempts Hsum; simpl; [done|].
  destruct (Htaken attempts) as (Hq & u & Hu & Hpin); [lia|].
  rewrite Hq. unfold db_query. munfold. simpl.
  destruct (filter (λ u, u_pin u = paddedPin (draws attempts)) (users s))
    as [|u' rest] eqn:Hfilter.
  - assert (u ∈ filter (λ u, u_pin u = paddedPin (draws attempts)) (users s))
      as Hin by (by apply list_elem_of_filter).
    rewrite Hfilter in Hin. by apply elem_of_nil in Hin.
  - apply IH. lia.
Qed.

Lemma generateUniquePIN_gives_up_after_ten_witness :
  generateUniquePIN (constant_draws (x00, x30, x39))
    (boot [sample_user "012345" false] [] true)
  = (Throw "Unable to generate unique PIN after multiple attempts",
     boot [sample_user "012345" false] [] true).
Proof.
  apply generateUniquePIN_gives_up_after_ten. intros i _.
  split; [reflexivity|]. exists (sample_user "012345" false).
  split; [apply list_elem_of_here|]. vm_compute. reflexivity.
Defined.

Lemma rotatePIN_spec (draws : nat → pin_draw) (userId pin : string)
  (s s1 : state) :
  rotatePIN draws None userId s = (Ok pin, s1) →
  users s1 = set_pin_of userId pin <$> users s
  ∧ six_digits pin = true
  ∧ Forall (λ u, u_pin u ≠ pin) (users s).
Proof.
  unfold rotatePIN. unfold mbind at 1, M_bind at 1, bind at 1.
  destruct (generateUniquePIN draws s) as [[newPin|msg] s0] eqn:Hgen;
    [|discriminate].
  destruct (generateUniquePIN_from_spec _ _ _ _ _ _ Hgen)
    as (-> & i & _ & Hp & Hfresh).
  munfold. simpl. intros [= <- <-]. split; [done|].
  split; [|done]. rewrite Hp. apply paddedPin_six_digits.
Qed.

Lemma set_pin_of_holder (userId pin : string) (u : user_row) :
  u_pin u ≠ pin →
  pin_matches pin (set_pin_of userId pin u) = true →
  u_id (set_pin_of userId pin u) = userId.
Proof.
  intros Hfresh. unfold set_pin_of, pin_matches.
  destruct (String.eqb (u_id u) userId) eqn:Hid; simpl.
  - intros _. by apply String.eqb_eq.
  - intros [Hpin _]%andb_true_iff. by apply String.eqb_eq in Hpin.
Qed.

(** X22. After [rotatePIN(userId)] has returned a new PIN, [validatePIN]
    of that PIN, when its queries are served, authenticates an active user
    [userId] and nobody else; and no other PIN authenticates [userId] any
    more, the one held before included. *)
Theorem rotated_pin_authenticates_its_user (draws : nat → pin_draw)
  (now : nat) (userId pin : string) (u : user_row) (s s1 : state) :
  rotatePIN draws None userId s = (Ok pin, s1) →
  u ∈ users s → u_id u = userId → u_is_active u = true →
  (∃ user s2,
     validatePIN now None None (Some pin) s1 = (Ok (Some user), s2)
     ∧ pu_id user = userId)
  ∧ ∀ other q_select q_update user s2,
      other ≠ pin →
      validatePIN now q_select q_update (Some other) s1
      = (Ok (Some user), s2) →
      pu_id user ≠ userId.
Proof.
  intros Hrot Hu Hid Hact.
  destruct (rotatePIN_spec _ _ _ _ _ Hrot) as (Hus & Hsix & Hfresh).
  rewrite Forall_forall in Hfresh. split.
  - unfold validatePIN. rewrite (six_digits_good_format pin Hsix).
    unfold db_query. munfold. simpl.
    destruct (filter (λ u0, pin_matches pin u0 = true) (users s1))
      as [|r rest] eqn:Hfilter.
    + exfalso.
      assert (set_pin_of userId pin u
              ∈ filter (λ u0, pin_matches pin u0 = true) (users s1)) as Hin.
      { apply list_elem_of_filter. split.
        - unfold set_pin_of, pin_matches.
          apply String.eqb_eq in Hid. rewrite Hid. simpl.
          by rewrite String.eqb_refl, Hact.
        - rewrite Hus. by apply list_elem_of_fmap_2. }
      rewrite Hfilter in Hin. by apply elem_of_nil in Hin.
    + simpl. eexists _, _. split; [reflexivity|]. simpl.
      assert (r ∈ filter (λ u0, pin_matches pin u0 = true) (users s1))
        as Hin by (rewrite Hfilter; left).
      apply list_elem_of_filter in Hin as [Hmatch Hin].
      rewrite Hus in Hin. apply list_elem_of_fmap in Hin as (u0 & -> & Hu0).
      apply set_pin_of_holder; [by apply Hfresh|done].
  - intros other q_select q_update user s2 Hother Hrun.
    unfold validatePIN in Hrun.
    destruct (bad_pin_format (Some other)); [discriminate|].
    unfold db_query in Hrun. munfold.
    destruct q_select as [msg|]; [discriminate|]. simpl in Hrun.
    destruct (filter (λ u0, pin_matches other u0 = true) (users s1))
      as [|r rest] eqn:Hfilter; [discriminate|].
    simpl in Hrun.
    assert (user = select_columns r) as ->.
    { destruct q_update; [discriminate|]. by injection Hrun as <- _. }
    simpl.
    assert (r ∈ filter (λ u0, pin_matches other u0 = true) (users s1))
      as Hin by (rewrite Hfilter; left).
    apply list_elem_of_filter in Hin as [Hmatch Hin].
    rewrite Hus in Hin. apply list_elem_of_fmap in Hin as (u0 & -> & Hu0).
    unfold set_pin_of, pin_matches in *.
    destruct (String.eqb (u_id u0) userId) eqn:Hid0; simpl in *.
    + apply andb_true_iff in Hmatch as [Hpin _].
      apply String.eqb_eq in Hpin. congruence.
    + by apply String.eqb_neq.
Qed.

Lemma rotated_pin_authenticates_its_user_witness :
  ∃ user s2,
    validatePIN 7 None None (Some "012345")
      (set_users (fmap (set_pin_of "u-1" "012345"))
         (boot [sample_user "123456" true] [] true))
    = (Ok (Some user), s2)
    ∧ pu_id user = "u-1".
Proof.
  assert (rotatePIN (constant_draws (x00, x30, x39)) None "u-1"
            (boot [sample_user "123456" true] [] true)
          = (Ok "012345",
             set_users (fmap (set_pin_of "u-1" "012345"))
               (boot [sample_user "123456" true] [] true))) as Hrot
    by (vm_compute; reflexivity).
  exact (proj1 (rotated_pin_authenticates_its_user _ 7 "u-1" "012345"
                  (sample_user "123456" true) _ _ Hrot
                  (list_elem_of_here _ _) eq_refl eq_refl)).
Defined.

(** ** The rate limit *)

Lemma filter_all {A} (P : A → Prop) `{∀ x, Decision (P x)} (l : list A) :
  Forall P l → filter P l = l.
Proof.
  induction 1 as [|x l Hx _ IH]; [done|].
  by rewrite filter_cons_True, IH.
Qed.

Lemma Forall_filter_self {A} (P : A → Prop) `{∀ x, Decision (P x)}
  (l : list A) : Forall P (filter P l).
Proof.
  apply Forall_forall. intros x Hx. by apply list_elem_of_filter in Hx as [? _].
Qed.

(** X23. Whatever [checkRateLimit] answers, the store it leaves holds only
    attempts of the current window, and no identifier without any: old
    attempts of every identifier are forgotten at each call. *)
Theorem checkRateLimit_keeps_only_live_attempts (now : Z)
  (identifier : string) (maxAttempts windowMinutes : Z)
  (store : gmap string (list Z)) (k : string) (l : list Z) :
  (0 < windowMinutes)%Z →
  (checkRateLimit now identifier maxAttempts windowMinutes store).2 !! k
  = Some l →
  l ≠ [] ∧ Forall (λ time, now - window_ms windowMinutes < time)%Z l.
Proof.
  intros Hwin. unfold checkRateLimit. cbv zeta.
  assert (∀ (k : string) (l : list Z),
            clean_old_entries (now - window_ms windowMinutes) store !! k
            = Some l →
            l ≠ [] ∧ Forall (λ time, now - window_ms windowMinutes < time)%Z l)
    as Hclean.
  { intros k' l' Hl. unfold clean_old_entries in Hl.
    rewrite lookup_omap in Hl. destruct (store !! k') as [old|]; [|done].
    simpl in Hl.
    pose proof (Forall_filter_self
                  (λ time, now - window_ms windowMinutes < time)%Z old) as Hall.
    destruct (filter (λ time, now - window_ms windowMinutes < time)%Z old);
      [done|]. by injection Hl as <-. }
  destruct (maxAttempts <=? _)%Z; simpl; [apply Hclean|].
  destruct (decide (k = identifier)) as [->|Hne].
  - rewrite lookup_insert_eq. intros [= <-]. split; [intros Happ; by apply app_eq_nil in Happ as [_ ?]|].
    apply Forall_app. split; [apply Forall_filter_self|].
    constructor; [|done]. unfold window_ms. lia.
  - rewrite lookup_insert_ne by done. apply Hclean.
Qed.

Lemma checkRateLimit_keeps_only_live_attempts_witness :
  [1500000; 2000000]%Z ≠ []
  ∧ Forall (λ time, 2000000 - window_ms 15 < time)%Z [1500000; 2000000]%Z.
Proof.
  apply (checkRateLimit_keeps_only_live_attempts 2000000 "pin:+15550100" 5 15
           (<["pin:+15550100" := [1000; 1500000]%Z]>
              (<["pin:+15550102" := [1000]%Z]> ∅)) "pin:+15550100").
  - reflexivity.
  - vm_compute. reflexivity.
Defined.

Lemma clean_old_entries_live (windowStart : Z) (store : gmap string (list Z))
  (identifier : string) :
  Forall (λ time, windowStart < time)%Z (default [] (store !! identifier)) →
  default [] (clean_old_entries windowStart store !! identifier)
  = default [] (store !! identifier).
Proof.
  intros Hlive. unfold clean_old_entries. rewrite lookup_omap.
  destruct (store !! identifier) as [l|]; simpl in *; [|done].
  rewrite (filter_all _ l Hlive). by destruct l.
Qed.

Lemma checkRateLimit_calls_within_window (a : Z) (m : nat) (times : list Z)
  (identifier : string) (windowMinutes : Z) (store : gmap string (list Z)) :
  Forall (λ t, a ≤ t < a + window_ms windowMinutes)%Z times →
  Forall (λ t, a ≤ t)%Z (default [] (store !! identifier)) →
  allowed
  <$> (checkRateLimit_calls times identifier (Z.of_nat m) windowMinutes
         store).1
  = replicate
      (length times `min` (m - length (default [] (store !! identifier))))
      true
    ++ replicate
         (length times - (m - length (default [] (store !! identifier))))
         false.
Proof.
  intros Htimes. revert store.
  induction Htimes as [|t times [Hlo Hhi] _ IH]; intros store Hlive;
    [done|].
  simpl. unfold checkRateLimit. cbv zeta.
  assert (Forall (λ time, t - window_ms windowMinutes < time)%Z
            (default [] (store !! identifier))) as Hrecent.
  { eapply Forall_impl; [exact Hlive|]. simpl. intros x Hx. lia. }
  rewrite (clean_old_entries_live _ _ _ Hrecent).
  rewrite (filter_all _ _ Hrecent).
  set (l := default [] (store !! identifier)) in *.
  destruct (Z.of_nat m <=? Z.of_nat (length l))%Z eqn:Hfull;
    [apply Z.leb_le in Hfull|apply Z.leb_gt in Hfull].
  - specialize (IH (clean_old_entries (t - window_ms windowMinutes) store)).
    rewrite (clean_old_entries_live _ _ _ Hrecent) in IH. fold l in IH.
    specialize (IH Hlive).
    destruct (checkRateLimit_calls times identifier (Z.of_nat m)
                windowMinutes _) as [rs store2].
    cbn [fst] in *. rewrite fmap_cons, IH.
    replace (m - length l) with 0 by lia.
    rewrite !Nat.min_0_r, !Nat.sub_0_r. done.
  - specialize (IH (<[identifier := l ++ [t]]>
                      (clean_old_entries (t - window_ms windowMinutes) store))).
    rewrite lookup_insert_eq in IH. simpl in IH.
    assert (Forall (λ t0, a ≤ t0)%Z (l ++ [t])) as Hlive'.
    { apply Forall_app. split; [exact Hlive|]. by constructor. }
    specialize (IH Hlive'). rewrite length_app in IH. simpl in IH.
    destruct (checkRateLimit_calls times identifier (Z.of_nat m)
                windowMinutes _) as [rs store2].
    cbn [fst] in *. rewrite fmap_cons, IH.
    replace (m - length l) with (S (m - (length l + 1))) by lia.
    done.
Qed.

(** X24. The limit is kept: of any number of calls of [checkRateLimit] for
    an identifier without earlier attempts, at times that all lie within
    one window, exactly the first [maxAttempts] return [true] and every
    later one throws. *)
Theorem rate_limit_allows_exactly_maxAttempts (a : Z) (m : nat)
  (times : list Z) (identifier : string) (windowMinutes : Z)
  (store : gmap string (list Z)) :
  Forall (λ t, a ≤ t < a + window_ms windowMinutes)%Z times →
  store !! identifier = None →
  allowed
  <$> (checkRateLimit_calls times identifier (Z.of_nat m) windowMinutes
         store).1
  = replicate (length times `min` m) true
    ++ replicate (length times - m) false.
Proof.
  intros Htimes Hnone.
  rewrite (checkRateLimit_calls_within_window a m times identifier
             windowMinutes store Htimes); rewrite Hnone; simpl; [|done].
  by rewrite Nat.sub_0_r.
Qed.

Lemma rate_limit_allows_exactly_maxAttempts_witness :
  allowed
  <$> (checkRateLimit_calls [0; 1000; 2000; 899999]%Z "pin:+15550100" 2 15 ∅).1
  = [true; true; false; false].
Proof.
  assert (Forall (λ t, 0 ≤ t < 0 + window_ms 15)%Z
            [0; 1000; 2000; 899999]%Z) as Htimes
    by (apply (bool_decide_unpack _); vm_compute; exact I).
  exact (rate_limit_allows_exactly_maxAttempts 0 2 [0; 1000; 2000; 899999]%Z
           "pin:+15550100" 15 ∅ Htimes eq_refl).
Defined.

(** ** The regeneration route *)

(** X25. [POST /sessions/:sessionId/regenerate] always answers, with 200,
    404 or 500.  It answers 200 exactly when the query is served and a
    session with that id belongs to the user of the request; then exactly
    one new job exists, a regeneration job for that session and that user
    with no attempt yet, in the queue or with a worker.  With any other
    answer the state is untouched: nothing is queued for a session of
    somebody else. *)
Theorem regenerate_queues_only_for_the_owner (q_select : option string)
  (id : string) (userId : option string) (sessionId : string) (body : json)
  (s : state) :
  ∃ resp s',
    regenerate_handler q_select id userId sessionId body s = (Ok resp, s')
    ∧ (ar_status resp = 200 ∨ ar_status resp = 404 ∨ ar_status resp = 500)
    ∧ (ar_status resp = 200
       ↔ q_select = None
         ∧ ∃ r, r ∈ sessions s ∧ s_id r = sessionId
                ∧ ∃ uid, userId = Some uid ∧ s_user_id r = Some uid)
    ∧ (ar_status resp ≠ 200 → s' = s)
    ∧ (ar_status resp = 200 →
       ar_sessionId resp = Some sessionId
       ∧ length (heap s') = S (length (heap s))
       ∧ ∃ j, heap s' !! length (heap s) = Some j
              ∧ j_type j = regenerate_session
              ∧ j_sessionId j = Some sessionId
              ∧ j_userId j = userId
              ∧ j_attempts j = 0
              ∧ length (heap s)
                ∈ processingQueue s' ++ (worker_job <$> workers s')).
Proof.
  unfold regenerate_handler, db_query. munfold.
  destruct q_select as [msg|]; simpl.
  { eexists _, s. split; [reflexivity|]. simpl.
    split; [by right; right|]. split; [|done]. split; [done|by intros [? _]]. }
  destruct (filter (λ r, owned_session sessionId userId r = true) (sessions s))
    as [|session rest] eqn:Hrows.
  - eexists _, s. split; [reflexivity|]. simpl.
    split; [by right; left|]. split; [|done]. split; [done|].
    intros (_ & r & Hr & Hid & uid & -> & Huid). exfalso.
    assert (r ∈ filter (λ r, owned_session sessionId (Some uid) r = true)
                  (sessions s)) as Hin.
    { apply list_elem_of_filter. split; [|done]. unfold owned_session.
      rewrite Hid, Huid. simpl. by rewrite !String.eqb_refl. }
    rewrite Hrows in Hin. by apply elem_of_nil in Hin.
  - assert (session ∈ filter (λ r, owned_session sessionId userId r = true)
                        (sessions s)) as Hin by (rewrite Hrows; left).
    apply list_elem_of_filter in Hin as [Howned Hin].
    unfold owned_session in Howned.
    apply andb_true_iff in Howned as [Hid Huser].
    apply String.eqb_eq in Hid.
    assert (∃ uid, userId = Some uid ∧ s_user_id session = Some uid)
      as (uid & Hu1 & Hu2).
    { unfold sql_eq_str in Huser.
      destruct (s_user_id session) as [a|], userId as [b|]; try done.
      apply String.eqb_eq in Huser as ->. by exists b. }
    unfold queueRegenerationJob.
    match goal with
    | |- context [enqueue ?j s] =>
        destruct (enqueue_spec j s) as (j' & Hlen & Hl & Hj & Href);
        rewrite (enqueue_unfold j s) in *
    end.
    cbn beta iota zeta in *. cbn [snd] in *.
    eexists _, _. split; [reflexivity|]. simpl.
    split; [by left|]. split; [split; [|done]|].
    { intros _. split; [done|]. exists session. split; [done|].
      split; [done|]. by exists uid. }
    split; [done|]. intros _. split; [by rewrite Hid|].
    split; [exact Hlen|]. exists j'. split; [exact Hl|].
    split; [exact (f_equal j_type Hj)|].
    split; [rewrite <- Hid; exact (f_equal j_sessionId Hj)|].
    split; [exact (f_equal j_userId Hj)|].
    split; [exact (f_equal j_attempts Hj)|exact Href].
Qed.

(** ** Who may record *)

Ltac logCall_runs H :=
  repeat match type of H with
    | context [logCall ?q ?a ?b ?c ?d ?e ?f ?s0] =>
        let s1 := fresh "s" in
        let Hlog := fresh "Hlog" in
        destruct (logCall_spec q a b c d e f s0) as (s1 & Hlog & _);
        rewrite Hlog in H; clear Hlog; cbn beta iota in H
    end.

(** X26. A webhook tells Twilio to record only on [/authenticate], and only
    when the digits of the request are six decimal digits and the PIN of an
    active user, both queries of [validatePIN] being served; the callbacks
    of the recording then carry the id of that user.  No failure of the
    database and no other route leads to a recording. *)
Theorem recording_needs_an_active_pin_holder (env : environment)
  (h : webhook) (req : request) (resp : response) (s s' : state) :
  serve env h req s = (Ok resp, s') →
  instructs_recording resp = true →
  ∃ now q_log p u,
    h = PostAuthenticate now None None q_log
    ∧ field "Digits" (rq_body req) = Some p
    ∧ six_digits p = true
    ∧ u ∈ users s
    ∧ u_pin u = p
    ∧ u_is_active u = true
    ∧ resp = recording_answer (u_id u) (field "CallSid" (rq_body req)).
Proof.
  unfold serve, route, validateTwilioSignature. intros Hrun Hrec.
  assert (handler_of h req s = (Ok resp, s')) as Hh.
  { destruct (bool_decide (NODE_ENV env = Some "development")).
    - munfold. by destruct (handler_of h req s) as [[r|msg] s1].
    - destruct (validateRequest env (twilio_authToken env) (rq_signature req)
                  ("https://" +:+ rq_host req +:+ rq_originalUrl req)
                  (rq_body req)).
      + munfold. by destruct (handler_of h req s) as [[r|msg] s1].
      + munfold. simpl in Hrun. injection Hrun as <- _. discriminate Hrec. }
  clear Hrun.
  destruct h as [q_log|now q_select q_update q_log|q_log id|q_update];
    simpl in Hh.
  - exfalso. unfold voice_handler in Hh.
    unfold try_catch, mbind, M_bind, bind in Hh. logCall_runs Hh.
    injection Hh as <- _. discriminate Hrec.
  - unfold authenticate_handler in Hh. cbv zeta in Hh.
    unfold try_catch at 1 in Hh.
    destruct (field "Digits" (rq_body req)) as [p|] eqn:Hdigits.
    2:{ exfalso. simpl in Hh. unfold mbind, M_bind, bind in Hh.
        logCall_runs Hh. injection Hh as <- _. discriminate Hrec. }
    destruct (bad_pin_format (Some p)) eqn:Hbad.
    { exfalso. unfold mbind, M_bind, bind in Hh. logCall_runs Hh.
      injection Hh as <- _. discriminate Hrec. }
    assert (six_digits p = true) as Hsix.
    { simpl in Hbad. apply orb_false_iff in Hbad as [_ Hsix].
      by apply negb_false_iff in Hsix. }
    unfold validatePIN in Hh. rewrite Hbad in Hh.
    unfold logFailedPINAttempt, log, emit_effect, db_query in Hh. munfold.
    cbn beta iota in Hh.
    destruct q_select as [msg|]; cbn beta iota in Hh.
    { exfalso. logCall_runs Hh. injection Hh as <- _. discriminate Hrec. }
    destruct (filter (λ u, pin_matches p u = true) (users s))
      as [|u rest] eqn:Hrows.
    { exfalso. rewrite fmap_nil in Hh. cbn beta iota in Hh.
      logCall_runs Hh. injection Hh as <- _. discriminate Hrec. }
    rewrite fmap_cons in Hh. cbn beta iota in Hh.
    destruct q_update as [msg|]; cbn beta iota in Hh.
    { exfalso. logCall_runs Hh. injection Hh as <- _. discriminate Hrec. }
    logCall_runs Hh. injection Hh as <- _.
    assert (u ∈ filter (λ u, pin_matches p u = true) (users s)) as Hin
      by (rewrite Hrows; left).
    apply list_elem_of_filter in Hin as [Hmatch Hin].
    unfold pin_matches in Hmatch.
    apply andb_true_iff in Hmatch as [Hpin Hact].
    apply String.eqb_eq in Hpin.
    exists now, q_log, p, u. by repeat split.
  - exfalso. unfold recording_complete_handler in Hh. cbv zeta in Hh.
    unfold try_catch in Hh.
    destruct (field "RecordingUrl" (rq_body req)) as [url|];
      [destruct (present (Some url))|].
    + unfold mbind, M_bind, bind in Hh. logCall_runs Hh.
      unfold queueProcessingJob in Hh. rewrite enqueue_unfold in Hh.
      munfold. injection Hh as <- _. discriminate Hrec.
    + munfold. injection Hh as <- _. discriminate Hrec.
    + munfold. injection Hh as <- _. discriminate Hrec.
  - exfalso. unfold recording_status_handler in Hh.
    unfold mbind, M_bind, bind in Hh.
    destruct (try_catch _ _ s) as [[[]|msg] s1]; [|discriminate].
    munfold. injection Hh as <- _. discriminate Hrec.
Qed.

Lemma recording_needs_an_active_pin_holder_witness :
  ∃ u,
    u ∈ [sample_user "123456" true]
    ∧ u_pin u = "123456"
    ∧ u_is_active u = true.
Proof.
  destruct (recording_needs_an_active_pin_holder (production true)
              (PostAuthenticate 7 None None None) (pin_request "123456")
              (recording_answer "u-1" (Some "CA1"))
              (boot [sample_user "123456" true] [] true)
              (serve (production true) (PostAuthenticate 7 None None None)
                 (pin_request "123456")
                 (boot [sample_user "123456" true] [] true)).2)
    as (now & q_log & p & u & _ & Hdigits & _ & Hu & Hpin & Hact & _).
  - vm_compute. reflexivity.
  - reflexivity.
  - exists u. injection Hdigits as <-. by repeat split.
Defined.

(** X27. The [catch] of [/voice] is never entered: for every request the
    middleware lets through the caller is asked for the PIN, whether or not
    the call can be logged, and nothing but the call log is written. *)
Theorem voice_always_prompts_for_the_pin (env : environment)
  (q_log : option string) (req : request) (s : state) :
  accepted env req →
  ∃ s',
    serve env (PostVoice q_log) req s = (Ok pin_prompt, s')
    ∧ same_queue s s'
    ∧ users s' = users s ∧ sessions s' = sessions s
    ∧ call_logs s'
      = call_logs s
        ++ match q_log with
           | Some _ => []
           | None => [call_log (field "CallSid" (rq_body req))
                        (field "From" (rq_body req)) "incoming_call" true
                        None None]
           end.
Proof.
  intros Hacc. unfold serve. rewrite route_accepts by exact Hacc. simpl.
  unfold voice_handler. unfold try_catch, mbind, M_bind, bind.
  destruct (logCall_spec q_log (field "CallSid" (rq_body req))
              (field "From" (rq_body req)) "incoming_call" true None None s)
    as (s' & -> & Hsame & Hu & Hs & Hq).
  exists s'. split; [reflexivity|]. split; [exact Hsame|].
  split; [exact Hu|]. split; [exact Hs|].
  destruct q_log; destruct Hq as [-> _];
    [by rewrite (right_id_L [] (++))|done].
Qed.

Lemma voice_always_prompts_for_the_pin_witness :
  ∃ s',
    serve (production true) (PostVoice (Some "db is down"))
      (sample_request [("CallSid", "CA1"); ("From", "+15550100")] [])
      two_jobs_queued
    = (Ok pin_prompt, s')
    ∧ call_logs s' = call_logs two_jobs_queued.
Proof.
  destruct (voice_always_prompts_for_the_pin (production true)
              (Some "db is down")
              (sample_request [("CallSid", "CA1"); ("From", "+15550100")] [])
              two_jobs_queued) as (s' & Hrun & _ & _ & _ & Hlogs).
  - right. reflexivity.
  - exists s'. split; [exact Hrun|]. by rewrite Hlogs, (right_id_L [] (++)).
Defined.
